(** * CompositeJK: mix-and-match Coulomb / exchange builders (psi4, libfock)

    A shallow embedding of [psi4/src/psi4/libfock/CompositeJK.cc].

    - [double] is Rocq's primitive binary64 [float]; every comparison is the
      IEEE comparison the C++ operator performs.
    - Shell, function, thread and channel indices and the shell counters are
      [nat]: they never go below zero, and signed overflow is undefined
      behaviour in C++, so the model speaks about runs that stay inside the
      range of [int]. The options of type [int] and the counter compared with
      them are [Z], with [Z.rem] for [%].
    - [size_t] values are [Z] reduced modulo [2^64] where the code relies on the
      wrap-around ([std::string::npos + 1]).
    - [std::string] is [string]; [std::vector] is [list]; [std::unordered_set<int>]
      is [gset nat]; a [std::shared_ptr<Matrix>] is a location in a matrix store.
    - a thrown [PSIEXCEPTION] is the [Throw] result of the error monad.
    - Timers and printing are left out. *)

From Stdlib Require Import ZArith String Ascii List Bool Lia.
From Stdlib Require Import Floats.PrimFloat.
From stdpp Require Import base option list gmap sets strings.

Local Open Scope string_scope.
Local Open Scope Z_scope.

(** ** Results of code that may throw *)

Inductive result (A : Type) : Type :=
| Ok (a : A)
| Throw (msg : string).
Arguments Ok {A} a.
Arguments Throw {A} msg.

#[global] Instance result_ret : MRet result := fun A a => Ok a.
#[global] Instance result_bind : MBind result := fun A B k m =>
  match m with
  | Ok a => k a
  | Throw msg => Throw msg
  end.

Definition throws {A} (r : result A) : Prop :=
  match r with Ok _ => False | Throw _ => True end.

(** ** std::string *)

Module StdString.

(** [size_t] is 64 bits wide on the platforms psi4 builds on. *)
Definition size_t_modulus : Z := 2 ^ 64.
Definition size_t_wrap (z : Z) : Z := z mod size_t_modulus.

(** [std::string::npos] is [size_t(-1)]. *)
Definition npos : Z := size_t_modulus - 1.

Definition length (s : string) : Z := Z.of_nat (String.length s).

(** Position of the first occurrence of [needle] in [s], counted from the
    front, as [std::string::find] searches. *)
Fixpoint find_from (needle s : string) (i : nat) : option nat :=
  if String.prefix needle s then Some i
  else match s with
       | EmptyString => None
       | String _ rest => find_from needle rest (S i)
       end.

(** [s.find(needle)]: the position, or [npos] when there is none. *)
Definition find (s needle : string) : Z :=
  match find_from needle s 0 with
  | Some i => Z.of_nat i
  | None => npos
  end.

(** [s.substr(pos, count)]: throws [std::out_of_range] when [pos > size()],
    otherwise the characters [pos .. min(pos + count, size())). *)
Definition substr (s : string) (pos count : Z) : result string :=
  if length s <? pos then Throw "basic_string::substr"
  else Ok (String.substring (Z.to_nat pos)
             (Z.to_nat (Z.min count (length s - pos))) s).

End StdString.

(** ** double, std::vector<double> and dense matrices *)

Module Num.

Local Open Scope float_scope.

(** [a >= b] on doubles. *)
Definition fge (a b : float) : bool := PrimFloat.leb b a.
(** [a < b] on doubles. *)
Definition flt (a b : float) : bool := PrimFloat.ltb a b.

(** [std::max(a, b)] is [(a < b) ? b : a]. *)
Definition fmax (a b : float) : float := if flt a b then b else a.

(** [std::abs] on a double. *)
Definition fabs (a : float) : float := PrimFloat.abs a.

(** A [Vector] is its array of doubles; a [Matrix] is its rows. *)
Abbreviation Vector := (list float) (only parsing).
Abbreviation Matrix := (list (list float)) (only parsing).

Definition vzero (n : nat) : Vector := replicate n 0.
Definition mzero (rows cols : nat) : Matrix := replicate rows (vzero cols).

(** [v[i]]: reading outside the array is undefined in C++, [0] here. *)
Definition vget (v : Vector) (i : nat) : float := default 0 (v !! i).
(** [m[i][j]]. *)
Definition mget (m : Matrix) (i j : nat) : float := vget (default [] (m !! i)) j.

(** [v[i] = x]. *)
Definition vset (v : Vector) (i : nat) (x : float) : Vector := <[i := x]> v.
(** [v[i] += x]. *)
Definition vadd_at (v : Vector) (i : nat) (x : float) : Vector :=
  alter (fun y => y + x) i v.
(** [m[i][j] += x]. *)
Definition madd_at (m : Matrix) (i j : nat) (x : float) : Matrix :=
  alter (fun row => vadd_at row j x) i m.

(** [Vector::add], [Matrix::add], [Matrix::subtract] and [Matrix::zero]:
    element by element, on the receiver's shape. *)
Definition vadd (a b : Vector) : Vector := imap (fun i x => x + vget b i) a.
Definition madd (a b : Matrix) : Matrix :=
  imap (fun i row => imap (fun j x => x + mget b i j) row) a.
Definition msubtract (a b : Matrix) : Matrix :=
  imap (fun i row => imap (fun j x => x - mget b i j) row) a.
Definition mzero_out (a : Matrix) : Matrix := map (map (fun _ => 0)) a.

(** A matrix equal to its transpose, entry by entry. *)
Definition symmetric (m : Matrix) : Prop :=
  forall i j : nat, mget m i j = mget m j i.

End Num.

(** ** Collaborators: basis sets, the integral engine, LAPACK *)

Module Mints.

Import Num.

(** A [GaussianShell]: its function count, the index of its first basis
    function and the atom it sits on. *)
Record GaussianShell : Type := {
  nfunction : nat;
  function_index : nat;
  ncenter : nat
}.

Record BasisSet : Type := {
  shells : list GaussianShell;
  nbf : nat
}.

Definition nshell (b : BasisSet) : nat := length (shells b).

Definition shell (b : BasisSet) (i : nat) : GaussianShell :=
  default {| nfunction := 0; function_index := 0; ncenter := 0 |} (shells b !! i).

Definition shell_to_basis_function (b : BasisSet) (i : nat) : nat :=
  function_index (shell b i).

(** A [TwoBodyAOInt] engine, as this file uses it. The per-thread clones made in
    [common_init] answer alike, so one record stands for all of them.
    [compute_shell P Q R S] gives the number of integrals computed and the
    buffer; [shell_pair_max_density] is read from the density last passed to
    [update_density]. *)
Record TwoBodyAOInt : Type := {
  shell_pairs : list (nat * nat);
  shell_pair_value : nat -> nat -> float;
  shell_pair_significant : nat -> nat -> bool;
  shell_significant : nat -> nat -> nat -> nat -> bool;
  shell_ceiling2 : nat -> nat -> nat -> nat -> float;
  shell_pair_max_density : list Matrix -> nat -> nat -> float;
  max_integral : float;
  compute_shell : nat -> nat -> nat -> nat -> nat * list float
}.

(** What the builders take from outside this file: the two basis sets, the 3-
    and 4-index engines, the linear solver [C_DGESV] (metric, right-hand side to
    solution), [Matrix::hermitivitize], the thread that OpenMP gives each
    iteration of a parallel loop, the order in which a [std::unordered_set] is
    iterated, [std::sort] under [screen_compare] (larger value first; the
    order of ties is the library's), and the grid loop of [build_COSK] (from
    [early_screening_] and the densities to the per-thread buffers
    [KT[jki][thread]] and [int_shells_computed]), whose quadrature grids, basis
    function values and electrostatic integrals all come from other files;
    [Process::environment.get_n_threads()] and the Coulomb metric that
    [FittingMetric(auxiliary_, true)] forms. *)
Record Collaborators : Type := {
  primary_ : BasisSet;
  auxiliary_ : BasisSet;
  eri3 : TwoBodyAOInt;
  eri4 : TwoBodyAOInt;
  C_DGESV : Matrix -> Vector -> Vector;
  hermitivitize : Matrix -> Matrix;
  omp_get_thread_num : nat -> nat;
  unordered_iteration : gset nat -> list nat;
  std_sort : list (nat * float) -> list (nat * float);
  COSK_grid_loop : bool -> list Matrix -> list (list Matrix) * nat;
  get_n_threads : nat;
  form_fitting_metric : Matrix
}.

End Mints.

(** ** The J builder: integral-direct density-fitted Coulomb *)

Module DirectDFJ.

Import Num Mints.
Local Open Scope float_scope.
Local Open Scope nat_scope.

(** The loop nest [for p .. for m .. for n ..] in the order it runs. *)
Definition loop_pmn (pstart np mstart nm nstart nn : nat) : list (nat * nat * nat) :=
  p ← seq pstart np; m ← seq mstart nm; n ← seq nstart nn; [(p, m, n)].

(** Diagonal shell maxima of the Coulomb metric. *)
Definition J_metric_shell_diag (c : Collaborators) (J_metric_ : Matrix) : Vector :=
  map (fun sh =>
         fold_left (fun acc bf => fmax acc (mget J_metric_ bf bf))
           (seq (function_index sh) (nfunction sh)) 0%float)
      (shells (auxiliary_ c)).

(** Shell maxima of the densities: [Dshell[M][N]] is the largest [|D[m][n]|]
    over every channel and every function pair of the shell pair. *)
Definition Dshell_entry (c : Collaborators) (D : list Matrix) (M N : nat) : float :=
  let shM := shell (primary_ c) M in
  let shN := shell (primary_ c) N in
  fold_left (fun acc Dp =>
    fold_left (fun acc m =>
      fold_left (fun acc n => fmax acc (fabs (mget Dp m n)))
        (seq (function_index shN) (nfunction shN)) acc)
      (seq (function_index shM) (nfunction shM)) acc)
    D 0%float.

Definition Dshell (c : Collaborators) (D : list Matrix) : Matrix :=
  let ns := nshell (primary_ c) in
  map (fun M => map (fun N => Dshell_entry c D M N) (seq 0 ns)) (seq 0 ns).

(** The shell triplet a flat index stands for: [MN = MNP % nshellpair],
    [P = MNP / nshellpair], [(M, N) = shell_pairs()[MN]]. *)
Definition triplet_of (c : Collaborators) (MNP : nat) : nat * nat * nat :=
  let nshellpair := length (shell_pairs (eri3 c)) in
  let MN := MNP mod nshellpair in
  let P := MNP / nshellpair in
  let bra := default (0, 0) (shell_pairs (eri3 c) !! MN) in
  (P, bra.1, bra.2).

(** The screening test of the first contraction:
    [Dshell[M][N] * Dshell[M][N] * J_metric_shell_diag[P] * shell_pair_value(M,N) < thresh2]. *)
Definition skip_triplet1 (c : Collaborators) (Dsh : Matrix) (diag : Vector)
    (thresh2 : float) (P M N : nat) : bool :=
  flt (mget Dsh M N * mget Dsh M N * vget diag P * shell_pair_value (eri3 c) M N)%float
      thresh2.

(** The innermost loops of the first contraction on one channel:
    [GTp[p] += buffer[index] * Dp[m][n]], and the transposed term when [N != M]. *)
Definition contract_G (c : Collaborators) (buffer : list float) (Dp : Matrix)
    (P M N : nat) (GTp : Vector) : Vector :=
  let shP := shell (auxiliary_ c) P in
  let shM := shell (primary_ c) M in
  let shN := shell (primary_ c) N in
  fst (fold_left
    (fun (st : Vector * nat) (pmn : nat * nat * nat) =>
       let '(G, index) := st in
       let '(p, m, n) := pmn in
       let G := vadd_at G p (vget buffer index * mget Dp m n)%float in
       let G := if decide (N ≠ M)
                then vadd_at G p (vget buffer index * mget Dp n m)%float
                else G in
       (G, S index))
    (loop_pmn (function_index shP) (nfunction shP)
              (function_index shM) (nfunction shM)
              (function_index shN) (nfunction shN))
    (GTp, 0)).

(** One iteration of the first parallel loop. [GT[jki][rank]] is the buffer of
    channel [jki] owned by thread [rank]; the counter is [computed_triplets1]. *)
Definition forward_triplet (c : Collaborators) (D : list Matrix) (Dsh : Matrix)
    (diag : Vector) (thresh2 : float)
    (st : list (list Vector) * nat) (MNP : nat) : list (list Vector) * nat :=
  let '(GT, computed_triplets1) := st in
  let '(P, M, N) := triplet_of c MNP in
  let rank := omp_get_thread_num c MNP in
  if skip_triplet1 c Dsh diag thresh2 P M N then st
  else
    let buffer := (compute_shell (eri3 c) P 0 M N).2 in
    (imap (fun jki GTjki =>
             alter (contract_G c buffer (default [] (D !! jki)) P M N) rank GTjki) GT,
     S computed_triplets1).

(** The first contraction: every flat triplet index, in increasing order. Each
    thread owns its buffers and takes its iterations in increasing order, so
    this is the result of the parallel loop. *)
Definition forward_contraction (c : Collaborators) (nthreads_ : nat) (D : list Matrix)
    (Dsh : Matrix) (diag : Vector) (thresh2 : float) : list (list Vector) * nat :=
  let njk := length D in
  let nshelltriplet := nshell (auxiliary_ c) * length (shell_pairs (eri3 c)) in
  fold_left (forward_triplet c D Dsh diag thresh2) (seq 0 nshelltriplet)
    (replicate njk (replicate nthreads_ (vzero (nbf (auxiliary_ c)))), 0).

(** The metric solve: sum the per-thread [G], then solve [(q|p) H = G]. *)
Definition metric_solve (c : Collaborators) (J_metric_ : Matrix)
    (GT : list (list Vector)) : list Vector :=
  map (fun GTjki =>
         C_DGESV c J_metric_
           (fold_left vadd GTjki (vzero (nbf (auxiliary_ c)))))
      GT.

(** Shell maxima of [H]. *)
Definition H_shell_max (c : Collaborators) (H : list Vector) : Vector :=
  fold_left (fun hs Hp =>
    fold_left (fun hs P =>
      let shP := shell (auxiliary_ c) P in
      fold_left (fun hs p => vset hs P (fmax (vget hs P) (fabs (vget Hp p))))
        (seq (function_index shP) (nfunction shP)) hs)
      (seq 0 (nshell (auxiliary_ c))) hs)
    H (vzero (nshell (auxiliary_ c))).

(** The screening test of the last contraction. *)
Definition skip_triplet2 (c : Collaborators) (Hmax : Vector) (diag : Vector)
    (thresh2 : float) (P M N : nat) : bool :=
  flt (vget Hmax P * vget Hmax P * vget diag P * shell_pair_value (eri3 c) M N)%float
      thresh2.

(** [JTp[m][n] += buffer[index] * Hp[p]], and the transposed entry when [N != M]. *)
Definition contract_J (c : Collaborators) (buffer : list float) (Hp : Vector)
    (P M N : nat) (JTp : Matrix) : Matrix :=
  let shP := shell (auxiliary_ c) P in
  let shM := shell (primary_ c) M in
  let shN := shell (primary_ c) N in
  fst (fold_left
    (fun (st : Matrix * nat) (pmn : nat * nat * nat) =>
       let '(JT, index) := st in
       let '(p, m, n) := pmn in
       let JT := madd_at JT m n (vget buffer index * vget Hp p)%float in
       let JT := if decide (N ≠ M)
                 then madd_at JT n m (vget buffer index * vget Hp p)%float
                 else JT in
       (JT, S index))
    (loop_pmn (function_index shP) (nfunction shP)
              (function_index shM) (nfunction shM)
              (function_index shN) (nfunction shN))
    (JTp, 0)).

Definition back_triplet (c : Collaborators) (H : list Vector) (Hmax : Vector)
    (diag : Vector) (thresh2 : float)
    (st : list (list Matrix) * nat) (MNP : nat) : list (list Matrix) * nat :=
  let '(JT, computed_triplets2) := st in
  let '(P, M, N) := triplet_of c MNP in
  let rank := omp_get_thread_num c MNP in
  if skip_triplet2 c Hmax diag thresh2 P M N then st
  else
    let buffer := (compute_shell (eri3 c) P 0 M N).2 in
    (imap (fun jki JTjki =>
             alter (contract_J c buffer (default [] (H !! jki)) P M N) rank JTjki) JT,
     S computed_triplets2).

Definition back_contraction (c : Collaborators) (nthreads_ : nat) (H : list Vector)
    (Hmax : Vector) (diag : Vector) (thresh2 : float) : list (list Matrix) * nat :=
  let njk := length H in
  let nshelltriplet := nshell (auxiliary_ c) * length (shell_pairs (eri3 c)) in
  fold_left (back_triplet c H Hmax diag thresh2) (seq 0 nshelltriplet)
    (replicate njk (replicate nthreads_ (mzero (nbf (primary_ c)) (nbf (primary_ c)))), 0).

(** The closing loop, for every channel [jki < njk]: add every thread's buffer
    onto [J[jki]], then [J[jki]->hermitivitize()]. *)
Definition reduce_J (c : Collaborators) (J : list Matrix)
    (JT : list (list Matrix)) : list Matrix :=
  imap (fun jki Jm =>
          match JT !! jki with
          | Some JTjki => hermitivitize c (fold_left madd JTjki Jm)
          | None => Jm
          end) J.

(** [build_DirectDFJ(D, J)]: the new [J] and [num_computed_shells_]. *)
Definition build_DirectDFJ (c : Collaborators) (nthreads_ : nat) (J_metric_ : Matrix)
    (INTS_TOLERANCE : float) (D J : list Matrix) : list Matrix * nat :=
  let thresh2 := (INTS_TOLERANCE * INTS_TOLERANCE)%float in
  let diag := J_metric_shell_diag c J_metric_ in
  let Dsh := Dshell c D in
  let '(GT, computed_triplets1) := forward_contraction c nthreads_ D Dsh diag thresh2 in
  let H := metric_solve c J_metric_ GT in
  let Hmax := H_shell_max c H in
  let '(JT, computed_triplets2) := back_contraction c nthreads_ H Hmax diag thresh2 in
  (reduce_J c J JT, computed_triplets1 + computed_triplets2).

End DirectDFJ.

(** ** The K builder LinK: linear-scaling exact exchange *)

Module LinK.

Import Num Mints.
Local Open Scope nat_scope.
Local Open Scope list_scope.

(** *** Atom blocking *)

(** [shell_endpoints_for_atom]: a shell opens a new atom when its centre is
    above [atomic_ind], which starts at [-1]; [nshell] closes the list. *)
Definition shell_endpoints_for_atom (c : Collaborators) : list nat :=
  let scan := fold_left
    (fun (st : list nat * Z) (P : nat) =>
       let '(ends, atomic_ind) := st in
       if decide (atomic_ind < Z.of_nat (ncenter (shell (primary_ c) P)))%Z
       then (ends ++ [P], (atomic_ind + 1)%Z)
       else st)
    (seq 0 (nshell (primary_ c))) ([], (-1)%Z) in
  scan.1 ++ [nshell (primary_ c)].

Definition basis_endpoints_for_shell (c : Collaborators) : list nat :=
  map (shell_to_basis_function (primary_ c)) (seq 0 (nshell (primary_ c)))
  ++ [nbf (primary_ c)].

Definition at_ (l : list nat) (i : nat) : nat := default 0 (l !! i).

Definition natom (c : Collaborators) : nat :=
  length (shell_endpoints_for_atom c) - 1.

Definition max_functions_per_atom (c : Collaborators) : nat :=
  let ends := shell_endpoints_for_atom c in
  fold_left (fun acc atom =>
      let size := fold_left (fun sz P => sz + nfunction (shell (primary_ c) P))
                    (seq (at_ ends atom) (at_ ends (S atom) - at_ ends atom)) 0 in
      Nat.max acc size)
    (seq 0 (natom c)) 0.

(** *** The atom-pair worklist *)

Definition atom_pair_found (c : Collaborators) (Patom Qatom : nat) : bool :=
  let ends := shell_endpoints_for_atom c in
  existsb (fun P =>
      existsb (fun Q => shell_pair_significant (eri4 c) P Q)
        (seq (at_ ends Qatom) (at_ ends (S Qatom) - at_ ends Qatom)))
    (seq (at_ ends Patom) (at_ ends (S Patom) - at_ ends Patom)).

Definition atom_pairs (c : Collaborators) : list (nat * nat) :=
  Patom ← seq 0 (natom c);
  Qatom ← seq 0 (S Patom);
  if atom_pair_found c Patom Qatom then [(Patom, Qatom)] else [].

(** *** Pre-ordering: bra and ket neighbour lists *)

Definition significant_bras (c : Collaborators) (cutoff_ : float) : list (list nat) :=
  map (fun P =>
      let PQ_shell_values :=
        Q ← seq 0 (nshell (primary_ c));
        let pq_pq := PrimFloat.sqrt (shell_ceiling2 (eri4 c) P Q P Q) in
        let schwarz_value := PrimFloat.sqrt (pq_pq * max_integral (eri4 c))%float in
        if fge schwarz_value cutoff_ then [(Q, schwarz_value)] else [] in
      map fst (std_sort c PQ_shell_values))
    (seq 0 (nshell (primary_ c))).

(** [shell_ceilings[P]]: the largest [sqrt((PQ|PQ) ceiling)] over every partner. *)
Definition shell_ceilings (c : Collaborators) : Vector :=
  fold_left (fun ceil P =>
      fold_left (fun ceil Q =>
          let val := PrimFloat.sqrt (shell_ceiling2 (eri4 c) P Q P Q) in
          let ceil := vset ceil P (fmax (vget ceil P) val) in
          vset ceil Q (fmax (vget ceil Q) val))
        (seq 0 (S P)) ceil)
    (seq 0 (nshell (primary_ c))) (vzero (nshell (primary_ c))).

Definition significant_kets (c : Collaborators) (Dscreen : list Matrix)
    (linK_ints_cutoff_ : float) : list (list nat) :=
  let ceil := shell_ceilings c in
  map (fun P =>
      let PR_shell_values :=
        R ← seq 0 (nshell (primary_ c));
        let screen_val :=
          (vget ceil P * vget ceil R * shell_pair_max_density (eri4 c) Dscreen P R)%float in
        if fge screen_val linK_ints_cutoff_ then [(R, screen_val)] else [] in
      map fst (std_sort c PR_shell_values))
    (seq 0 (nshell (primary_ c))).

(** *** Formation of the significant ket-pair list [ML_PQ] *)

(** What the two chain walks of one bra pair [(P, Q)] build: the merged
    mini-list, the stripeout sets of the task, and, in call order, the shell
    quartets whose bound [shell_ceiling2] was asked of the engine. *)
Record MLState : Type := {
  ML_PQ : gset nat;
  P_stripeout_list : list (gset nat);
  Q_stripeout_list : list (gset nat);
  ceiling_calls : list (nat * nat * nat * nat)
}.

(** The chain being walked: [ML_P] follows [significant_kets[P]], [ML_Q]
    follows [significant_kets[Q]]. *)
Inductive chain : Type := ML_P | ML_Q.

Definition chain_shell (ch : chain) (P Q : nat) : nat :=
  match ch with ML_P => P | ML_Q => Q end.

(** [shell_pair_max_density(P or Q, R) * sqrt(shell_ceiling2(P, Q, R, S))]. *)
Definition screen_val (c : Collaborators) (Dscreen : list Matrix) (ch : chain)
    (P Q R S : nat) : float :=
  (shell_pair_max_density (eri4 c) Dscreen (chain_shell ch P Q) R
   * PrimFloat.sqrt (shell_ceiling2 (eri4 c) P Q R S))%float.

(** The test [screen_val >= linK_ints_cutoff_]. *)
Definition passes_cutoff (c : Collaborators) (Dscreen : list Matrix)
    (linK_ints_cutoff_ : float) (ch : chain) (P Q R S : nat) : bool :=
  fge (screen_val c Dscreen ch P Q R S) linK_ints_cutoff_.

Definition log_call (P Q R S : nat) (st : MLState) : MLState :=
  {| ML_PQ := ML_PQ st;
     P_stripeout_list := P_stripeout_list st;
     Q_stripeout_list := Q_stripeout_list st;
     ceiling_calls := ceiling_calls st ++ [(P, Q, R, S)] |}.

(** The body run for a candidate that passed: the canonical pair index
    [RS], [continue] when it lies above [P * nshell + Q], else the two
    [emplace] calls. *)
Definition keep_pair (nshell : nat) (ch : chain) (P Q dP dQ R S : nat)
    (st : MLState) : MLState :=
  let RS := if decide (S ≤ R) then R * nshell + S else S * nshell + R in
  if decide (P * nshell + Q < RS) then st
  else
    {| ML_PQ := {[RS]} ∪ ML_PQ st;
       P_stripeout_list :=
         match ch with
         | ML_P => P_stripeout_list st
         | ML_Q => alter (fun set => {[S]} ∪ set) dP (P_stripeout_list st)
         end;
       Q_stripeout_list :=
         match ch with
         | ML_P => alter (fun set => {[S]} ∪ set) dQ (Q_stripeout_list st)
         | ML_Q => Q_stripeout_list st
         end;
       ceiling_calls := ceiling_calls st |}.

(** [for (const int S : significant_bras[R])]: the flag [is_significant] and
    the state when the loop is left, by exhaustion or by [break]. *)
Fixpoint walk_bras (c : Collaborators) (Dscreen : list Matrix) (cutoff : float)
    (nshell : nat) (ch : chain) (P Q dP dQ R : nat)
    (bras : list nat) (is_significant : bool) (st : MLState) : bool * MLState :=
  match bras with
  | [] => (is_significant, st)
  | S_ :: rest =>
      let st := log_call P Q R S_ st in
      if passes_cutoff c Dscreen cutoff ch P Q R S_
      then walk_bras c Dscreen cutoff nshell ch P Q dP dQ R rest true
             (keep_pair nshell ch P Q dP dQ R S_ st)
      else (is_significant, st)
  end.

(** [for (const int R : significant_kets[P or Q])], left at the first [R]
    whose inner loop set no [is_significant]. *)
Fixpoint walk_kets (c : Collaborators) (Dscreen : list Matrix) (cutoff : float)
    (nshell : nat) (bras_of : list (list nat)) (ch : chain) (P Q dP dQ : nat)
    (kets : list nat) (st : MLState) : MLState :=
  match kets with
  | [] => st
  | R :: rest =>
      let '(is_significant, st) :=
        walk_bras c Dscreen cutoff nshell ch P Q dP dQ R
          (default [] (bras_of !! R)) false st in
      if is_significant
      then walk_kets c Dscreen cutoff nshell bras_of ch P Q dP dQ rest st
      else st
  end.

(** Both chains of the bra pair [(P, Q)], on an empty [ML_PQ]. *)
Definition form_ML_PQ (c : Collaborators) (Dscreen : list Matrix) (cutoff : float)
    (bras_of kets_of : list (list nat)) (P Q dP dQ : nat)
    (Pl Ql : list (gset nat)) (calls : list (nat * nat * nat * nat)) : MLState :=
  let nshell := nshell (primary_ c) in
  let st := {| ML_PQ := ∅; P_stripeout_list := Pl; Q_stripeout_list := Ql;
               ceiling_calls := calls |} in
  let st := walk_kets c Dscreen cutoff nshell bras_of ML_P P Q dP dQ
              (default [] (kets_of !! P)) st in
  walk_kets c Dscreen cutoff nshell bras_of ML_Q P Q dP dQ
    (default [] (kets_of !! Q)) st.

(** *** The quartet contraction *)

Local Open Scope float_scope.

(** The degeneracy prefactor, as the code builds it up. *)
Definition prefactor (P Q R S : nat) : float :=
  let prefactor := 1 in
  let prefactor := if decide (P = Q) then prefactor * 0.5 else prefactor in
  let prefactor := if decide (R = S) then prefactor * 0.5 else prefactor in
  let prefactor := if decide (P = R ∧ Q = S) then prefactor * 0.5 else prefactor in
  prefactor.

Local Open Scope nat_scope.

(** The loop nest [for p .. for q .. for r .. for s ..] in the order it runs. *)
Definition loop_pqrs (np nq nr ns : nat) : list (nat * nat * nat * nat) :=
  p ← seq 0 np; q ← seq 0 nq; r ← seq 0 nr; s ← seq 0 ns; [(p, q, r, s)].

(** What one pass of the innermost loop body needs to know about the task. *)
Record QuartetFrame : Type := {
  qf_nbf : nat;
  qf_K1p : nat;  (* offset of row [0 * max_functions_per_atom] of the buffer *)
  qf_K2p : nat;  (* offset of row [1 * max_functions_per_atom] *)
  qf_K3p : nat;  (* offset of row [2 * max_functions_per_atom] *)
  qf_K4p : nat;  (* offset of row [3 * max_functions_per_atom] *)
  shell_P_start : nat; shell_Q_start : nat;
  shell_R_start : nat; shell_S_start : nat;
  shell_P_offset : nat; shell_Q_offset : nat
}.

(** The innermost loop body: the four scattered updates for the integral
    [buffer2] points at. [KTp] is the task buffer as one array. *)
Definition scatter (f : QuartetFrame) (pf : float) (Dp : Matrix) (b : float)
    (p q r s : nat) (KTp : Vector) : Vector :=
  let KTp := vadd_at KTp
    (qf_K1p f + ((p + shell_P_offset f) * qf_nbf f + r + shell_R_start f))
    (pf * mget Dp (q + shell_Q_start f) (s + shell_S_start f) * b)%float in
  let KTp := vadd_at KTp
    (qf_K2p f + ((p + shell_P_offset f) * qf_nbf f + s + shell_S_start f))
    (pf * mget Dp (q + shell_Q_start f) (r + shell_R_start f) * b)%float in
  let KTp := vadd_at KTp
    (qf_K3p f + ((q + shell_Q_offset f) * qf_nbf f + r + shell_R_start f))
    (pf * mget Dp (p + shell_P_start f) (s + shell_S_start f) * b)%float in
  vadd_at KTp
    (qf_K4p f + ((q + shell_Q_offset f) * qf_nbf f + s + shell_S_start f))
    (pf * mget Dp (p + shell_P_start f) (r + shell_R_start f) * b)%float.

(** The contraction of one integral block into the task buffer of one channel. *)
Definition contract_quartet (f : QuartetFrame) (np nq nr ns : nat)
    (P Q R S : nat) (Dp : Matrix) (buffer : list float) (KTp : Vector) : Vector :=
  let pf := prefactor P Q R S in
  fst (fold_left
    (fun (st : Vector * nat) (pqrs : nat * nat * nat * nat) =>
       let '(KT, index) := st in
       let '(p, q, r, s) := pqrs in
       (scatter f pf Dp (vget buffer index) p q r s KT, Datatypes.S index))
    (loop_pqrs np nq nr ns) (KTp, 0)).

(** [::memset] of [len] doubles from offset [start]. *)
Definition memset0 (start len : nat) (v : Vector) : Vector :=
  fold_left (fun v i => vset v i 0%float) (seq start len) v.

(** *** One atom-pair task of the master loop *)

Record TaskState : Type := {
  KTt : list Vector;          (* [KT[thread][ind]], one array per channel *)
  touched : bool;
  ml : MLState;               (* stripeout lists and engine calls of the task *)
  computed_shells : nat
}.

Record TaskFrame : Type := {
  Pstart : nat; nPshell : nat; nPbasis : nat;
  Qstart : nat; nQshell : nat; nQbasis : nat
}.

Definition task_frame (c : Collaborators) (Patom Qatom : nat) : TaskFrame :=
  let ends := shell_endpoints_for_atom c in
  let bends := basis_endpoints_for_shell c in
  let nP := at_ ends (Datatypes.S Patom) - at_ ends Patom in
  let nQ := at_ ends (Datatypes.S Qatom) - at_ ends Qatom in
  {| Pstart := at_ ends Patom; nPshell := nP;
     nPbasis := at_ bends (at_ ends Patom + nP) - at_ bends (at_ ends Patom);
     Qstart := at_ ends Qatom; nQshell := nQ;
     nQbasis := at_ bends (at_ ends Qatom + nQ) - at_ bends (at_ ends Qatom) |}.

Definition quartet_frame (c : Collaborators) (t : TaskFrame) (P Q R S : nat)
    : QuartetFrame :=
  let bends := basis_endpoints_for_shell c in
  let mf := max_functions_per_atom c in
  let n := nbf (primary_ c) in
  {| qf_nbf := n;
     qf_K1p := 0 * mf * n; qf_K2p := 1 * mf * n;
     qf_K3p := 2 * mf * n; qf_K4p := 3 * mf * n;
     shell_P_start := function_index (shell (primary_ c) P);
     shell_Q_start := function_index (shell (primary_ c) Q);
     shell_R_start := function_index (shell (primary_ c) R);
     shell_S_start := function_index (shell (primary_ c) S);
     shell_P_offset := at_ bends P - at_ bends (Pstart t);
     shell_Q_offset := at_ bends Q - at_ bends (Qstart t) |}.

(** The body of [for (const int RS : ML_PQ)]. *)
Definition quartet (c : Collaborators) (D : list Matrix) (t : TaskFrame)
    (P Q : nat) (ts : TaskState) (RS : nat) : TaskState :=
  let R := RS / nshell (primary_ c) in
  let S := RS mod nshell (primary_ c) in
  if negb (shell_pair_significant (eri4 c) R S) then ts
  else if negb (shell_significant (eri4 c) P Q R S) then ts
  else
    let '(ncomputed, buffer) := compute_shell (eri4 c) P Q R S in
    if decide (ncomputed = 0) then ts
    else
      let f := quartet_frame c t P Q R S in
      let n := nbf (primary_ c) in
      {| KTt :=
           imap (fun ind KTp =>
               let KTp :=
                 if touched ts then KTp
                 else memset0 (qf_K4p f) (nQbasis t * n)
                        (memset0 (qf_K3p f) (nQbasis t * n)
                          (memset0 (qf_K2p f) (nPbasis t * n)
                            (memset0 (qf_K1p f) (nPbasis t * n) KTp))) in
               contract_quartet f
                 (nfunction (shell (primary_ c) P)) (nfunction (shell (primary_ c) Q))
                 (nfunction (shell (primary_ c) R)) (nfunction (shell (primary_ c) S))
                 P Q R S (default [] (D !! ind)) buffer KTp)
             (KTt ts);
         touched := true;
         ml := ml ts;
         computed_shells := Datatypes.S (computed_shells ts) |}.

(** The body of the [(P, Q)] double loop of a task. *)
Definition bra_pair (c : Collaborators) (D Dscreen : list Matrix) (cutoff : float)
    (bras_of kets_of : list (list nat)) (t : TaskFrame)
    (ts : TaskState) (PQ : nat * nat) : TaskState :=
  let '(P, Q) := PQ in
  if decide (P < Q) then ts
  else if negb (shell_pair_significant (eri4 c) P Q) then ts
  else
    let m := form_ML_PQ c Dscreen cutoff bras_of kets_of P Q
               (P - Pstart t) (Q - Qstart t)
               (P_stripeout_list (ml ts)) (Q_stripeout_list (ml ts))
               (ceiling_calls (ml ts)) in
    let ts := {| KTt := KTt ts; touched := touched ts; ml := m;
                 computed_shells := computed_shells ts |} in
    fold_left (quartet c D t P Q) (unordered_iteration c (ML_PQ m)) ts.

(** Stripe out: the touched function pairs of the scaled task buffers are
    added into [K]. *)
Definition stripe_rows (c : Collaborators) (t : TaskFrame) (first nsh : nat)
    (lists : list (gset nat)) (Ka Kb : nat) (KTp : Vector) (Kp : Matrix) : Matrix :=
  let bends := basis_endpoints_for_shell c in
  let n := nbf (primary_ c) in
  fold_left (fun Kp P =>
      let dP := P - first in
      let sh_start := function_index (shell (primary_ c) P) in
      let sh_nfunc := nfunction (shell (primary_ c) P) in
      let sh_offset := at_ bends P - at_ bends first in
      fold_left (fun Kp S =>
          let S_start := function_index (shell (primary_ c) S) in
          let S_nfunc := nfunction (shell (primary_ c) S) in
          fold_left (fun Kp ps =>
              let '(p, s) := (ps : nat * nat) in
              let Kp := madd_at Kp (sh_start + p) (S_start + s)
                          (vget KTp (Ka + ((p + sh_offset) * n + s + S_start))) in
              madd_at Kp (sh_start + p) (S_start + s)
                (vget KTp (Kb + ((p + sh_offset) * n + s + S_start))))
            (p ← seq 0 sh_nfunc; s ← seq 0 S_nfunc; [(p, s)]) Kp)
        (unordered_iteration c (default ∅ (lists !! dP))) Kp)
    (seq first nsh) Kp.

Definition stripeout (c : Collaborators) (t : TaskFrame) (ts : TaskState)
    (K : list Matrix) : list Vector * list Matrix :=
  let mf := max_functions_per_atom c in
  let n := nbf (primary_ c) in
  let KTs := map (map (fun x => (2 * x)%float)) (KTt ts) in
  (KTs,
   imap (fun ind Kp =>
       match KTs !! ind with
       | Some KTp =>
           let Kp := stripe_rows c t (Pstart t) (nPshell t)
                       (P_stripeout_list (ml ts)) (0 * mf * n) (1 * mf * n) KTp Kp in
           stripe_rows c t (Qstart t) (nQshell t)
             (Q_stripeout_list (ml ts)) (2 * mf * n) (3 * mf * n) KTp Kp
       | None => Kp
       end) K).

(** The state of the master loop: every thread's buffers, [K], the counter
    [computed_shells] and the engine calls so far. *)
Record MasterState : Type := {
  KT : list (list Vector);
  Kmat : list Matrix;
  computed : nat;
  calls : list (nat * nat * nat * nat)
}.

Definition atom_pair_task (c : Collaborators) (D Dscreen : list Matrix)
    (cutoff : float) (bras_of kets_of : list (list nat))
    (ms : MasterState) (ipair : nat) : MasterState :=
  let '(Patom, Qatom) := default (0, 0) (atom_pairs c !! ipair) in
  let t := task_frame c Patom Qatom in
  let thread := omp_get_thread_num c ipair in
  let ts0 :=
    {| KTt := default [] (KT ms !! thread);
       touched := false;
       ml := {| ML_PQ := ∅;
                P_stripeout_list := replicate (nPshell t) ∅;
                Q_stripeout_list := replicate (nQshell t) ∅;
                ceiling_calls := calls ms |};
       computed_shells := computed ms |} in
  let ts := fold_left (bra_pair c D Dscreen cutoff bras_of kets_of t)
              (P ← seq (Pstart t) (nPshell t); Q ← seq (Qstart t) (nQshell t); [(P, Q)])
              ts0 in
  if negb (touched ts)
  then {| KT := KT ms; Kmat := Kmat ms; computed := computed_shells ts;
          calls := ceiling_calls (ml ts) |}
  else
    let '(KTs, K) := stripeout c t ts (Kmat ms) in
    {| KT := <[thread := KTs]> (KT ms); Kmat := K;
       computed := computed_shells ts; calls := ceiling_calls (ml ts) |}.

(** The master task loop over the atom pairs, in index order. *)
Definition master_loop (c : Collaborators) (nthread : nat) (cutoff_ linK_ints_cutoff_ : float)
    (D Dscreen K : list Matrix) : MasterState :=
  let mf := max_functions_per_atom c in
  let n := nbf (primary_ c) in
  let bras_of := significant_bras c cutoff_ in
  let kets_of := significant_kets c Dscreen linK_ints_cutoff_ in
  fold_left (atom_pair_task c D Dscreen linK_ints_cutoff_ bras_of kets_of)
    (seq 0 (length (atom_pairs c)))
    {| KT := replicate nthread (replicate (length D) (vzero (4 * mf * n)));
       Kmat := K; computed := 0; calls := [] |}.

(** [build_linK(D, K)]: the new [K] and [num_computed_shells_]. *)
Definition build_linK (c : Collaborators) (nthread : nat) (lr_symmetric_ : bool)
    (cutoff_ linK_ints_cutoff_ : float) (D Dscreen K : list Matrix)
    : result (list Matrix * nat) :=
  if negb lr_symmetric_
  then Throw "Non-symmetric K matrix builds are currently not supported in the LinK algorithm."
  else
    let ms := master_loop c nthread cutoff_ linK_ints_cutoff_ D Dscreen K in
    Ok (map (hermitivitize c) (Kmat ms), computed ms).

End LinK.

(** ** The K builder COSX: the closing reduction *)

Module COSK.

Import Num Mints.

(** The closing loop of [build_COSK]: add every thread's buffer onto
    [K[jki]]; [hermitivitize] only under [lr_symmetric_]. *)
Definition reduce_K (c : Collaborators) (lr_symmetric_ : bool) (K : list Matrix)
    (KT : list (list Matrix)) : list Matrix :=
  imap (fun jki Km =>
          match KT !! jki with
          | Some KTjki =>
              let Km := fold_left madd KTjki Km in
              if lr_symmetric_ then hermitivitize c Km else Km
          | None => Km
          end) K.

(** [build_COSK(D, K)]: the new [K] and [num_computed_shells_]. *)
Definition build_COSK (c : Collaborators) (early_screening_ lr_symmetric_ : bool)
    (D K : list Matrix) : list Matrix * nat :=
  let '(KT, int_shells_computed) := COSK_grid_loop c early_screening_ D in
  (reduce_K c lr_symmetric_ K KT, int_shells_computed).

End COSK.

(** ** The K builder COSX: the bookkeeping of one grid block *)

Module COSKBlock.

Import Num Mints.
Local Open Scope nat_scope.
Local Open Scope list_scope.

(** [a > b] and [a <= b] on doubles. *)
Definition fgt (a b : float) : bool := PrimFloat.ltb b a.
Definition fle (a b : float) : bool := PrimFloat.leb a b.

(** What the bookkeeping reads of a block of grid points: the basis functions
    and the shells that are significant at its points, in local order. *)
Record BlockOfPoints : Type := {
  functions_local_to_global : list nat;
  shells_local_to_global : list nat
}.

(** [shell_extent_map]: for each shell, the shells whose extents overlap
    with its own. [dist] is the distance matrix of the molecule (by centre)
    and [shell_extents] the extents of the grid, both from other files. *)
Definition shell_extent_map (c : Collaborators) (dist : nat -> nat -> float)
    (shell_extents : Vector) : list (list nat) :=
  let nshell := nshell (primary_ c) in
  map (fun s1 =>
         s2 ← seq 0 nshell;
         if fle (dist (ncenter (shell (primary_ c) s1)) (ncenter (shell (primary_ c) s2)))
                (vget shell_extents s2 + vget shell_extents s1)%float
         then [s2] else [])
      (seq 0 nshell).

(** The lists of all basis functions and of all shells. *)
Definition bf_map_all (c : Collaborators) : list nat := seq 0 (nbf (primary_ c)).
Definition shell_map_all (c : Collaborators) : list nat := seq 0 (nshell (primary_ c)).

(** The table from an index in a shell map to the first index in the
    function map: 0, then for every shell but the last its function count
    added to [back()]. *)
Definition first_functions (c : Collaborators) (shell_map : list nat) : list nat :=
  if decide (0 < length shell_map)
  then fold_left
         (fun table shell_map_ind =>
            let MU := default 0 (shell_map !! shell_map_ind) in
            table ++ [nfunction (shell (primary_ c) MU) + default 0 (last table)])
         (seq 0 (length shell_map - 1)) [0]
  else [].

Definition shell_map_all_to_bf_map_all (c : Collaborators) : list nat :=
  first_functions c (shell_map_all c).

Definition shell_map_to_bf_map (c : Collaborators) (block : BlockOfPoints) : list nat :=
  first_functions c (shells_local_to_global block).

(** [D_block[jki]]: the columns of [D[jki]] that are significant in this block. *)
Definition D_block (c : Collaborators) (block : BlockOfPoints) (Dp : Matrix) : Matrix :=
  map (fun tau => map (fun kappa => mget Dp tau kappa) (functions_local_to_global block))
      (bf_map_all c).

(** [D_block_shell]: the shell-pair maxima of [D_block], over every channel. *)
Definition D_block_shell (c : Collaborators) (block : BlockOfPoints)
    (D : list Matrix) : Matrix :=
  let shell_map := shells_local_to_global block in
  map (fun TAU_ind =>
      let TAU := default 0 (shell_map_all c !! TAU_ind) in
      let tau_start := default 0 (shell_map_all_to_bf_map_all c !! TAU_ind) in
      let num_tau := nfunction (shell (primary_ c) TAU) in
      map (fun KAPPA_ind =>
          let KAPPA := default 0 (shell_map !! KAPPA_ind) in
          let kappa_start := default 0 (shell_map_to_bf_map c block !! KAPPA_ind) in
          let num_kappa := nfunction (shell (primary_ c) KAPPA) in
          fold_left (fun acc Dp =>
              fold_left (fun acc bf1 =>
                  fold_left (fun acc bf2 =>
                      fmax acc (fabs (mget (D_block c block Dp) bf1 bf2)))
                    (seq kappa_start num_kappa) acc)
                (seq tau_start num_tau) acc)
            D 0%float)
        (seq 0 (length shell_map)))
    (seq 0 (length (shell_map_all c))).

(** [shell_map_tau]: the shells [TAU] that the density couples to a shell of
    the block, a "p-junction"; the inner loop stops at the first such shell. *)
Definition shell_map_tau (c : Collaborators) (block : BlockOfPoints)
    (D_block_shell : Matrix) (dscreen : float) : list nat :=
  TAU ← seq 0 (length (shell_map_all c));
  if existsb (fun KAPPA_ind => fgt (mget D_block_shell TAU KAPPA_ind) dscreen)
       (seq 0 (length (shells_local_to_global block)))
  then [TAU] else [].

(** [symm]: may the integral shell pair be used for both orders?
    [std::binary_search] on [shell_map_tau], which is in increasing order,
    tells whether [NU] is in it. *)
Definition symm (shell_map_tau : list nat) (TAU NU : nat) : bool :=
  bool_decide (NU ≠ TAU) && bool_decide (NU ∈ shell_map_tau).

(** The shell pairs [(TAU, NU)] of the integral loop that get past
    [if (symm && TAU > NU) continue], each with its [symm], in loop order:
    the pairs counted in [int_shells_total]. *)
Definition pairs_past_symmetry (shell_extent_map : list (list nat))
    (shell_map_tau : list nat) : list (nat * nat * bool) :=
  TAU ← shell_map_tau;
  NU ← default [] (shell_extent_map !! TAU);
  if symm shell_map_tau TAU NU && bool_decide (NU < TAU) then []
  else [(TAU, NU, symm shell_map_tau TAU NU)].

End COSKBlock.

(** ** The CompositeJK object *)

Module JK.

Import Num Mints.
Local Open Scope list_scope.

(** The options this file reads. *)
Record Options : Type := {
  INCFOCK : bool;
  INCFOCK_FULL_FOCK_EVERY : Z;
  INCFOCK_CONVERGENCE : float;
  SCF_TYPE : string;
  SCREENING : string;
  INTS_TOLERANCE : float;
  LINK_INTS_TOLERANCE : float;
  LINK_INTS_TOLERANCE_has_changed : bool
}.

(** A [SharedMatrix] is a location of the matrix store. *)
Abbreviation loc := nat (only parsing).

(** The members of the object that this file reads or writes. [eri_density_]
    is the density last given to the 4-index engines by [update_density]. *)
Record CompositeJK : Type := {
  nthreads_ : nat;
  incfock_ : bool;
  incfock_count_ : Z;
  do_incfock_iter_ : bool;
  initial_iteration_ : bool;
  j_type_ : string;
  k_type_ : string;
  density_screening_ : bool;
  cutoff_ : float;
  early_screening_ : bool;
  linK_ints_cutoff_ : float;
  do_J_ : bool;
  do_K_ : bool;
  do_wK_ : bool;
  lr_symmetric_ : bool;
  num_computed_shells_ : nat;
  J_metric_ : Matrix;
  eri_density_ : list Matrix;
  D_ao_ : list loc;
  D_prev_ : list loc;
  D_ref_ : list loc;
  J_ao_ : list loc;
  K_ao_ : list loc;
  store : gmap loc Matrix
}.

Definition set_nthreads_ (v : nat) (this : CompositeJK) : CompositeJK :=
  {| nthreads_ := v; incfock_ := incfock_ this; incfock_count_ := incfock_count_ this;
     do_incfock_iter_ := do_incfock_iter_ this;
     initial_iteration_ := initial_iteration_ this; j_type_ := j_type_ this;
     k_type_ := k_type_ this; density_screening_ := density_screening_ this;
     cutoff_ := cutoff_ this; early_screening_ := early_screening_ this;
     linK_ints_cutoff_ := linK_ints_cutoff_ this; do_J_ := do_J_ this;
     do_K_ := do_K_ this; do_wK_ := do_wK_ this; lr_symmetric_ := lr_symmetric_ this;
     num_computed_shells_ := num_computed_shells_ this; J_metric_ := J_metric_ this;
     eri_density_ := eri_density_ this; D_ao_ := D_ao_ this; D_prev_ := D_prev_ this;
     D_ref_ := D_ref_ this; J_ao_ := J_ao_ this; K_ao_ := K_ao_ this;
     store := store this |}.

Definition set_incfock_ (v : bool) (this : CompositeJK) : CompositeJK :=
  {| nthreads_ := nthreads_ this; incfock_ := v;
     incfock_count_ := incfock_count_ this; do_incfock_iter_ := do_incfock_iter_ this;
     initial_iteration_ := initial_iteration_ this; j_type_ := j_type_ this;
     k_type_ := k_type_ this; density_screening_ := density_screening_ this;
     cutoff_ := cutoff_ this; early_screening_ := early_screening_ this;
     linK_ints_cutoff_ := linK_ints_cutoff_ this; do_J_ := do_J_ this;
     do_K_ := do_K_ this; do_wK_ := do_wK_ this; lr_symmetric_ := lr_symmetric_ this;
     num_computed_shells_ := num_computed_shells_ this; J_metric_ := J_metric_ this;
     eri_density_ := eri_density_ this; D_ao_ := D_ao_ this; D_prev_ := D_prev_ this;
     D_ref_ := D_ref_ this; J_ao_ := J_ao_ this; K_ao_ := K_ao_ this;
     store := store this |}.

Definition set_incfock_count_ (v : Z) (this : CompositeJK) : CompositeJK :=
  {| nthreads_ := nthreads_ this; incfock_ := incfock_ this; incfock_count_ := v;
     do_incfock_iter_ := do_incfock_iter_ this;
     initial_iteration_ := initial_iteration_ this; j_type_ := j_type_ this;
     k_type_ := k_type_ this; density_screening_ := density_screening_ this;
     cutoff_ := cutoff_ this; early_screening_ := early_screening_ this;
     linK_ints_cutoff_ := linK_ints_cutoff_ this; do_J_ := do_J_ this;
     do_K_ := do_K_ this; do_wK_ := do_wK_ this; lr_symmetric_ := lr_symmetric_ this;
     num_computed_shells_ := num_computed_shells_ this; J_metric_ := J_metric_ this;
     eri_density_ := eri_density_ this; D_ao_ := D_ao_ this; D_prev_ := D_prev_ this;
     D_ref_ := D_ref_ this; J_ao_ := J_ao_ this; K_ao_ := K_ao_ this;
     store := store this |}.

Definition set_do_incfock_iter_ (v : bool) (this : CompositeJK) : CompositeJK :=
  {| nthreads_ := nthreads_ this; incfock_ := incfock_ this;
     incfock_count_ := incfock_count_ this; do_incfock_iter_ := v;
     initial_iteration_ := initial_iteration_ this; j_type_ := j_type_ this;
     k_type_ := k_type_ this; density_screening_ := density_screening_ this;
     cutoff_ := cutoff_ this; early_screening_ := early_screening_ this;
     linK_ints_cutoff_ := linK_ints_cutoff_ this; do_J_ := do_J_ this;
     do_K_ := do_K_ this; do_wK_ := do_wK_ this; lr_symmetric_ := lr_symmetric_ this;
     num_computed_shells_ := num_computed_shells_ this; J_metric_ := J_metric_ this;
     eri_density_ := eri_density_ this; D_ao_ := D_ao_ this; D_prev_ := D_prev_ this;
     D_ref_ := D_ref_ this; J_ao_ := J_ao_ this; K_ao_ := K_ao_ this;
     store := store this |}.

Definition set_initial_iteration_ (v : bool) (this : CompositeJK) : CompositeJK :=
  {| nthreads_ := nthreads_ this; incfock_ := incfock_ this;
     incfock_count_ := incfock_count_ this; do_incfock_iter_ := do_incfock_iter_ this;
     initial_iteration_ := v; j_type_ := j_type_ this; k_type_ := k_type_ this;
     density_screening_ := density_screening_ this; cutoff_ := cutoff_ this;
     early_screening_ := early_screening_ this;
     linK_ints_cutoff_ := linK_ints_cutoff_ this; do_J_ := do_J_ this;
     do_K_ := do_K_ this; do_wK_ := do_wK_ this; lr_symmetric_ := lr_symmetric_ this;
     num_computed_shells_ := num_computed_shells_ this; J_metric_ := J_metric_ this;
     eri_density_ := eri_density_ this; D_ao_ := D_ao_ this; D_prev_ := D_prev_ this;
     D_ref_ := D_ref_ this; J_ao_ := J_ao_ this; K_ao_ := K_ao_ this;
     store := store this |}.

Definition set_j_type_ (v : string) (this : CompositeJK) : CompositeJK :=
  {| nthreads_ := nthreads_ this; incfock_ := incfock_ this;
     incfock_count_ := incfock_count_ this; do_incfock_iter_ := do_incfock_iter_ this;
     initial_iteration_ := initial_iteration_ this; j_type_ := v;
     k_type_ := k_type_ this; density_screening_ := density_screening_ this;
     cutoff_ := cutoff_ this; early_screening_ := early_screening_ this;
     linK_ints_cutoff_ := linK_ints_cutoff_ this; do_J_ := do_J_ this;
     do_K_ := do_K_ this; do_wK_ := do_wK_ this; lr_symmetric_ := lr_symmetric_ this;
     num_computed_shells_ := num_computed_shells_ this; J_metric_ := J_metric_ this;
     eri_density_ := eri_density_ this; D_ao_ := D_ao_ this; D_prev_ := D_prev_ this;
     D_ref_ := D_ref_ this; J_ao_ := J_ao_ this; K_ao_ := K_ao_ this;
     store := store this |}.

Definition set_k_type_ (v : string) (this : CompositeJK) : CompositeJK :=
  {| nthreads_ := nthreads_ this; incfock_ := incfock_ this;
     incfock_count_ := incfock_count_ this; do_incfock_iter_ := do_incfock_iter_ this;
     initial_iteration_ := initial_iteration_ this; j_type_ := j_type_ this;
     k_type_ := v; density_screening_ := density_screening_ this;
     cutoff_ := cutoff_ this; early_screening_ := early_screening_ this;
     linK_ints_cutoff_ := linK_ints_cutoff_ this; do_J_ := do_J_ this;
     do_K_ := do_K_ this; do_wK_ := do_wK_ this; lr_symmetric_ := lr_symmetric_ this;
     num_computed_shells_ := num_computed_shells_ this; J_metric_ := J_metric_ this;
     eri_density_ := eri_density_ this; D_ao_ := D_ao_ this; D_prev_ := D_prev_ this;
     D_ref_ := D_ref_ this; J_ao_ := J_ao_ this; K_ao_ := K_ao_ this;
     store := store this |}.

Definition set_density_screening_ (v : bool) (this : CompositeJK) : CompositeJK :=
  {| nthreads_ := nthreads_ this; incfock_ := incfock_ this;
     incfock_count_ := incfock_count_ this; do_incfock_iter_ := do_incfock_iter_ this;
     initial_iteration_ := initial_iteration_ this; j_type_ := j_type_ this;
     k_type_ := k_type_ this; density_screening_ := v; cutoff_ := cutoff_ this;
     early_screening_ := early_screening_ this;
     linK_ints_cutoff_ := linK_ints_cutoff_ this; do_J_ := do_J_ this;
     do_K_ := do_K_ this; do_wK_ := do_wK_ this; lr_symmetric_ := lr_symmetric_ this;
     num_computed_shells_ := num_computed_shells_ this; J_metric_ := J_metric_ this;
     eri_density_ := eri_density_ this; D_ao_ := D_ao_ this; D_prev_ := D_prev_ this;
     D_ref_ := D_ref_ this; J_ao_ := J_ao_ this; K_ao_ := K_ao_ this;
     store := store this |}.

Definition set_cutoff_ (v : float) (this : CompositeJK) : CompositeJK :=
  {| nthreads_ := nthreads_ this; incfock_ := incfock_ this;
     incfock_count_ := incfock_count_ this; do_incfock_iter_ := do_incfock_iter_ this;
     initial_iteration_ := initial_iteration_ this; j_type_ := j_type_ this;
     k_type_ := k_type_ this; density_screening_ := density_screening_ this;
     cutoff_ := v; early_screening_ := early_screening_ this;
     linK_ints_cutoff_ := linK_ints_cutoff_ this; do_J_ := do_J_ this;
     do_K_ := do_K_ this; do_wK_ := do_wK_ this; lr_symmetric_ := lr_symmetric_ this;
     num_computed_shells_ := num_computed_shells_ this; J_metric_ := J_metric_ this;
     eri_density_ := eri_density_ this; D_ao_ := D_ao_ this; D_prev_ := D_prev_ this;
     D_ref_ := D_ref_ this; J_ao_ := J_ao_ this; K_ao_ := K_ao_ this;
     store := store this |}.

Definition set_early_screening_ (v : bool) (this : CompositeJK) : CompositeJK :=
  {| nthreads_ := nthreads_ this; incfock_ := incfock_ this;
     incfock_count_ := incfock_count_ this; do_incfock_iter_ := do_incfock_iter_ this;
     initial_iteration_ := initial_iteration_ this; j_type_ := j_type_ this;
     k_type_ := k_type_ this; density_screening_ := density_screening_ this;
     cutoff_ := cutoff_ this; early_screening_ := v;
     linK_ints_cutoff_ := linK_ints_cutoff_ this; do_J_ := do_J_ this;
     do_K_ := do_K_ this; do_wK_ := do_wK_ this; lr_symmetric_ := lr_symmetric_ this;
     num_computed_shells_ := num_computed_shells_ this; J_metric_ := J_metric_ this;
     eri_density_ := eri_density_ this; D_ao_ := D_ao_ this; D_prev_ := D_prev_ this;
     D_ref_ := D_ref_ this; J_ao_ := J_ao_ this; K_ao_ := K_ao_ this;
     store := store this |}.

Definition set_linK_ints_cutoff_ (v : float) (this : CompositeJK) : CompositeJK :=
  {| nthreads_ := nthreads_ this; incfock_ := incfock_ this;
     incfock_count_ := incfock_count_ this; do_incfock_iter_ := do_incfock_iter_ this;
     initial_iteration_ := initial_iteration_ this; j_type_ := j_type_ this;
     k_type_ := k_type_ this; density_screening_ := density_screening_ this;
     cutoff_ := cutoff_ this; early_screening_ := early_screening_ this;
     linK_ints_cutoff_ := v; do_J_ := do_J_ this; do_K_ := do_K_ this;
     do_wK_ := do_wK_ this; lr_symmetric_ := lr_symmetric_ this;
     num_computed_shells_ := num_computed_shells_ this; J_metric_ := J_metric_ this;
     eri_density_ := eri_density_ this; D_ao_ := D_ao_ this; D_prev_ := D_prev_ this;
     D_ref_ := D_ref_ this; J_ao_ := J_ao_ this; K_ao_ := K_ao_ this;
     store := store this |}.

Definition set_do_K_ (v : bool) (this : CompositeJK) : CompositeJK :=
  {| nthreads_ := nthreads_ this; incfock_ := incfock_ this;
     incfock_count_ := incfock_count_ this; do_incfock_iter_ := do_incfock_iter_ this;
     initial_iteration_ := initial_iteration_ this; j_type_ := j_type_ this;
     k_type_ := k_type_ this; density_screening_ := density_screening_ this;
     cutoff_ := cutoff_ this; early_screening_ := early_screening_ this;
     linK_ints_cutoff_ := linK_ints_cutoff_ this; do_J_ := do_J_ this; do_K_ := v;
     do_wK_ := do_wK_ this; lr_symmetric_ := lr_symmetric_ this;
     num_computed_shells_ := num_computed_shells_ this; J_metric_ := J_metric_ this;
     eri_density_ := eri_density_ this; D_ao_ := D_ao_ this; D_prev_ := D_prev_ this;
     D_ref_ := D_ref_ this; J_ao_ := J_ao_ this; K_ao_ := K_ao_ this;
     store := store this |}.

Definition set_num_computed_shells_ (v : nat) (this : CompositeJK) : CompositeJK :=
  {| nthreads_ := nthreads_ this; incfock_ := incfock_ this;
     incfock_count_ := incfock_count_ this; do_incfock_iter_ := do_incfock_iter_ this;
     initial_iteration_ := initial_iteration_ this; j_type_ := j_type_ this;
     k_type_ := k_type_ this; density_screening_ := density_screening_ this;
     cutoff_ := cutoff_ this; early_screening_ := early_screening_ this;
     linK_ints_cutoff_ := linK_ints_cutoff_ this; do_J_ := do_J_ this;
     do_K_ := do_K_ this; do_wK_ := do_wK_ this; lr_symmetric_ := lr_symmetric_ this;
     num_computed_shells_ := v; J_metric_ := J_metric_ this;
     eri_density_ := eri_density_ this; D_ao_ := D_ao_ this; D_prev_ := D_prev_ this;
     D_ref_ := D_ref_ this; J_ao_ := J_ao_ this; K_ao_ := K_ao_ this;
     store := store this |}.

Definition set_J_metric_ (v : Matrix) (this : CompositeJK) : CompositeJK :=
  {| nthreads_ := nthreads_ this; incfock_ := incfock_ this;
     incfock_count_ := incfock_count_ this; do_incfock_iter_ := do_incfock_iter_ this;
     initial_iteration_ := initial_iteration_ this; j_type_ := j_type_ this;
     k_type_ := k_type_ this; density_screening_ := density_screening_ this;
     cutoff_ := cutoff_ this; early_screening_ := early_screening_ this;
     linK_ints_cutoff_ := linK_ints_cutoff_ this; do_J_ := do_J_ this;
     do_K_ := do_K_ this; do_wK_ := do_wK_ this; lr_symmetric_ := lr_symmetric_ this;
     num_computed_shells_ := num_computed_shells_ this; J_metric_ := v;
     eri_density_ := eri_density_ this; D_ao_ := D_ao_ this; D_prev_ := D_prev_ this;
     D_ref_ := D_ref_ this; J_ao_ := J_ao_ this; K_ao_ := K_ao_ this;
     store := store this |}.

Definition set_eri_density_ (v : list Matrix) (this : CompositeJK) : CompositeJK :=
  {| nthreads_ := nthreads_ this; incfock_ := incfock_ this;
     incfock_count_ := incfock_count_ this; do_incfock_iter_ := do_incfock_iter_ this;
     initial_iteration_ := initial_iteration_ this; j_type_ := j_type_ this;
     k_type_ := k_type_ this; density_screening_ := density_screening_ this;
     cutoff_ := cutoff_ this; early_screening_ := early_screening_ this;
     linK_ints_cutoff_ := linK_ints_cutoff_ this; do_J_ := do_J_ this;
     do_K_ := do_K_ this; do_wK_ := do_wK_ this; lr_symmetric_ := lr_symmetric_ this;
     num_computed_shells_ := num_computed_shells_ this; J_metric_ := J_metric_ this;
     eri_density_ := v; D_ao_ := D_ao_ this; D_prev_ := D_prev_ this;
     D_ref_ := D_ref_ this; J_ao_ := J_ao_ this; K_ao_ := K_ao_ this;
     store := store this |}.

Definition set_D_prev_ (v : list loc) (this : CompositeJK) : CompositeJK :=
  {| nthreads_ := nthreads_ this; incfock_ := incfock_ this;
     incfock_count_ := incfock_count_ this; do_incfock_iter_ := do_incfock_iter_ this;
     initial_iteration_ := initial_iteration_ this; j_type_ := j_type_ this;
     k_type_ := k_type_ this; density_screening_ := density_screening_ this;
     cutoff_ := cutoff_ this; early_screening_ := early_screening_ this;
     linK_ints_cutoff_ := linK_ints_cutoff_ this; do_J_ := do_J_ this;
     do_K_ := do_K_ this; do_wK_ := do_wK_ this; lr_symmetric_ := lr_symmetric_ this;
     num_computed_shells_ := num_computed_shells_ this; J_metric_ := J_metric_ this;
     eri_density_ := eri_density_ this; D_ao_ := D_ao_ this; D_prev_ := v;
     D_ref_ := D_ref_ this; J_ao_ := J_ao_ this; K_ao_ := K_ao_ this;
     store := store this |}.

Definition set_D_ref_ (v : list loc) (this : CompositeJK) : CompositeJK :=
  {| nthreads_ := nthreads_ this; incfock_ := incfock_ this;
     incfock_count_ := incfock_count_ this; do_incfock_iter_ := do_incfock_iter_ this;
     initial_iteration_ := initial_iteration_ this; j_type_ := j_type_ this;
     k_type_ := k_type_ this; density_screening_ := density_screening_ this;
     cutoff_ := cutoff_ this; early_screening_ := early_screening_ this;
     linK_ints_cutoff_ := linK_ints_cutoff_ this; do_J_ := do_J_ this;
     do_K_ := do_K_ this; do_wK_ := do_wK_ this; lr_symmetric_ := lr_symmetric_ this;
     num_computed_shells_ := num_computed_shells_ this; J_metric_ := J_metric_ this;
     eri_density_ := eri_density_ this; D_ao_ := D_ao_ this; D_prev_ := D_prev_ this;
     D_ref_ := v; J_ao_ := J_ao_ this; K_ao_ := K_ao_ this; store := store this |}.

Definition set_store (v : gmap loc Matrix) (this : CompositeJK) : CompositeJK :=
  {| nthreads_ := nthreads_ this; incfock_ := incfock_ this;
     incfock_count_ := incfock_count_ this; do_incfock_iter_ := do_incfock_iter_ this;
     initial_iteration_ := initial_iteration_ this; j_type_ := j_type_ this;
     k_type_ := k_type_ this; density_screening_ := density_screening_ this;
     cutoff_ := cutoff_ this; early_screening_ := early_screening_ this;
     linK_ints_cutoff_ := linK_ints_cutoff_ this; do_J_ := do_J_ this;
     do_K_ := do_K_ this; do_wK_ := do_wK_ this; lr_symmetric_ := lr_symmetric_ this;
     num_computed_shells_ := num_computed_shells_ this; J_metric_ := J_metric_ this;
     eri_density_ := eri_density_ this; D_ao_ := D_ao_ this; D_prev_ := D_prev_ this;
     D_ref_ := D_ref_ this; J_ao_ := J_ao_ this; K_ao_ := K_ao_ this; store := v |}.

(** *** The matrix store *)

Definition read (σ : gmap loc Matrix) (l : loc) : Matrix := default [] (σ !! l).
Definition read_all (σ : gmap loc Matrix) (ls : list loc) : list Matrix :=
  map (read σ) ls.

(** [M->clone()]: a new matrix with the contents of [M]. *)
Definition clone (l : loc) (σ : gmap loc Matrix) : loc * gmap loc Matrix :=
  let l' := fresh (dom σ) in
  (l', <[l' := read σ l]> σ).

(** The builders write their result through the pointers they were given. *)
Definition write_all (ls : list loc) (ms : list Matrix) (σ : gmap loc Matrix)
    : gmap loc Matrix :=
  fold_left (fun σ lm => <[lm.1 := lm.2]> σ) (zip ls ms) σ.

(** *** Setup *)

(** Lines 192 to 200 of [common_init]: the J and K algorithms of an SCF_TYPE. *)
Definition derive_jk_types (jk_type : string) : result (string * string) :=
  j_type_ ← StdString.substr jk_type 0 (StdString.find jk_type "+");
  k_type_ ← StdString.substr jk_type
              (StdString.size_t_wrap (StdString.find jk_type "+" + 1))
              (StdString.length jk_type);
  mret (j_type_, if decide (k_type_ = j_type_) then "NONE" else k_type_).

(** [common_init()], run by the constructor on the object the base class left. *)
Definition common_init (c : Collaborators) (options_ : Options) (this : CompositeJK)
    : result CompositeJK :=
  let this := set_nthreads_ (get_n_threads c) this in
  let this := set_incfock_ (INCFOCK options_) this in
  let this := set_incfock_count_ 0 this in
  let this := set_do_incfock_iter_ false this in
  if decide (INCFOCK_FULL_FOCK_EVERY options_ ≤ 0)
  then Throw "Invalid input for option INCFOCK_FULL_FOCK_EVERY (<= 0)"
  else
    jk ← derive_jk_types (SCF_TYPE options_);
    let this := set_j_type_ jk.1 this in
    let this := set_k_type_ jk.2 this in
    let this := set_density_screening_
                  (bool_decide (SCREENING options_ = "DENSITY")) this in
    let this := set_cutoff_ (INTS_TOLERANCE options_) this in
    let this := set_early_screening_ (bool_decide (k_type_ this = "COSX")) this in
    if decide (j_type_ this = "DFDIRJ")
    then
      let this := set_J_metric_ (form_fitting_metric c) this in
      if decide (k_type_ this = "LINK")
      then
        mret (set_linK_ints_cutoff_
                (if LINK_INTS_TOLERANCE_has_changed options_
                 then LINK_INTS_TOLERANCE options_ else cutoff_ this) this)
      else if decide (k_type_ this = "COSX") then mret this
      else if decide (k_type_ this = "NONE") then mret this
      else Throw "Invalid Composite K algorithm selected!"
    else Throw "Invalid Composite J algorithm selected!".

(** [set_do_K(do_K)]. *)
Definition set_do_K (do_K : bool) (this : CompositeJK) : result CompositeJK :=
  if do_K && bool_decide (k_type_ this = "NONE")
  then Throw ("No composite K build algorithm was specified, but K matrix is required for current method! Please specify a composite K build algorithm by setting SCF_TYPE to "
              +:+ j_type_ this +:+ "+{K_ALGO}.")
  else mret (set_do_K_ do_K this).

(** *** The incremental Fock controller *)

(** Modelled from the spec: [JK::zero()] belongs to the base class, which is
    not part of this file; the output accumulators start from zero. *)
Definition zero (this : CompositeJK) : CompositeJK :=
  set_store
    (fold_left (fun σ l => alter mzero_out l σ) (J_ao_ this ++ K_ao_ this) (store this))
    this.

(** The two kinds of iteration, named after the branch [incfock_setup] takes. *)
Inductive iteration : Type := Full | Incremental.

Definition iteration_kind (this : CompositeJK) : iteration :=
  if do_incfock_iter_ this
  then if initial_iteration_ this
          || negb (bool_decide (length (D_prev_ this) = length (D_ao_ this)))
       then Full else Incremental
  else Full.

(** One pass of the loop of the incremental branch:
    [D_ref_[jki] = D_ao_[jki]->clone(); D_ref_[jki]->subtract(D_prev_[jki])].
    Writing past the end of [D_ref_] is undefined in C++ and does nothing
    here; the loop runs with [jki] below the sizes of [D_ao_] and [D_prev_]. *)
Definition delta_density (this : CompositeJK) (jki : nat) : CompositeJK :=
  let '(l, σ) := clone (default 0%nat (D_ao_ this !! jki)) (store this) in
  let this := set_store σ (set_D_ref_ (<[jki := l]> (D_ref_ this)) this) in
  set_store
    (alter (fun m => msubtract m (read (store this) (default 0%nat (D_prev_ this !! jki))))
       l (store this))
    this.

(** [incfock_setup()]. *)
Definition incfock_setup (this : CompositeJK) : CompositeJK :=
  if do_incfock_iter_ this
  then
    let njk := length (D_ao_ this) in
    if initial_iteration_ this || negb (bool_decide (length (D_prev_ this) = njk))
    then zero (set_D_ref_ (D_ao_ this) (set_initial_iteration_ true this))
    else fold_left delta_density (seq 0 njk) this
  else zero (set_D_ref_ (D_ao_ this) this).

(** [D_prev_.push_back(Di->clone())]. *)
Definition push_clone (this : CompositeJK) (Di : loc) : CompositeJK :=
  let '(l, σ) := clone Di (store this) in
  set_store σ (set_D_prev_ (D_prev_ this ++ [l]) this).

(** [incfock_postiter()]: a copy of every density for the next iteration. *)
Definition incfock_postiter (this : CompositeJK) : CompositeJK :=
  fold_left push_clone (D_ao_ this) (set_D_prev_ [] this).

(** Lines 524 to 530 of [compute_JK]: "Do IFB on this iteration?", then the
    counter. [Dnorm] is the process global "SCF D NORM". *)
Definition incfock_decide (options_ : Options) (Dnorm : float)
    (this : CompositeJK) : CompositeJK :=
  let reset := INCFOCK_FULL_FOCK_EVERY options_ in
  let incfock_conv := INCFOCK_CONVERGENCE options_ in
  let this' := set_do_incfock_iter_
    (fge Dnorm incfock_conv && negb (initial_iteration_ this)
     && negb (bool_decide (Z.rem (incfock_count_ this) reset = reset - 1))) this in
  if negb (initial_iteration_ this') && fge Dnorm incfock_conv
  then set_incfock_count_ (incfock_count_ this' + 1) this' else this'.

(** Lines 520 to 538 of [compute_JK]: the setup of this SCF iteration. *)
Definition incfock_preprocessing (options_ : Options) (Dnorm : float)
    (this : CompositeJK) : CompositeJK :=
  if incfock_ this
  then incfock_setup (incfock_decide options_ Dnorm this)
  else zero (set_D_ref_ (D_ao_ this) this).

(** The kind of the iteration that [compute_JK] sets up. *)
Definition chosen_iteration (options_ : Options) (Dnorm : float)
    (this : CompositeJK) : iteration :=
  if incfock_ this
  then iteration_kind (incfock_decide options_ Dnorm this)
  else Full.

(** Lines 540 to 574 of [compute_JK]: the density given to the engines for
    screening, then the J and the K build. *)
Definition build_matrices (c : Collaborators) (options_ : Options)
    (this : CompositeJK) : result CompositeJK :=
  let this :=
    if density_screening_ this
    then set_eri_density_ (read_all (store this) (D_ref_ this)) this else this in
  let this :=
    if do_J_ this
    then
      if decide (j_type_ this = "DFDIRJ")
      then
        let '(J, n) :=
          DirectDFJ.build_DirectDFJ c (nthreads_ this) (J_metric_ this)
            (INTS_TOLERANCE options_)
            (read_all (store this) (D_ref_ this)) (read_all (store this) (J_ao_ this)) in
        set_num_computed_shells_ n (set_store (write_all (J_ao_ this) J (store this)) this)
      else this
    else this in
  if do_K_ this
  then
    if decide (k_type_ this = "LINK")
    then
      Kn ← LinK.build_linK c (nthreads_ this) (lr_symmetric_ this)
             (cutoff_ this) (linK_ints_cutoff_ this)
             (read_all (store this) (D_ref_ this)) (eri_density_ this)
             (read_all (store this) (K_ao_ this));
      mret (set_num_computed_shells_ Kn.2
              (set_store (write_all (K_ao_ this) Kn.1 (store this)) this))
    else if decide (k_type_ this = "COSX")
    then
      let '(K, n) :=
        COSK.build_COSK c (early_screening_ this) (lr_symmetric_ this)
          (read_all (store this) (D_ref_ this)) (read_all (store this) (K_ao_ this)) in
      mret (set_num_computed_shells_ n
              (set_store (write_all (K_ao_ this) K (store this)) this))
    else mret this
  else mret this.

(** The state of an iteration when the builders are done, before the
    incremental Fock postprocessing. *)
Definition compute_JK_built (c : Collaborators) (options_ : Options) (Dnorm : float)
    (this : CompositeJK) : result CompositeJK :=
  if do_wK_ this
  then Throw "CompositeJK algorithms do not support wK integrals yet!"
  else build_matrices c options_ (incfock_preprocessing options_ Dnorm this).

(** [compute_JK()]. *)
Definition compute_JK (c : Collaborators) (options_ : Options) (Dnorm : float)
    (this : CompositeJK) : result CompositeJK :=
  this ← compute_JK_built c options_ Dnorm this;
  let this := if incfock_ this then incfock_postiter this else this in
  mret (if initial_iteration_ this then set_initial_iteration_ false this else this).

End JK.

(** ** A small system to run the code on *)

Module Example.

Import Num Mints.
Local Open Scope nat_scope.
Local Open Scope list_scope.

(** Modelled from the spec: [Matrix::hermitivitize] belongs to libmints, which
    is not part of this file; the output is symmetrized (Hermitian-forced).
    Each pair of mirrored entries gets half their sum. *)
Definition hermitivitize_half_sum (m : Matrix) : Matrix :=
  imap (fun i row =>
          imap (fun j x =>
                  if decide (i < j) then (0.5 * (x + mget m j i))%float
                  else if decide (j < i) then (0.5 * (mget m j i + x))%float
                  else x) row) m.

(** Two atoms with one s shell each. *)
Definition two_s_shells : BasisSet :=
  {| shells := [ {| nfunction := 1; function_index := 0; ncenter := 0 |};
                 {| nfunction := 1; function_index := 1; ncenter := 1 |} ];
     nbf := 2 |}.

(** One auxiliary s shell. *)
Definition one_aux_shell : BasisSet :=
  {| shells := [ {| nfunction := 1; function_index := 0; ncenter := 0 |} ];
     nbf := 1 |}.

(** An engine whose bounds depend on the shells: the pair [(1, 0)] is weaker
    than the diagonal pairs. *)
Definition pair_bound (M N : nat) : float :=
  if decide (M = N) then 1%float else 0x1p-30%float.

Definition engine : TwoBodyAOInt :=
  {| shell_pairs := [(0, 0); (1, 0); (1, 1)];
     shell_pair_value := pair_bound;
     shell_pair_significant := fun _ _ => true;
     shell_significant := fun _ _ _ _ => true;
     shell_ceiling2 := fun P Q R S => (pair_bound P Q * pair_bound R S)%float;
     shell_pair_max_density := fun D P R => fabs (mget (default [] (D !! 0)) P R);
     max_integral := 1%float;
     compute_shell := fun _ _ _ _ => (1, [1%float]) |}.

(** [screen_compare(a, b)] is [a.second > b.second]. *)
Definition screen_compare (a b : nat * float) : bool := flt b.2 a.2.

(** [std::sort] under [screen_compare] for the small system: an insertion
    sort, larger value first. Entries with equal values stay in input order,
    which is one of the orders the library may leave them in. *)
Fixpoint insert_sorted (x : nat * float) (l : list (nat * float)) : list (nat * float) :=
  match l with
  | [] => [x]
  | y :: rest =>
      if screen_compare y x
      then y :: insert_sorted x rest
      else x :: y :: rest
  end.

Definition sort_descending (l : list (nat * float)) : list (nat * float) :=
  fold_right insert_sorted [] l.

Definition system : Collaborators :=
  {| primary_ := two_s_shells;
     auxiliary_ := one_aux_shell;
     eri3 := engine;
     eri4 := engine;
     C_DGESV := fun _ g => g;
     hermitivitize := hermitivitize_half_sum;
     omp_get_thread_num := fun _ => 0;
     unordered_iteration := elements;
     std_sort := sort_descending;
     COSK_grid_loop := fun _ D => (map (fun Dp => [Dp]) D, 0);
     get_n_threads := 1;
     form_fitting_metric := [[1%float]] |}.

(** A density whose off-diagonal shell block is small. *)
Definition small_offdiagonal : Matrix :=
  [[1%float; 0x1p-30%float]; [0x1p-30%float; 1%float]].

(** Options of a run with incremental Fock builds, a full build every third
    counted iteration. *)
Definition options (scf_type : string) : JK.Options :=
  {| JK.INCFOCK := true;
     JK.INCFOCK_FULL_FOCK_EVERY := 3;
     JK.INCFOCK_CONVERGENCE := 0x1p-17%float;
     JK.SCF_TYPE := scf_type;
     JK.SCREENING := "DENSITY";
     JK.INTS_TOLERANCE := 0x1p-40%float;
     JK.LINK_INTS_TOLERANCE := 0x1p-40%float;
     JK.LINK_INTS_TOLERANCE_has_changed := false |}.

(** Modelled from the spec: the object as the constructor of the base class
    [JK] (jk.cc, not part of this file) leaves it; the initial iteration is
    always full, so [initial_iteration_] starts out true. One density (at
    location 0), one J (at 1) and one K (at 2) are attached. *)
Definition base_object : JK.CompositeJK :=
  {| JK.nthreads_ := 1; JK.incfock_ := false; JK.incfock_count_ := 0;
     JK.do_incfock_iter_ := false; JK.initial_iteration_ := true;
     JK.j_type_ := ""; JK.k_type_ := ""; JK.density_screening_ := false;
     JK.cutoff_ := 0%float; JK.early_screening_ := false;
     JK.linK_ints_cutoff_ := 0%float;
     JK.do_J_ := true; JK.do_K_ := true; JK.do_wK_ := false;
     JK.lr_symmetric_ := true; JK.num_computed_shells_ := 0;
     JK.J_metric_ := []; JK.eri_density_ := [];
     JK.D_ao_ := [0]; JK.D_prev_ := []; JK.D_ref_ := [];
     JK.J_ao_ := [1]; JK.K_ao_ := [2];
     JK.store := {[ 0 := small_offdiagonal; 1 := mzero 2 2; 2 := mzero 2 2 ]} |}.

(** The object after a successful setup for "DFDIRJ+LINK". *)
Definition configured : JK.CompositeJK :=
  match JK.common_init system (options "DFDIRJ+LINK") base_object with
  | Ok this => this
  | Throw _ => base_object
  end.

(** A run of SCF iterations, one per value of SCF D NORM, oldest first: the
    kind of each iteration and the object at the end. The run stops at the
    first iteration that throws. *)
Fixpoint run (c : Collaborators) (options_ : JK.Options) (Dnorms : list float)
    (this : JK.CompositeJK) : list JK.iteration * JK.CompositeJK :=
  match Dnorms with
  | [] => ([], this)
  | Dnorm :: rest =>
      match JK.compute_JK c options_ Dnorm this with
      | Ok next =>
          let '(kinds, last) := run c options_ rest next in
          (JK.chosen_iteration options_ Dnorm this :: kinds, last)
      | Throw _ => ([], this)
      end
  end.

End Example.

(** ** Notions used to state the properties *)

Module Notions.

Import Num Mints JK.
Local Open Scope nat_scope.
Local Open Scope list_scope.

(** A string without the character ['+']. *)
Definition no_plus (s : string) : Prop :=
  forall n : nat, String.get n s <> Some "+"%char.

(** The same, as a test. *)
Fixpoint plus_free (s : string) : bool :=
  match s with
  | EmptyString => true
  | String a rest => negb (Ascii.eqb a "+") && plus_free rest
  end.

(** The same collaborators with other 3-index integral blocks. *)
Definition with_eri3_blocks (c : Collaborators)
    (blocks : nat -> nat -> nat -> nat -> nat * list float) : Collaborators :=
  {| primary_ := primary_ c; auxiliary_ := auxiliary_ c;
     eri3 := {| shell_pairs := shell_pairs (eri3 c);
                shell_pair_value := shell_pair_value (eri3 c);
                shell_pair_significant := shell_pair_significant (eri3 c);
                shell_significant := shell_significant (eri3 c);
                shell_ceiling2 := shell_ceiling2 (eri3 c);
                shell_pair_max_density := shell_pair_max_density (eri3 c);
                max_integral := max_integral (eri3 c);
                compute_shell := blocks |};
     eri4 := eri4 c; C_DGESV := C_DGESV c; hermitivitize := hermitivitize c;
     omp_get_thread_num := omp_get_thread_num c;
     unordered_iteration := unordered_iteration c;
     std_sort := std_sort c; COSK_grid_loop := COSK_grid_loop c;
     get_n_threads := get_n_threads c;
     form_fitting_metric := form_fitting_metric c |}.

(** The test as the specification words it: the density bound, the metric
    bound and the Schwarz bound multiplied, against the squared tolerance. *)
Definition spec_skip_triplet1 (c : Collaborators) (Dsh : Matrix) (diag : Vector)
    (thresh2 : float) (P M N : nat) : bool :=
  flt (mget Dsh M N * vget diag P * shell_pair_value (eri3 c) M N)%float thresh2.

(** The members that the setup of an iteration never writes. *)
Definition statics (t : CompositeJK) :=
  (D_ao_ t, D_prev_ t, J_ao_ t, K_ao_ t, incfock_ t,
   (do_J_ t, do_K_ t, do_wK_ t), (j_type_ t, k_type_ t, lr_symmetric_ t)).

(** What the builders leave alone: every member but the store and the shell
    counter (and the density of the engines), and in the store every matrix
    that is neither a J nor a K. *)
Definition builders_frame (this t : CompositeJK) : Prop :=
  D_ao_ t = D_ao_ this /\ D_prev_ t = D_prev_ this /\ D_ref_ t = D_ref_ this
  /\ J_ao_ t = J_ao_ this /\ K_ao_ t = K_ao_ this
  /\ incfock_ t = incfock_ this /\ initial_iteration_ t = initial_iteration_ this
  /\ incfock_count_ t = incfock_count_ this
  /\ do_incfock_iter_ t = do_incfock_iter_ this
  /\ (forall l, l ∉ J_ao_ this ++ K_ao_ this -> store t !! l = store this !! l).

(** The loop of the incremental branch after [n] passes: only [D_ref_] and
    the store have changed; every matrix that existed is untouched; the first
    [n] entries of [D_ref_] are new matrices holding current minus previous. *)
Definition delta_loop_inv (this t : CompositeJK) (n : nat) : Prop :=
  t = set_store (store t) (set_D_ref_ (D_ref_ t) this)
  /\ length (D_ref_ t) = length (D_ref_ this)
  /\ (forall l, l ∈ dom (store this) -> store t !! l = store this !! l)
  /\ (forall j a p, j < n ->
        D_ao_ this !! j = Some a -> D_prev_ this !! j = Some p ->
        exists l, D_ref_ t !! j = Some l /\ (l ∉ dom (store this))
                  /\ store t !! l
                     = Some (msubtract (read (store this) a) (read (store this) p)))
  /\ (forall j, n <= j -> D_ref_ t !! j = D_ref_ this !! j).

(** The number of iterations since the last full build, from the kinds of the
    iterations so far, oldest first. *)
Definition iterations_since_full (history : list iteration) : nat :=
  fold_left (fun n kind => match kind with Full => 0 | Incremental => S n end) history 0.

(** The choice as the specification words it: the last condition is that the
    count of iterations since the last full build, the one about to run
    included, has not reached the reset cadence. *)
Definition spec_incremental (options_ : Options) (Dnorm : float)
    (history : list iteration) (this : CompositeJK) : bool :=
  negb (initial_iteration_ this)
  && bool_decide (length (D_prev_ this) = length (D_ao_ this))
  && fge Dnorm (INCFOCK_CONVERGENCE options_)
  && bool_decide (Z.of_nat (iterations_since_full history) + 1
                  < INCFOCK_FULL_FOCK_EVERY options_)%Z.

(** What a scan with early exit looks at: every element up to and including
    the first one that fails [ok]. *)
Fixpoint scanned {A} (ok : A -> bool) (l : list A) : list A :=
  match l with
  | [] => []
  | x :: rest => if ok x then x :: scanned ok rest else [x]
  end.

Section ChainNotions.

Import LinK.

Variables (c : Collaborators) (Dscreen : list Matrix) (cutoff : float).
Variables (nsh : nat) (bras_of : list (list nat)).
Variables (ch : chain) (P Q dP dQ : nat).

(** The body of the inner loop for a candidate [S] of the ket shell [R]. *)
Definition visit_bra (R : nat) (st : MLState) (S : nat) : MLState :=
  let st := log_call P Q R S st in
  if passes_cutoff c Dscreen cutoff ch P Q R S
  then keep_pair nsh ch P Q dP dQ R S st else st.

(** A ket shell [R] is significant when its inner loop sets [is_significant]:
    when the first candidate of its bra list passes. *)
Definition ket_significant (R : nat) : bool :=
  match default [] (bras_of !! R) with
  | S_ :: _ => passes_cutoff c Dscreen cutoff ch P Q R S_
  | [] => false
  end.

(** The body of the outer loop for a ket shell [R]. *)
Definition visit_ket (st : MLState) (R : nat) : MLState :=
  (walk_bras c Dscreen cutoff nsh ch P Q dP dQ R (default [] (bras_of !! R)) false st).2.

End ChainNotions.

(** One-half when the condition holds, one otherwise. *)
Definition half_if (b : bool) : float := if b then 0.5%float else 1%float.

(** The eight index orders under which the integral [(PQ|RS)] is the same. *)
Definition images (P Q R S : nat) : list (nat * nat * nat * nat) :=
  [(P, Q, R, S); (Q, P, R, S); (P, Q, S, R); (Q, P, S, R);
   (R, S, P, Q); (S, R, P, Q); (R, S, Q, P); (S, R, Q, P)].

(** A count as a double. *)
Fixpoint float_of_nat (n : nat) : float :=
  match n with
  | O => 0%float
  | Datatypes.S n => (float_of_nat n + 1)%float
  end.

(** The number of different quartets in a list. *)
Definition same_quartet (x y : nat * nat * nat * nat) : bool :=
  let '(a, b, c, d) := x in
  let '(a', b', c', d') := y in
  (a =? a') && (b =? b') && (c =? c') && (d =? d').

Fixpoint distinct (l : list (nat * nat * nat * nat)) : nat :=
  match l with
  | [] => 0
  | x :: rest =>
      if existsb (same_quartet x) rest then distinct rest else Datatypes.S (distinct rest)
  end.

(** An [n] by [n] matrix. *)
Definition square (n : nat) (m : Matrix) : Prop :=
  length m = n /\ Forall (fun row => length row = n) m.

(** The kind of the iteration that finds the counter at [n], when nothing but
    the counter stands against an incremental iteration: full in the last
    of every [reset] counts. *)
Definition cadence_kind (reset n : Z) : iteration :=
  if bool_decide (Z.rem n reset = (reset - 1)%Z) then Full else Incremental.

(** A triplet that the first (the last) contraction of the J builder does not
    skip. *)
Definition computed1 (c : Collaborators) (Dsh : Matrix) (diag : Vector)
    (thresh2 : float) (MNP : nat) : bool :=
  let '(P, M, N) := DirectDFJ.triplet_of c MNP in
  negb (DirectDFJ.skip_triplet1 c Dsh diag thresh2 P M N).

Definition computed2 (c : Collaborators) (Hmax : Vector) (diag : Vector)
    (thresh2 : float) (MNP : nat) : bool :=
  let '(P, M, N) := DirectDFJ.triplet_of c MNP in
  negb (DirectDFJ.skip_triplet2 c Hmax diag thresh2 P M N).

(** What thread [rank] alone adds to its [G] buffer of channel [jki]: its own
    triplets that pass the test, in the order it runs them. *)
Definition thread_G (c : Collaborators) (D : list Matrix) (Dsh : Matrix)
    (diag : Vector) (thresh2 : float) (jki rank : nat) (triplets : list nat)
    (G : Vector) : Vector :=
  fold_left (fun G MNP =>
      let '(P, M, N) := DirectDFJ.triplet_of c MNP in
      if computed1 c Dsh diag thresh2 MNP && (omp_get_thread_num c MNP =? rank)
      then DirectDFJ.contract_G c (compute_shell (eri3 c) P 0 M N).2
             (default [] (D !! jki)) P M N G
      else G)
    triplets G.

(** Ket-pair indices in canonical order for the bra pair [(P, Q)]: such an
    index decodes, as the quartet loop does with [RS / nshell] and
    [RS % nshell], to shells [S <= R] of the basis, and the index is not above
    [P * nshell + Q]. *)
Definition canonical_for (nsh P Q : nat) (pairs : gset nat) : Prop :=
  forall RS, RS ∈ pairs ->
    RS <= P * nsh + Q /\ RS mod nsh <= RS / nsh /\ RS / nsh < nsh.

(** A list of numbers that goes up strictly. *)
Definition increasing (l : list nat) : Prop :=
  forall i j a b, i < j -> l !! i = Some a -> l !! j = Some b -> a < b.

(** A basis set whose shells own consecutive basis functions: the first
    function of a shell is the number of functions of the shells before it. *)
Definition cumulative (b : BasisSet) : Prop :=
  forall i, i < nshell b ->
    function_index (shell b i) = sum_list_with nfunction (take i (shells b)).

End Notions.

(** ** Further systems to run the code on *)

Module Samples.

Import Num Mints Example.
Local Open Scope nat_scope.
Local Open Scope list_scope.

(** The small system with a 4-index engine that finds no shell pair
    significant. *)
Definition quiet_engine : TwoBodyAOInt :=
  {| shell_pairs := shell_pairs engine;
     shell_pair_value := shell_pair_value engine;
     shell_pair_significant := fun _ _ => false;
     shell_significant := shell_significant engine;
     shell_ceiling2 := shell_ceiling2 engine;
     shell_pair_max_density := shell_pair_max_density engine;
     max_integral := max_integral engine;
     compute_shell := compute_shell engine |}.

Definition quiet_system : Collaborators :=
  {| primary_ := two_s_shells; auxiliary_ := one_aux_shell;
     eri3 := engine; eri4 := quiet_engine;
     C_DGESV := C_DGESV system; hermitivitize := hermitivitize system;
     omp_get_thread_num := omp_get_thread_num system;
     unordered_iteration := unordered_iteration system;
     std_sort := std_sort system; COSK_grid_loop := COSK_grid_loop system;
     get_n_threads := get_n_threads system;
     form_fitting_metric := form_fitting_metric system |}.

(** The object after a successful setup for the bare tag "DFDIRJ". *)
Definition configured_J_only : JK.CompositeJK :=
  match JK.common_init system (options "DFDIRJ") base_object with
  | Ok this => this
  | Throw _ => base_object
  end.

(** The object after the first iteration of a run. *)
Definition after_first : JK.CompositeJK :=
  (run system (options "DFDIRJ+LINK") [1%float] configured).2.

(** The object of the next iteration. *)
Definition after_second : JK.CompositeJK :=
  (run system (options "DFDIRJ+LINK") [1%float; 1%float] configured).2.

(** The small system with a COSX grid loop whose one thread buffer per
    channel has weight above the diagonal only: the grid loop builds a buffer
    row by row from grid-fitted function values and column by column from
    analytic integrals, and nothing in it makes the two sides agree. *)
Definition one_sided_system : Collaborators :=
  {| primary_ := two_s_shells; auxiliary_ := one_aux_shell;
     eri3 := engine; eri4 := engine;
     C_DGESV := C_DGESV system; hermitivitize := hermitivitize system;
     omp_get_thread_num := omp_get_thread_num system;
     unordered_iteration := unordered_iteration system;
     std_sort := std_sort system;
     COSK_grid_loop := fun _ D => (map (fun _ => [ [[0; 1]; [0; 0]]%float ]) D, 1);
     get_n_threads := get_n_threads system;
     form_fitting_metric := form_fitting_metric system |}.

(** An object past its first iteration whose cache has no entry. *)
Definition cache_lost : JK.CompositeJK :=
  JK.set_initial_iteration_ false configured.

Definition after_cache_lost : JK.CompositeJK :=
  match JK.compute_JK system (options "DFDIRJ+LINK") 1%float cache_lost with
  | Ok this => this
  | Throw _ => cache_lost
  end.

End Samples.

(** * Properties *)

(** ** Splitting the SCF_TYPE tag *)

Section SplitTag.

Import Notions.
Import StdString.
Local Open Scope string_scope.

Lemma no_plus_tail a s : no_plus (String a s) -> no_plus s.
Proof. intros H n. exact (H (S n)). Qed.

Lemma no_plus_head a s : no_plus (String a s) -> a <> "+"%char.
Proof. intros H ->. exact (H 0%nat eq_refl). Qed.

Lemma prefix_plus_false a s : a <> "+"%char -> String.prefix "+" (String a s) = false.
Proof.
  intros Ha.
  change (String.prefix "+" (String a s))
    with (if Ascii.ascii_dec "+" a then String.prefix "" s else false).
  destruct (Ascii.ascii_dec "+" a) as [e|]; [congruence | reflexivity].
Qed.

Lemma prefix_plus_true s : String.prefix "+" (String "+" s) = true.
Proof.
  change (String.prefix "+" (String "+" s))
    with (if Ascii.ascii_dec "+" "+" then String.prefix "" s else false).
  destruct (Ascii.ascii_dec "+" "+") as [_|n]; [now destruct s | congruence].
Qed.

Lemma find_from_first_plus pre suf i :
  no_plus pre ->
  find_from "+" (pre ++ String "+" suf) i = Some (i + String.length pre)%nat.
Proof.
  revert i. induction pre as [|a pre IH]; intros i Hpre.
  - change ("" ++ String "+" suf) with (String "+" suf).
    unfold find_from. rewrite prefix_plus_true. cbn [String.length].
    f_equal. lia.
  - change (String a pre ++ String "+" suf) with (String a (pre ++ String "+" suf)).
    cbn [find_from].
    rewrite (prefix_plus_false a _ (no_plus_head _ _ Hpre)).
    rewrite (IH (S i) (no_plus_tail _ _ Hpre)). cbn [String.length]. f_equal. lia.
Qed.

Lemma find_from_no_plus s i : no_plus s -> find_from "+" s i = None.
Proof.
  revert i. induction s as [|a s IH]; intros i Hs.
  - reflexivity.
  - cbn [find_from]. rewrite (prefix_plus_false a _ (no_plus_head _ _ Hs)).
    apply IH, (no_plus_tail _ _ Hs).
Qed.

Lemma substring_whole s : String.substring 0 (String.length s) s = s.
Proof. induction s as [|a s IH]; simpl; [reflexivity | now rewrite IH]. Qed.

Lemma substring_front a b : String.substring 0 (String.length a) (a ++ b) = a.
Proof.
  induction a as [|x a IH].
  - change ("" ++ b) with b. now destruct b.
  - change (String x a ++ b) with (String x (a ++ b)). simpl. now rewrite IH.
Qed.

Lemma substring_back a b :
  String.substring (String.length a) (String.length b) (a ++ b) = b.
Proof.
  induction a as [|x a IH].
  - change ("" ++ b) with b. apply substring_whole.
  - change (String x a ++ b) with (String x (a ++ b)). simpl. exact IH.
Qed.

Lemma length_append a b :
  String.length (a ++ b) = (String.length a + String.length b)%nat.
Proof.
  induction a as [|x a IH].
  - reflexivity.
  - change (String x a ++ b) with (String x (a ++ b)). simpl. now rewrite IH.
Qed.

End SplitTag.

Section DeriveTypes.

Import Notions.
Import StdString.
Local Open Scope string_scope.

Lemma substring_after a x b :
  String.substring (S (String.length a)) (String.length b) (a ++ String x b) = b.
Proof.
  induction a as [|y a IH].
  - change ("" ++ String x b) with (String x b). simpl. apply substring_whole.
  - change (String y a ++ String x b) with (String y (a ++ String x b)).
    simpl. exact IH.
Qed.

Lemma length_nonneg s : 0 <= StdString.length s.
Proof. unfold StdString.length. lia. Qed.

Lemma length_split pre suf :
  StdString.length (pre ++ String "+" suf)
  = StdString.length pre + 1 + StdString.length suf.
Proof.
  unfold StdString.length. rewrite length_append. cbn [String.length]. lia.
Qed.

Lemma npos_value : npos = 18446744073709551615.
Proof. reflexivity. Qed.

Lemma size_t_wrap_small z : 0 <= z < size_t_modulus -> size_t_wrap z = z.
Proof. intros H. unfold size_t_wrap. now apply Z.mod_small. Qed.

Lemma size_t_wrap_npos_succ : size_t_wrap (npos + 1) = 0.
Proof. reflexivity. Qed.

(** The two [substr] calls on a tag with a ['+']. *)
Lemma substr_prefix pre suf :
  substr (pre ++ String "+" suf) 0 (StdString.length pre) = Ok pre.
Proof.
  unfold substr.
  pose proof (length_nonneg (pre ++ String "+" suf)) as H0.
  destruct (Z.ltb_spec (StdString.length (pre ++ String "+" suf)) 0) as [?|_]; [lia|].
  rewrite Z.min_l by (rewrite length_split; pose proof (length_nonneg suf); lia).
  change (Z.to_nat 0) with 0%nat.
  unfold StdString.length. rewrite Nat2Z.id. now rewrite substring_front.
Qed.

Lemma substr_suffix pre suf :
  substr (pre ++ String "+" suf) (StdString.length pre + 1)
    (StdString.length (pre ++ String "+" suf)) = Ok suf.
Proof.
  unfold substr. rewrite length_split.
  pose proof (length_nonneg pre) as Hp. pose proof (length_nonneg suf) as Hs.
  destruct (Z.ltb_spec (StdString.length pre + 1 + StdString.length suf)
              (StdString.length pre + 1)) as [?|_]; [lia|].
  rewrite Z.min_r by lia.
  replace (StdString.length pre + 1 + StdString.length suf - (StdString.length pre + 1))
    with (StdString.length suf) by lia.
  unfold StdString.length.
  replace (Z.of_nat (String.length pre) + 1) with (Z.of_nat (S (String.length pre))) by lia.
  rewrite !Nat2Z.id. now rewrite substring_after.
Qed.

Lemma substr_all s count :
  StdString.length s <= count -> substr s 0 count = Ok s.
Proof.
  intros Hc. unfold substr. pose proof (length_nonneg s) as H0.
  destruct (Z.ltb_spec (StdString.length s) 0) as [?|_]; [lia|].
  rewrite Z.min_r by lia. rewrite Z.sub_0_r.
  change (Z.to_nat 0) with 0%nat.
  unfold StdString.length. rewrite Nat2Z.id. now rewrite substring_whole.
Qed.

(** C6: a tag is split at its first ['+'] into the J selector (what stands
    before it) and the K selector (what stands after it), and a K selector
    equal to the J selector is replaced by "NONE". *)
Theorem derive_jk_types_splits_at_first_plus (pre suf : string) :
  no_plus pre ->
  StdString.length (pre ++ "+" ++ suf) < npos ->
  JK.derive_jk_types (pre ++ "+" ++ suf)
  = Ok (pre, if decide (suf = pre) then "NONE" else suf).
Proof.
  intros Hpre Hlen.
  change (pre ++ "+" ++ suf) with (pre ++ String "+" suf) in *.
  unfold JK.derive_jk_types, find.
  rewrite (find_from_first_plus pre suf 0 Hpre). cbn [Nat.add].
  fold (StdString.length pre). rewrite substr_prefix. cbn [mbind result_bind].
  rewrite size_t_wrap_small.
  - rewrite substr_suffix. reflexivity.
  - rewrite length_split in Hlen. rewrite npos_value in Hlen.
    pose proof (length_nonneg pre). pose proof (length_nonneg suf).
    change size_t_modulus with 18446744073709551616. lia.
Qed.

(** C10: a tag without ['+'] gives the whole tag as J selector; the raw K
    selector, cut from position [npos + 1 = 0], is the whole tag too, and so the
    K selector is "NONE". *)
Theorem derive_jk_types_without_plus (tag : string) :
  no_plus tag ->
  StdString.length tag < npos ->
  find tag "+" = npos
  /\ size_t_wrap (find tag "+" + 1) = 0
  /\ substr tag 0 (find tag "+") = Ok tag
  /\ substr tag (size_t_wrap (find tag "+" + 1)) (StdString.length tag) = Ok tag
  /\ JK.derive_jk_types tag = Ok (tag, "NONE").
Proof.
  intros Htag Hlen.
  assert (Hf : find tag "+" = npos).
  { unfold find. now rewrite (find_from_no_plus tag 0 Htag). }
  unfold JK.derive_jk_types. rewrite Hf, size_t_wrap_npos_succ.
  rewrite (substr_all tag npos) by lia.
  rewrite (substr_all tag (StdString.length tag)) by lia.
  repeat split; try reflexivity.
  cbn [mbind result_bind mret result_ret].
  destruct (decide (tag = tag)) as [_|n]; [reflexivity | congruence].
Qed.

End DeriveTypes.

Section Setup.

Import Notions.
Import StdString JK.
Local Open Scope string_scope.

Lemma plus_free_no_plus s : plus_free s = true -> no_plus s.
Proof.
  induction s as [|a s IH]; intros H n.
  - destruct n; discriminate.
  - cbn [plus_free] in H. apply andb_prop in H as [Ha Hs].
    destruct n as [|n]; cbn [String.get].
    + intros [= ->]. now rewrite Ascii.eqb_refl in Ha.
    + now apply IH.
Qed.

Lemma find_from_bound s i k :
  find_from "+" s i = Some k -> (i <= k < i + String.length s)%nat.
Proof.
  revert i. induction s as [|a s IH]; intros i.
  - cbn. discriminate.
  - cbn [find_from String.length].
    destruct (String.prefix "+" (String a s)).
    + intros [= <-]. lia.
    + intros H. apply IH in H. lia.
Qed.

Lemma substr_in_range s pos count :
  0 <= pos <= StdString.length s -> exists r, substr s pos count = Ok r.
Proof.
  intros H. unfold substr.
  destruct (Z.ltb_spec (StdString.length s) pos) as [?|_]; [lia|]. eauto.
Qed.

(** The tag splitting never throws: [find("+") + 1] is at most the length. *)
Lemma derive_jk_types_total tag :
  StdString.length tag < npos ->
  exists j k, derive_jk_types tag = Ok (j, k).
Proof.
  intros Hlen. unfold derive_jk_types.
  pose proof (length_nonneg tag) as H0.
  destruct (substr_in_range tag 0 (find tag "+")) as [j ->]; [lia|].
  cbn [mbind result_bind].
  assert (Hpos : 0 <= size_t_wrap (find tag "+" + 1) <= StdString.length tag).
  { unfold find. destruct (find_from "+" tag 0) as [k|] eqn:Hk.
    - apply find_from_bound in Hk. rewrite npos_value in Hlen.
      unfold StdString.length in *. rewrite size_t_wrap_small.
      + lia.
      + change size_t_modulus with 18446744073709551616. lia.
    - rewrite size_t_wrap_npos_succ. lia. }
  destruct (substr_in_range tag _ (StdString.length tag) Hpos) as [k ->].
  cbn [mbind result_bind mret result_ret]. eauto.
Qed.

(** C7: [common_init] throws exactly when INCFOCK_FULL_FOCK_EVERY is at most
    zero, or the J selector is not "DFDIRJ", or the K selector is none of
    "LINK", "COSX" and "NONE"; each case has its own message, tested in this
    order, and an object is returned in no such case. *)
Theorem common_init_throws_exactly (c : Mints.Collaborators) (options_ : Options)
    (this : CompositeJK) :
  StdString.length (SCF_TYPE options_) < npos ->
  exists j k : string,
    derive_jk_types (SCF_TYPE options_) = Ok (j, k)
    /\ (throws (common_init c options_ this)
        <-> INCFOCK_FULL_FOCK_EVERY options_ <= 0
            \/ j <> "DFDIRJ"
            \/ (k <> "LINK" /\ k <> "COSX" /\ k <> "NONE"))
    /\ (common_init c options_ this
          = Throw "Invalid input for option INCFOCK_FULL_FOCK_EVERY (<= 0)"
        <-> INCFOCK_FULL_FOCK_EVERY options_ <= 0)
    /\ (common_init c options_ this = Throw "Invalid Composite J algorithm selected!"
        <-> 0 < INCFOCK_FULL_FOCK_EVERY options_ /\ j <> "DFDIRJ")
    /\ (common_init c options_ this = Throw "Invalid Composite K algorithm selected!"
        <-> 0 < INCFOCK_FULL_FOCK_EVERY options_ /\ j = "DFDIRJ"
            /\ k <> "LINK" /\ k <> "COSX" /\ k <> "NONE").
Proof.
  intros Hlen.
  destruct (derive_jk_types_total _ Hlen) as (j & k & Hjk).
  exists j, k. split; [exact Hjk|].
  unfold common_init. rewrite Hjk.
  destruct (decide (INCFOCK_FULL_FOCK_EVERY options_ ≤ 0)%Z) as [Hr|Hr].
  { cbn. intuition (try discriminate; try lia). }
  cbn [mbind result_bind fst snd j_type_ k_type_ set_j_type_ set_k_type_
       set_density_screening_ set_cutoff_ set_early_screening_ set_J_metric_].
  destruct (decide (j = "DFDIRJ")) as [Hj|Hj].
  2:{ cbn. intuition (try discriminate; try lia). }
  destruct (decide (k = "LINK")) as [Hk1|Hk1].
  { cbn. intuition (try discriminate; try lia). }
  destruct (decide (k = "COSX")) as [Hk2|Hk2].
  { cbn. intuition (try discriminate; try lia). }
  destruct (decide (k = "NONE")) as [Hk3|Hk3].
  { cbn. intuition (try discriminate; try lia). }
  cbn. intuition (try discriminate; try lia).
Qed.

End Setup.

Section Capability.

Import Notions.
Import JK.
Local Open Scope string_scope.

(** C8: [set_do_K(true)] throws when the K selector is "NONE" (and only
    then, else it stores the flag); [compute_JK] throws when wK is asked for;
    [build_linK] throws when the build is not declared symmetric (and only
    then). *)
Theorem capability_mismatch_throws :
  (forall (do_K : bool) (this : CompositeJK),
      (throws (set_do_K do_K this) <-> do_K = true /\ k_type_ this = "NONE")
      /\ (~ throws (set_do_K do_K this) -> set_do_K do_K this = Ok (set_do_K_ do_K this)))
  /\ (forall (c : Mints.Collaborators) (options_ : Options) (Dnorm : float)
        (this : CompositeJK),
      do_wK_ this = true ->
      compute_JK c options_ Dnorm this
      = Throw "CompositeJK algorithms do not support wK integrals yet!")
  /\ (forall (c : Mints.Collaborators) (nthread : nat) (lr_symmetric_ : bool)
        (cutoff_ linK_ints_cutoff_ : float) (D Dscreen K : list Num.Matrix),
      throws (LinK.build_linK c nthread lr_symmetric_ cutoff_ linK_ints_cutoff_ D Dscreen K)
      <-> lr_symmetric_ = false).
Proof.
  split; [|split].
  - intros do_K this. unfold set_do_K.
    destruct do_K; cbn [andb].
    + destruct (bool_decide_reflect (k_type_ this = "NONE")) as [Hk|Hk]; cbn.
      * intuition.
      * intuition.
    + cbn. intuition (try discriminate; try congruence).
  - intros c options_ Dnorm this Hw. unfold compute_JK, compute_JK_built.
    rewrite Hw. reflexivity.
  - intros c nthread lr cut lcut D Dscreen K. unfold LinK.build_linK.
    destruct lr; cbn; intuition (try discriminate; try congruence).
Qed.

End Capability.

(** ** The forward contraction of the J builder *)

Section ForwardContraction.

Import Notions.
Import Num Mints DirectDFJ.
Local Open Scope nat_scope.
Local Open Scope list_scope.

Lemma lookup_map {A B} (f : A -> B) (l : list A) (i : nat) :
  map f l !! i = f <$> (l !! i).
Proof.
  revert i. induction l as [|x l IH]; intros [|i]; cbn; try reflexivity. apply IH.
Qed.

Lemma fold_left_ext_in {A B} (f g : A -> B -> A) (l : list B) (a : A) :
  (forall x acc, In x l -> f acc x = g acc x) ->
  fold_left f l a = fold_left g l a.
Proof.
  revert a. induction l as [|x l IH]; intros a H.
  - reflexivity.
  - cbn. rewrite (H x a (or_introl eq_refl)). apply IH.
    intros y acc Hy. apply H. now right.
Qed.

(** One iteration, case by case. *)
Lemma forward_triplet_cases (c : Collaborators) (D : list Matrix) (Dsh : Matrix)
    (diag : Vector) (thresh2 : float) (GT : list (list Vector)) (count MNP : nat) :
  let P := (triplet_of c MNP).1.1 in
  let M := (triplet_of c MNP).1.2 in
  let N := (triplet_of c MNP).2 in
  forward_triplet c D Dsh diag thresh2 (GT, count) MNP
  = if flt (mget Dsh M N * mget Dsh M N * vget diag P
            * shell_pair_value (eri3 c) M N)%float thresh2
    then (GT, count)
    else (imap (fun jki GTjki =>
                  alter (contract_G c (compute_shell (eri3 c) P 0 M N).2
                           (default [] (D !! jki)) P M N)
                        (omp_get_thread_num c MNP) GTjki) GT,
          S count).
Proof.
  unfold forward_triplet, skip_triplet1.
  destruct (triplet_of c MNP) as [[P M] N]. reflexivity.
Qed.

(** The first contraction reads the integral block of a triplet only when the
    triplet passes the test. *)
Lemma forward_contraction_blocks (c : Collaborators)
    (blocks : nat -> nat -> nat -> nat -> nat * list float)
    (nthreads_ : nat) (D : list Matrix) (Dsh : Matrix) (diag : Vector) (thresh2 : float) :
  (forall MNP,
      MNP < nshell (auxiliary_ c) * length (shell_pairs (eri3 c)) ->
      skip_triplet1 c Dsh diag thresh2 (triplet_of c MNP).1.1 (triplet_of c MNP).1.2
        (triplet_of c MNP).2 = false ->
      blocks (triplet_of c MNP).1.1 0 (triplet_of c MNP).1.2 (triplet_of c MNP).2
      = compute_shell (eri3 c) (triplet_of c MNP).1.1 0 (triplet_of c MNP).1.2
          (triplet_of c MNP).2) ->
  forward_contraction (with_eri3_blocks c blocks) nthreads_ D Dsh diag thresh2
  = forward_contraction c nthreads_ D Dsh diag thresh2.
Proof.
  intros Hblocks. unfold forward_contraction.
  change (nshell (auxiliary_ (with_eri3_blocks c blocks))) with (nshell (auxiliary_ c)).
  change (shell_pairs (eri3 (with_eri3_blocks c blocks))) with (shell_pairs (eri3 c)).
  change (nbf (auxiliary_ (with_eri3_blocks c blocks))) with (nbf (auxiliary_ c)).
  apply fold_left_ext_in. intros MNP [GT count] Hin.
  apply in_seq in Hin. specialize (Hblocks MNP ltac:(lia)).
  unfold forward_triplet.
  change (triplet_of (with_eri3_blocks c blocks) MNP) with (triplet_of c MNP).
  destruct (triplet_of c MNP) as [[P M] N]. cbn [fst snd] in Hblocks.
  change (skip_triplet1 (with_eri3_blocks c blocks)) with (skip_triplet1 c).
  destruct (skip_triplet1 c Dsh diag thresh2 P M N); [reflexivity|].
  change (compute_shell (eri3 (with_eri3_blocks c blocks))) with blocks.
  rewrite (Hblocks eq_refl). reflexivity.
Qed.

(** C2, as the code has it: a triplet is skipped exactly when
    [Dshell[M][N] * Dshell[M][N] * J_metric_shell_diag[P] * shell_pair_value(M, N)]
    is below the squared tolerance, the density shell maximum entering squared.
    A skipped triplet leaves every [G] buffer and the counter as they were and
    its integral block is never read; any other triplet is counted as computed
    and its block is contracted with the density of every channel into the
    buffer of the thread that runs it. *)
Theorem forward_triplet_screening (c : Collaborators) (nthreads_ : nat)
    (J_metric_ : Matrix) (INTS_TOLERANCE : float) (D : list Matrix)
    (GT : list (list Vector)) (count MNP : nat) :
  let thresh2 := (INTS_TOLERANCE * INTS_TOLERANCE)%float in
  let diag := J_metric_shell_diag c J_metric_ in
  let Dsh := Dshell c D in
  let P := (triplet_of c MNP).1.1 in
  let M := (triplet_of c MNP).1.2 in
  let N := (triplet_of c MNP).2 in
  let bound := (mget Dsh M N * mget Dsh M N * vget diag P
                * shell_pair_value (eri3 c) M N)%float in
  let after := forward_triplet c D Dsh diag thresh2 (GT, count) MNP in
  (after.2 = count <-> flt bound thresh2 = true)
  /\ (flt bound thresh2 = true -> after = (GT, count))
  /\ (flt bound thresh2 = false ->
      after = (imap (fun jki GTjki =>
                       alter (contract_G c (compute_shell (eri3 c) P 0 M N).2
                                (default [] (D !! jki)) P M N)
                             (omp_get_thread_num c MNP) GTjki) GT,
               S count))
  /\ (forall blocks,
        (forall i,
            i < nshell (auxiliary_ c) * length (shell_pairs (eri3 c)) ->
            skip_triplet1 c Dsh diag thresh2 (triplet_of c i).1.1 (triplet_of c i).1.2
              (triplet_of c i).2 = false ->
            blocks (triplet_of c i).1.1 0 (triplet_of c i).1.2 (triplet_of c i).2
            = compute_shell (eri3 c) (triplet_of c i).1.1 0 (triplet_of c i).1.2
                (triplet_of c i).2) ->
        forward_contraction (with_eri3_blocks c blocks) nthreads_ D Dsh diag thresh2
        = forward_contraction c nthreads_ D Dsh diag thresh2).
Proof.
  intros thresh2 diag Dsh P M N bound after.
  assert (Hcases := forward_triplet_cases c D Dsh diag thresh2 GT count MNP).
  cbn zeta in Hcases. fold P M N bound after in Hcases.
  split; [|split; [|split]].
  - rewrite Hcases. destruct (flt bound thresh2); cbn [snd]; split; intros Hc;
      try reflexivity; try discriminate. lia.
  - intros Hb. now rewrite Hcases, Hb.
  - intros Hb. now rewrite Hcases, Hb.
  - intros blocks Hblocks. now apply forward_contraction_blocks.
Qed.

(** The entries of [Dshell] are the shell maxima of the densities. *)
Lemma Dshell_lookup (c : Collaborators) (D : list Matrix) (M N : nat) :
  M < nshell (primary_ c) -> N < nshell (primary_ c) ->
  mget (Dshell c D) M N = Dshell_entry c D M N.
Proof.
  intros HM HN. unfold Dshell, mget, vget. cbv zeta.
  rewrite lookup_map, lookup_seq_lt by exact HM.
  cbn [fmap option_fmap option_map from_option id].
  rewrite lookup_map, lookup_seq_lt by exact HN. reflexivity.
Qed.

End ForwardContraction.

Section ForwardCounterexample.

Import Notions.
Import Num Mints DirectDFJ Example.

(** C2, as the specification words it, fails: with tolerance [2^-40], density
    shell maximum [2^-30] and Schwarz bound [2^-30] on the shell pair [(1, 0)]
    and metric bound [1], the product of the three bounds is [2^-60], not below
    the squared tolerance [2^-80], and yet the code skips the triplet, its test
    value being [2^-90]. *)
Lemma forward_triplet_spec_test_differs :
  let D := [small_offdiagonal] in
  let thresh2 := (0x1p-40 * 0x1p-40)%float in
  let diag := J_metric_shell_diag system [[1%float]] in
  let GT := [[vzero 1]] in
  triplet_of system 1 = (0, 1, 0)%nat
  /\ spec_skip_triplet1 system (Dshell system D) diag thresh2 0 1 0 = false
  /\ skip_triplet1 system (Dshell system D) diag thresh2 0 1 0 = true
  /\ forward_triplet system D (Dshell system D) diag thresh2 (GT, 0%nat) 1 = (GT, 0%nat).
Proof. vm_compute. repeat split. Qed.

End ForwardCounterexample.

Section SetupWitnesses.

Import Notions.
Import StdString JK Example.
Local Open Scope string_scope.

Lemma derive_jk_types_split_example :
  (no_plus "DFDIRJ" /\ StdString.length ("DFDIRJ" ++ "+" ++ "LINK") < npos)
  /\ derive_jk_types "DFDIRJ+LINK" = Ok ("DFDIRJ", "LINK").
Proof.
  split.
  - split; [apply plus_free_no_plus; reflexivity | reflexivity].
  - apply (derive_jk_types_splits_at_first_plus "DFDIRJ" "LINK").
    + apply plus_free_no_plus. reflexivity.
    + reflexivity.
Defined.

Lemma derive_jk_types_bare_example :
  (no_plus "DFDIRJ" /\ StdString.length "DFDIRJ" < npos)
  /\ find "DFDIRJ" "+" = npos
  /\ size_t_wrap (find "DFDIRJ" "+" + 1) = 0
  /\ substr "DFDIRJ" 0 (find "DFDIRJ" "+") = Ok "DFDIRJ"
  /\ substr "DFDIRJ" (size_t_wrap (find "DFDIRJ" "+" + 1)) (StdString.length "DFDIRJ")
     = Ok "DFDIRJ"
  /\ derive_jk_types "DFDIRJ" = Ok ("DFDIRJ", "NONE").
Proof.
  split.
  - split; [apply plus_free_no_plus; reflexivity | reflexivity].
  - apply (derive_jk_types_without_plus "DFDIRJ").
    + apply plus_free_no_plus. reflexivity.
    + reflexivity.
Defined.

Lemma common_init_example :
  StdString.length (SCF_TYPE (options "DFDIRJ+FOO")) < npos
  /\ exists j k : string,
      derive_jk_types (SCF_TYPE (options "DFDIRJ+FOO")) = Ok (j, k)
      /\ (throws (common_init system (options "DFDIRJ+FOO") base_object)
          <-> INCFOCK_FULL_FOCK_EVERY (options "DFDIRJ+FOO") <= 0
              \/ j <> "DFDIRJ"
              \/ (k <> "LINK" /\ k <> "COSX" /\ k <> "NONE"))
      /\ (common_init system (options "DFDIRJ+FOO") base_object
            = Throw "Invalid input for option INCFOCK_FULL_FOCK_EVERY (<= 0)"
          <-> INCFOCK_FULL_FOCK_EVERY (options "DFDIRJ+FOO") <= 0)
      /\ (common_init system (options "DFDIRJ+FOO") base_object
            = Throw "Invalid Composite J algorithm selected!"
          <-> 0 < INCFOCK_FULL_FOCK_EVERY (options "DFDIRJ+FOO") /\ j <> "DFDIRJ")
      /\ (common_init system (options "DFDIRJ+FOO") base_object
            = Throw "Invalid Composite K algorithm selected!"
          <-> 0 < INCFOCK_FULL_FOCK_EVERY (options "DFDIRJ+FOO") /\ j = "DFDIRJ"
              /\ k <> "LINK" /\ k <> "COSX" /\ k <> "NONE").
Proof.
  split.
  - reflexivity.
  - apply (common_init_throws_exactly system (options "DFDIRJ+FOO") base_object).
    reflexivity.
Defined.

(** The three errors of [common_init] and a setup that succeeds, run. *)
Example common_init_runs :
  common_init system (options "DFDIRJ+FOO") base_object
    = Throw "Invalid Composite K algorithm selected!"
  /\ common_init system (options "LINK") base_object
    = Throw "Invalid Composite J algorithm selected!"
  /\ j_type_ <$> (match common_init system (options "DFDIRJ+COSX") base_object with
                  | Ok o => Some o | Throw _ => None end) = Some "DFDIRJ"
  /\ k_type_ <$> (match common_init system (options "DFDIRJ") base_object with
                  | Ok o => Some o | Throw _ => None end) = Some "NONE".
Proof. vm_compute. repeat split. Qed.

End SetupWitnesses.

(** ** The incremental Fock controller *)

Section IncFock.

Import Notions.
Import Num Mints JK.
Local Open Scope nat_scope.
Local Open Scope list_scope.

Lemma mzero_out_idem (m : Matrix) : mzero_out (mzero_out m) = mzero_out m.
Proof.
  unfold mzero_out. rewrite map_map. apply map_ext. intros row.
  rewrite map_map. reflexivity.
Qed.

(** What [zero()] does to the store: the J and K matrices are zeroed, every
    other matrix is left alone. *)
Lemma fold_alter_lookup (f : Matrix -> Matrix) (ls : list loc)
    (σ : gmap loc Matrix) (l : loc) :
  (forall m, f (f m) = f m) ->
  fold_left (fun σ l => alter f l σ) ls σ !! l
  = if decide (l ∈ ls) then f <$> σ !! l else σ !! l.
Proof.
  intros Hf. revert σ. induction ls as [|a ls IH]; intros σ.
  - cbn. destruct (decide (l ∈ [])) as [H|_]; [|reflexivity].
    now apply not_elem_of_nil in H.
  - cbn [fold_left]. rewrite IH.
    destruct (decide (l = a)) as [->|Hne].
    + rewrite lookup_alter_eq.
      destruct (decide (a ∈ a :: ls)) as [_|Hn]; [|exfalso; apply Hn; left].
      destruct (decide (a ∈ ls)); [|reflexivity].
      destruct (σ !! a); cbn; rewrite ?Hf; reflexivity.
    + rewrite lookup_alter_ne by congruence.
      destruct (decide (l ∈ ls)) as [Hin|Hnin], (decide (l ∈ a :: ls)) as [Hin'|Hnin'];
        try reflexivity.
      * exfalso. apply Hnin'. now right.
      * exfalso. apply elem_of_cons in Hin' as [?|?]; [congruence | contradiction].
Qed.

Lemma zero_store (this : CompositeJK) (l : loc) :
  store (zero this) !! l
  = if decide (l ∈ J_ao_ this ++ K_ao_ this)
    then mzero_out <$> store this !! l else store this !! l.
Proof. unfold zero. cbn [store set_store]. apply fold_alter_lookup, mzero_out_idem. Qed.

(** One pass of the loop of the incremental branch. *)
Lemma delta_density_spec (this : CompositeJK) (jki : nat) (a p : loc) :
  D_ao_ this !! jki = Some a -> D_prev_ this !! jki = Some p ->
  a ∈ dom (store this) -> p ∈ dom (store this) ->
  let l := fresh (dom (store this)) in
  delta_density this jki
  = set_store (<[l := msubtract (read (store this) a) (read (store this) p)]> (store this))
      (set_D_ref_ (<[jki := l]> (D_ref_ this)) this).
Proof.
  intros Ha Hp Hadom Hpdom l. unfold delta_density, clone. rewrite Ha.
  cbn [from_option id store set_store set_D_ref_ D_prev_ D_ref_].
  rewrite Hp. cbn [from_option id]. fold l.
  assert (Hl : l ∉ dom (store this)) by apply is_fresh.
  assert (p <> l) by (intros ->; contradiction).
  rewrite alter_insert_eq.
  replace (read (<[l:=read (store this) a]> (store this)) p) with (read (store this) p).
  - reflexivity.
  - unfold read. now rewrite lookup_insert_ne by congruence.
Qed.

Lemma delta_loop (this : CompositeJK) (n : nat) :
  n <= length (D_ao_ this) ->
  length (D_prev_ this) = length (D_ao_ this) ->
  length (D_ref_ this) = length (D_ao_ this) ->
  (forall a, a ∈ D_ao_ this -> a ∈ dom (store this)) ->
  (forall p, p ∈ D_prev_ this -> p ∈ dom (store this)) ->
  delta_loop_inv this (fold_left delta_density (seq 0 n) this) n.
Proof.
  intros Hn Hprev Href Hao Hpv. induction n as [|n IH].
  - cbn. unfold delta_loop_inv. repeat split; try reflexivity.
    + now destruct this.
    + intros j a p Hj. lia.
  - rewrite seq_S, fold_left_app. cbn [fold_left Nat.add].
    specialize (IH ltac:(lia)).
    set (t := fold_left delta_density (seq 0 n) this) in *.
    destruct IH as (Hframe & Hlen & Hsame & Hdone & Hrest).
    assert (HDao : D_ao_ t = D_ao_ this) by (rewrite Hframe; reflexivity).
    assert (HDprev : D_prev_ t = D_prev_ this) by (rewrite Hframe; reflexivity).
    destruct (lookup_lt_is_Some_2 (D_ao_ this) n ltac:(lia)) as [a Ha].
    destruct (lookup_lt_is_Some_2 (D_prev_ this) n ltac:(lia)) as [p Hp].
    assert (Hadom : a ∈ dom (store this)) by (eapply Hao, list_elem_of_lookup_2, Ha).
    assert (Hpdom : p ∈ dom (store this)) by (eapply Hpv, list_elem_of_lookup_2, Hp).
    assert (Hsub : forall l, l ∈ dom (store this) -> l ∈ dom (store t)).
    { intros l Hl. apply elem_of_dom. rewrite (Hsame l Hl). now apply elem_of_dom. }
    assert (Hra : read (store t) a = read (store this) a)
      by (unfold read; now rewrite Hsame).
    assert (Hrp : read (store t) p = read (store this) p)
      by (unfold read; now rewrite Hsame).
    rewrite (delta_density_spec t n a p) by (rewrite ?HDao, ?HDprev; auto).
    cbv zeta. set (l := fresh (dom (store t))).
    assert (Hl : l ∉ dom (store t)) by apply is_fresh.
    assert (Hl0 : l ∉ dom (store this)) by (intros H; apply Hl, Hsub, H).
    rewrite Hra, Hrp.
    unfold delta_loop_inv. cbn [store set_store D_ref_ set_D_ref_].
    split; [|split; [|split; [|split]]].
    + rewrite Hframe at 3. reflexivity.
    + now rewrite length_insert.
    + intros l' Hl'. rewrite lookup_insert_ne; [now apply Hsame|].
      intros ->. contradiction.
    + intros j a' p' Hj Ha' Hp'.
      destruct (decide (j = n)) as [->|Hjn].
      * exists l. rewrite list_lookup_insert_eq by lia.
        rewrite lookup_insert_eq. rewrite Ha in Ha'. rewrite Hp in Hp'.
        injection Ha' as <-. injection Hp' as <-. auto.
      * destruct (Hdone j a' p' ltac:(lia) Ha' Hp') as (l' & Hl1 & Hl2 & Hl3).
        exists l'. rewrite list_lookup_insert_ne by congruence.
        split; [exact Hl1|]. split; [exact Hl2|].
        rewrite lookup_insert_ne; [exact Hl3|].
        intros <-. apply Hl. apply elem_of_dom. now rewrite Hl3.
    + intros j Hj. rewrite list_lookup_insert_ne by lia. apply Hrest. lia.
Qed.

Lemma read_all_ext (σ σ' : gmap loc Matrix) (ls : list loc) :
  (forall l, l ∈ ls -> σ' !! l = σ !! l) -> read_all σ' ls = read_all σ ls.
Proof.
  intros H. unfold read_all. apply map_ext_in. intros l Hl.
  unfold read. rewrite H; [reflexivity|]. now apply list_elem_of_In.
Qed.

Lemma push_clone_loop (ds : list loc) (t0 : CompositeJK) :
  let t := fold_left push_clone ds t0 in
  t = set_store (store t) (set_D_prev_ (D_prev_ t) t0)
  /\ exists news : list loc,
      D_prev_ t = D_prev_ t0 ++ news
      /\ length news = length ds
      /\ NoDup news
      /\ (forall l, l ∈ news -> l ∉ dom (store t0))
      /\ (forall l, l ∈ news -> l ∈ dom (store t))
      /\ (forall l, l ∈ dom (store t0) -> store t !! l = store t0 !! l)
      /\ ((forall a, a ∈ ds -> a ∈ dom (store t0)) ->
          read_all (store t) news = read_all (store t0) ds).
Proof.
  revert t0. induction ds as [|d ds IH]; intros t0; cbv zeta.
  - cbn [fold_left]. split; [now destruct t0|].
    exists []. rewrite app_nil_r. repeat split; auto using NoDup_nil_2.
    + intros l Hl. now apply not_elem_of_nil in Hl.
    + intros l Hl. now apply not_elem_of_nil in Hl.
  - cbn [fold_left].
    set (l := fresh (dom (store t0))).
    assert (Ht1 : push_clone t0 d
                  = set_store (<[l := read (store t0) d]> (store t0))
                      (set_D_prev_ (D_prev_ t0 ++ [l]) t0)) by reflexivity.
    assert (Hl : l ∉ dom (store t0)) by apply is_fresh.
    specialize (IH (push_clone t0 d)). cbv zeta in IH.
    set (t := fold_left push_clone ds (push_clone t0 d)) in *.
    destruct IH as (Hframe & news & Hprev & Hlen & Hnd & Hfresh & Halloc & Hsame & Hread).
    rewrite Ht1 in Hframe, Hprev, Hfresh, Hsame, Hread.
    cbn [store set_store D_prev_ set_D_prev_] in Hframe, Hprev, Hfresh, Hsame, Hread.
    assert (Hsub : forall x, x ∈ dom (store t0) ->
                             x ∈ dom (<[l := read (store t0) d]> (store t0))).
    { intros x Hx. rewrite dom_insert. apply elem_of_union. now right. }
    assert (Hl1 : l ∈ dom (<[l := read (store t0) d]> (store t0))).
    { rewrite dom_insert. apply elem_of_union. left. now apply elem_of_singleton. }
    split; [exact Hframe|].
    exists (l :: news). split; [|split; [|split; [|split; [|split; [|split]]]]].
    + rewrite Hprev, <- app_assoc. reflexivity.
    + cbn. now rewrite Hlen.
    + apply NoDup_cons. split; [|exact Hnd].
      intros Hin. now apply (Hfresh l Hin).
    + intros x Hx. apply elem_of_cons in Hx as [->|Hx]; [exact Hl|].
      intros Hd. apply (Hfresh x Hx), Hsub, Hd.
    + intros x Hx. apply elem_of_cons in Hx as [->|Hx]; [|now apply Halloc].
      apply elem_of_dom. rewrite (Hsame l Hl1), lookup_insert_eq. eauto.
    + intros x Hx. rewrite (Hsame x (Hsub x Hx)).
      apply lookup_insert_ne. intros <-. contradiction.
    + intros Hds. cbn [read_all map]. f_equal.
      * unfold read. rewrite (Hsame l Hl1), lookup_insert_eq. reflexivity.
      * fold (read_all (store t) news). fold (read_all (store t0) ds).
        rewrite Hread.
        -- apply read_all_ext. intros x Hx. apply lookup_insert_ne.
           intros <-. apply Hl, Hds. now right.
        -- intros a Ha. apply Hsub, Hds. now right.
Qed.

Lemma write_all_other (ls : list loc) (ms : list Matrix) (σ : gmap loc Matrix) (l : loc) :
  l ∉ ls -> write_all ls ms σ !! l = σ !! l.
Proof.
  unfold write_all. revert ms σ. induction ls as [|a ls IH]; intros ms σ Hl.
  - reflexivity.
  - destruct ms as [|m ms]; [reflexivity|]. cbn [zip zip_with fold_left fst snd].
    rewrite IH.
    + apply lookup_insert_ne. intros ->. apply Hl. left.
    + intros H. apply Hl. now right.
Qed.

Lemma build_matrices_frame (c : Collaborators) (options_ : Options)
    (this t : CompositeJK) :
  build_matrices c options_ this = Ok t -> builders_frame this t.
Proof.
  unfold build_matrices, builders_frame.
  set (this1 := if density_screening_ this then _ else this).
  assert (H1 : builders_frame this this1 /\ do_J_ this1 = do_J_ this
               /\ do_K_ this1 = do_K_ this).
  { unfold this1, builders_frame. destruct (density_screening_ this); cbn; tauto. }
  destruct H1 as (H1 & HJ1 & HK1).
  set (this2 := if do_J_ this1 then _ else this1).
  assert (H2 : builders_frame this this2 /\ do_K_ this2 = do_K_ this).
  { unfold this2. destruct (do_J_ this1); [|tauto].
    destruct (decide (j_type_ this1 = "DFDIRJ")) as [_|_]; [|tauto].
    destruct (DirectDFJ.build_DirectDFJ _ _ _ _ _ _) as [J n].
    unfold builders_frame in *. cbn.
    destruct H1 as (? & ? & ? & HJa & HKa & ? & ? & ? & ? & Hst).
    repeat split; try assumption.
    intros l Hl. rewrite write_all_other; [now apply Hst|].
    rewrite HJa. intros Hin. apply Hl. apply elem_of_app. now left. }
  destruct H2 as (H2 & HK2). clearbody this2. clear this1 H1 HJ1 HK1.
  unfold builders_frame in H2.
  destruct H2 as (? & ? & ? & HJa & HKa & ? & ? & ? & ? & Hst).
  destruct (do_K_ this2).
  2:{ intros [= <-]. repeat split; assumption. }
  destruct (decide (k_type_ this2 = "LINK")) as [_|_].
  { destruct (LinK.build_linK _ _ _ _ _ _ _ _) as [[K n]|]; cbn; [|discriminate].
    intros [= <-]. cbn. repeat split; try assumption.
    intros l Hl. rewrite write_all_other; [now apply Hst|].
    rewrite HKa. intros Hin. apply Hl. apply elem_of_app. now right. }
  destruct (decide (k_type_ this2 = "COSX")) as [_|_].
  { destruct (COSK.build_COSK _ _ _ _ _) as [K n]. cbn.
    intros [= <-]. cbn. repeat split; try assumption.
    intros l Hl. rewrite write_all_other; [now apply Hst|].
    rewrite HKa. intros Hin. apply Hl. apply elem_of_app. now right. }
  intros [= <-]. repeat split; assumption.
Qed.

Lemma incfock_decide_frame (options_ : Options) (Dnorm : float) (this : CompositeJK) :
  let t := incfock_decide options_ Dnorm this in
  D_ao_ t = D_ao_ this /\ D_prev_ t = D_prev_ this /\ D_ref_ t = D_ref_ this
  /\ J_ao_ t = J_ao_ this /\ K_ao_ t = K_ao_ this /\ store t = store this
  /\ incfock_ t = incfock_ this /\ initial_iteration_ t = initial_iteration_ this
  /\ do_incfock_iter_ t
     = (fge Dnorm (INCFOCK_CONVERGENCE options_) && negb (initial_iteration_ this)
        && negb (bool_decide (Z.rem (incfock_count_ this) (INCFOCK_FULL_FOCK_EVERY options_)
                              = (INCFOCK_FULL_FOCK_EVERY options_ - 1)%Z)))
  /\ incfock_count_ t
     = if negb (initial_iteration_ this) && fge Dnorm (INCFOCK_CONVERGENCE options_)
       then (incfock_count_ this + 1)%Z else incfock_count_ this.
Proof.
  unfold incfock_decide. cbn [initial_iteration_ set_do_incfock_iter_ incfock_count_].
  destruct (negb (initial_iteration_ this) && fge Dnorm (INCFOCK_CONVERGENCE options_));
    cbn; repeat split.
Qed.

(** The branch taken, in terms of the object before the iteration. *)
Lemma chosen_iteration_incremental (options_ : Options) (Dnorm : float)
    (this : CompositeJK) :
  incfock_ this = true ->
  (chosen_iteration options_ Dnorm this = Incremental
   <-> initial_iteration_ this = false
       /\ length (D_prev_ this) = length (D_ao_ this)
       /\ fge Dnorm (INCFOCK_CONVERGENCE options_) = true
       /\ Z.rem (incfock_count_ this) (INCFOCK_FULL_FOCK_EVERY options_)
          <> (INCFOCK_FULL_FOCK_EVERY options_ - 1)%Z).
Proof.
  intros Hinc. unfold chosen_iteration, iteration_kind. rewrite Hinc.
  destruct (incfock_decide_frame options_ Dnorm this)
    as (-> & -> & _ & _ & _ & _ & _ & -> & -> & _).
  destruct (fge Dnorm (INCFOCK_CONVERGENCE options_)); cbn [andb].
  2:{ split; [discriminate | intros (_ & _ & ? & _); discriminate]. }
  destruct (initial_iteration_ this); cbn [andb negb orb].
  { split; [discriminate | intros (? & _); discriminate]. }
  destruct (bool_decide_reflect
              (Z.rem (incfock_count_ this) (INCFOCK_FULL_FOCK_EVERY options_)
               = (INCFOCK_FULL_FOCK_EVERY options_ - 1)%Z)) as [Hr|Hr]; cbn [negb].
  { split; [discriminate | intros (_ & _ & _ & ?); contradiction]. }
  destruct (bool_decide_reflect (length (D_prev_ this) = length (D_ao_ this))) as [Hl|Hl];
    cbn [negb].
  - split; auto.
  - split; [discriminate | intros (_ & ? & _); contradiction].
Qed.

(** A full iteration: the reference density is the current density (the same
    matrices) and the J and K matrices are zeroed. *)
Lemma full_iteration_effects (options_ : Options) (Dnorm : float) (this : CompositeJK) :
  chosen_iteration options_ Dnorm this = Full ->
  let after := incfock_preprocessing options_ Dnorm this in
  D_ref_ after = D_ao_ this
  /\ (forall l, store after !! l
               = if decide (l ∈ J_ao_ this ++ K_ao_ this)
                 then mzero_out <$> store this !! l else store this !! l).
Proof.
  unfold chosen_iteration, incfock_preprocessing, iteration_kind, incfock_setup.
  destruct (incfock_ this).
  2:{ intros _. cbv zeta. split; [reflexivity|]. intros l. now rewrite zero_store. }
  destruct (incfock_decide_frame options_ Dnorm this)
    as (HD & HP & _ & HJ & HK & HS & _ & HI & _ & _).
  destruct (do_incfock_iter_ (incfock_decide options_ Dnorm this)).
  - rewrite HD, HP.
    destruct (initial_iteration_ (incfock_decide options_ Dnorm this)
              || negb (bool_decide (length (D_prev_ this) = length (D_ao_ this))));
      [|discriminate].
    intros _. cbv zeta. split; [reflexivity|].
    intros l. rewrite zero_store. cbn. now rewrite HJ, HK, HS.
  - intros _. cbv zeta. split; [cbn; now rewrite HD|].
    intros l. rewrite zero_store. cbn. now rewrite HJ, HK, HS.
Qed.

(** An incremental iteration: every existing matrix is left as it was (the J
    and K matrices are not zeroed) and the reference density of each channel is
    a new matrix holding current minus previous. *)
Lemma incremental_iteration_effects (options_ : Options) (Dnorm : float)
    (this : CompositeJK) :
  chosen_iteration options_ Dnorm this = Incremental ->
  length (D_ref_ this) = length (D_ao_ this) ->
  (forall a, a ∈ D_ao_ this -> a ∈ dom (store this)) ->
  (forall p, p ∈ D_prev_ this -> p ∈ dom (store this)) ->
  let after := incfock_preprocessing options_ Dnorm this in
  length (D_ref_ after) = length (D_ao_ this)
  /\ (forall l, l ∈ dom (store this) -> store after !! l = store this !! l)
  /\ (forall j a p,
        D_ao_ this !! j = Some a -> D_prev_ this !! j = Some p ->
        exists l, D_ref_ after !! j = Some l /\ (l ∉ dom (store this))
                  /\ store after !! l
                     = Some (msubtract (read (store this) a) (read (store this) p))).
Proof.
  unfold chosen_iteration, incfock_preprocessing, iteration_kind, incfock_setup.
  destruct (incfock_ this); [|discriminate].
  destruct (incfock_decide_frame options_ Dnorm this)
    as (HD & HP & HR & HJ & HK & HS & _ & HI & _ & _).
  set (t := incfock_decide options_ Dnorm this) in *.
  destruct (do_incfock_iter_ t); [|discriminate].
  rewrite HD, HP.
  destruct (initial_iteration_ t); [discriminate|]. cbn [orb].
  destruct (bool_decide_reflect (length (D_prev_ this) = length (D_ao_ this))) as [Hl|Hl];
    [|discriminate].
  cbn [negb]. intros _ Href Hao Hpv. cbv zeta.
  destruct (delta_loop t (length (D_ao_ this))) as (Hframe & Hlen & Hsame & Hdone & _);
    rewrite ?HD, ?HP, ?HR, ?HS; auto.
  rewrite HD, HP, HR, HS in *.
  split; [congruence|]. split; [exact Hsame|].
  intros j a p Ha Hp. apply Hdone; auto.
  apply lookup_lt_Some in Ha. exact Ha.
Qed.

(** C1, as the code has it: with incremental Fock enabled, the iteration is
    incremental exactly when it is not the first one, the previous-density
    cache has as many channels as the current density list, SCF D NORM is at or
    above INCFOCK_CONVERGENCE, and the running count of such iterations
    (never restarted by a full build) leaves a remainder other than [reset - 1]
    when divided by the reset cadence [reset]. Otherwise the iteration is full:
    the reference density is the current density and the J and K matrices are
    zeroed. On an incremental iteration nothing is zeroed and the reference
    density is current minus previous. *)
Theorem incfock_iteration_choice (options_ : Options) (Dnorm : float)
    (this : CompositeJK) :
  incfock_ this = true ->
  let after := incfock_preprocessing options_ Dnorm this in
  (chosen_iteration options_ Dnorm this = Incremental
   <-> initial_iteration_ this = false
       /\ length (D_prev_ this) = length (D_ao_ this)
       /\ fge Dnorm (INCFOCK_CONVERGENCE options_) = true
       /\ Z.rem (incfock_count_ this) (INCFOCK_FULL_FOCK_EVERY options_)
          <> (INCFOCK_FULL_FOCK_EVERY options_ - 1)%Z)
  /\ (chosen_iteration options_ Dnorm this = Full ->
      D_ref_ after = D_ao_ this
      /\ (forall l, store after !! l
                   = if decide (l ∈ J_ao_ this ++ K_ao_ this)
                     then mzero_out <$> store this !! l else store this !! l))
  /\ (chosen_iteration options_ Dnorm this = Incremental ->
      length (D_ref_ this) = length (D_ao_ this) ->
      (forall a, a ∈ D_ao_ this -> a ∈ dom (store this)) ->
      (forall p, p ∈ D_prev_ this -> p ∈ dom (store this)) ->
      length (D_ref_ after) = length (D_ao_ this)
      /\ (forall l, l ∈ dom (store this) -> store after !! l = store this !! l)
      /\ (forall j a p,
            D_ao_ this !! j = Some a -> D_prev_ this !! j = Some p ->
            exists l, D_ref_ after !! j = Some l /\ (l ∉ dom (store this))
                      /\ store after !! l
                         = Some (msubtract (read (store this) a) (read (store this) p)))).
Proof.
  intros Hinc after. split; [|split].
  - now apply chosen_iteration_incremental.
  - apply full_iteration_effects.
  - apply incremental_iteration_effects.
Qed.

Lemma delta_density_frame (t : CompositeJK) (j : nat) :
  statics (delta_density t j) = statics t
  /\ (forall x, x ∈ dom (store t) -> store (delta_density t j) !! x = store t !! x).
Proof.
  unfold delta_density, clone. cbn [store set_store set_D_ref_ D_prev_].
  split; [reflexivity|].
  intros x Hx. set (l := fresh (dom (store t))).
  assert (Hl : l ∉ dom (store t)) by apply is_fresh.
  assert (x <> l) by (intros ->; contradiction).
  rewrite lookup_alter_ne by congruence. now rewrite lookup_insert_ne by congruence.
Qed.

Lemma delta_loop_frame (js : list nat) (t : CompositeJK) :
  statics (fold_left delta_density js t) = statics t
  /\ (forall x, x ∈ dom (store t) ->
                store (fold_left delta_density js t) !! x = store t !! x).
Proof.
  revert t. induction js as [|j js IH]; intros t; [split; reflexivity|].
  cbn [fold_left]. destruct (IH (delta_density t j)) as (Hs & Hst).
  destruct (delta_density_frame t j) as (Hs1 & Hst1).
  split; [congruence|].
  intros x Hx. rewrite Hst; [now apply Hst1|].
  apply elem_of_dom. rewrite Hst1 by exact Hx. now apply elem_of_dom.
Qed.

Lemma incfock_preprocessing_frame (options_ : Options) (Dnorm : float)
    (this : CompositeJK) :
  let after := incfock_preprocessing options_ Dnorm this in
  statics after = statics this
  /\ (forall x, x ∈ dom (store this) -> x ∉ J_ao_ this ++ K_ao_ this ->
                store after !! x = store this !! x).
Proof.
  cbv zeta. unfold incfock_preprocessing.
  destruct (incfock_ this) eqn:Hinc.
  2:{ split; [unfold statics; cbn; now rewrite Hinc|].
      intros x _ Hx. rewrite zero_store. cbn.
      destruct (decide (x ∈ J_ao_ this ++ K_ao_ this)); [contradiction | reflexivity]. }
  assert (Hd : statics (incfock_decide options_ Dnorm this) = statics this
               /\ store (incfock_decide options_ Dnorm this) = store this).
  { unfold incfock_decide.
    destruct (negb _ && fge Dnorm (INCFOCK_CONVERGENCE options_));
      split; unfold statics; cbn; now rewrite ?Hinc. }
  destruct Hd as (Hd & Hds). set (t := incfock_decide options_ Dnorm this) in *.
  assert (HJK : J_ao_ t ++ K_ao_ t = J_ao_ this ++ K_ao_ this).
  { unfold statics in Hd. now injection Hd as _ _ -> -> _ _ _ _ _ _ _. }
  unfold incfock_setup.
  destruct (do_incfock_iter_ t).
  - destruct (initial_iteration_ t || _).
    + split; [rewrite <- Hd; reflexivity|].
      intros x _ Hx. rewrite zero_store. cbn. rewrite HJK, Hds.
      destruct (decide (x ∈ J_ao_ this ++ K_ao_ this)); [contradiction | reflexivity].
    + destruct (delta_loop_frame (seq 0 (length (D_ao_ t))) t) as (Hs & Hst).
      split; [congruence|].
      intros x Hx _. rewrite Hst; [now rewrite Hds | now rewrite Hds].
  - split; [rewrite <- Hd; reflexivity|].
    intros x _ Hx. rewrite zero_store. cbn. rewrite HJK, Hds.
    destruct (decide (x ∈ J_ao_ this ++ K_ao_ this)); [contradiction | reflexivity].
Qed.

(** The builders return unless LinK is asked for a build that is not declared
    symmetric. *)
Lemma build_matrices_returns (c : Collaborators) (options_ : Options)
    (this : CompositeJK) :
  (do_K_ this = true -> k_type_ this = "LINK" -> lr_symmetric_ this = true) ->
  exists t, build_matrices c options_ this = Ok t.
Proof.
  intros Hsym. unfold build_matrices.
  set (this1 := if density_screening_ this then _ else this).
  assert (H1 : (do_K_ this1, k_type_ this1, lr_symmetric_ this1)
               = (do_K_ this, k_type_ this, lr_symmetric_ this)).
  { unfold this1. now destruct (density_screening_ this). }
  set (this2 := if do_J_ this1 then _ else this1).
  assert (H2 : (do_K_ this2, k_type_ this2, lr_symmetric_ this2)
               = (do_K_ this, k_type_ this, lr_symmetric_ this)).
  { unfold this2. destruct (do_J_ this1); [|exact H1].
    destruct (decide (j_type_ this1 = "DFDIRJ")) as [_|_]; [|exact H1].
    now destruct (DirectDFJ.build_DirectDFJ _ _ _ _ _ _). }
  clearbody this2. injection H2 as HK Hk Hl.
  destruct (do_K_ this2); [|eauto].
  destruct (decide (k_type_ this2 = "LINK")) as [Hlink|_].
  { unfold LinK.build_linK. rewrite Hl, Hsym by congruence. cbn. eauto. }
  destruct (decide (k_type_ this2 = "COSX")) as [_|_]; [|eauto].
  destruct (COSK.build_COSK _ _ _ _ _). eauto.
Qed.

(** C9: with incremental Fock enabled, an iteration that does not throw ends
    with the previous-density cache replaced by new matrices, one per channel,
    that hold the contents of the current densities, whatever kind the
    iteration had. Until then, through the setup and both builders, the cache
    is the list it was, and every matrix that existed and is neither a J nor a K
    holds what it held; [incfock_postiter] in turn changes no matrix that
    existed. *)
Theorem previous_density_cache (c : Collaborators) (options_ : Options)
    (Dnorm : float) (this : CompositeJK) :
  incfock_ this = true ->
  do_wK_ this = false ->
  (do_K_ this = true -> k_type_ this = "LINK" -> lr_symmetric_ this = true) ->
  exists built final : CompositeJK,
    compute_JK_built c options_ Dnorm this = Ok built
    /\ compute_JK c options_ Dnorm this = Ok final
    /\ D_prev_ built = D_prev_ this
    /\ D_ao_ built = D_ao_ this
    /\ (forall l, l ∈ dom (store this) -> l ∉ J_ao_ this ++ K_ao_ this ->
                  store built !! l = store this !! l)
    /\ length (D_prev_ final) = length (D_ao_ this)
    /\ NoDup (D_prev_ final)
    /\ (forall l, l ∈ D_prev_ final ->
                  (l ∉ dom (store built)) /\ l ∈ dom (store final))
    /\ (forall l, l ∈ dom (store built) -> store final !! l = store built !! l)
    /\ ((forall a, a ∈ D_ao_ this -> a ∈ dom (store built)) ->
        read_all (store final) (D_prev_ final) = read_all (store built) (D_ao_ this)).
Proof.
  intros Hinc HwK Hsym.
  destruct (incfock_preprocessing_frame options_ Dnorm this) as (Hs & Hst).
  set (pre := incfock_preprocessing options_ Dnorm this) in *.
  unfold statics in Hs.
  injection Hs as HDao HDprev HJ HK Hincf HdoJ HdoK HdowK Hj Hk Hlr.
  destruct (build_matrices_returns c options_ pre) as [built Hbuilt].
  { rewrite HdoK, Hk, Hlr. exact Hsym. }
  destruct (build_matrices_frame c options_ pre built Hbuilt)
    as (HDao' & HDprev' & _ & _ & _ & Hincf' & _ & _ & _ & Hst').
  assert (Hcb : compute_JK_built c options_ Dnorm this = Ok built).
  { unfold compute_JK_built. now rewrite HwK. }
  destruct (push_clone_loop (D_ao_ built) (set_D_prev_ [] built))
    as (Hframe & news & Hprev & Hlen & Hnd & Hfresh & Halloc & Hsame & Hread).
  cbn [D_prev_ set_D_prev_ store app] in Hprev, Hfresh, Hsame, Hread.
  fold (incfock_postiter built) in Hframe, Hprev, Halloc, Hsame, Hread.
  set (post := incfock_postiter built) in *.
  exists built,
    (if initial_iteration_ post then set_initial_iteration_ false post else post).
  assert (Hfin : forall t, D_prev_ (if initial_iteration_ t
                                    then set_initial_iteration_ false t else t)
                           = D_prev_ t
                           /\ store (if initial_iteration_ t
                                     then set_initial_iteration_ false t else t)
                              = store t).
  { intros t. now destruct (initial_iteration_ t). }
  destruct (Hfin post) as (-> & ->).
  split; [exact Hcb|]. split.
  { unfold compute_JK. rewrite Hcb. cbn [mbind result_bind mret result_ret].
    rewrite Hincf', Hincf, Hinc. reflexivity. }
  split; [congruence|]. split; [congruence|]. split.
  { intros l Hdom Hjk. rewrite Hst'; [now apply Hst|]. now rewrite HJ, HK. }
  rewrite Hprev. rewrite HDao', HDao in *.
  split; [exact Hlen|]. split; [exact Hnd|]. split; [|split; [exact Hsame | exact Hread]].
  intros l Hl. split; [now apply Hfresh | now apply Halloc].
Qed.

End IncFock.

Section IncFockExamples.

Import Notions.
Import Num Mints JK Example.
Local Open Scope nat_scope.
Local Open Scope list_scope.

(** C1, as the specification words it, fails. Reset cadence 3; the first
    iteration is full, the second incremental, the third full because SCF D NORM
    fell below the floor, the fourth incremental. At the fifth, one iteration
    has passed since the last full build and SCF D NORM is above the floor, yet
    the code builds in full: its counter, never restarted, stands at 2. *)
Lemma incfock_count_not_since_full :
  let opts := options "DFDIRJ+LINK" in
  let r := run system opts [1; 1; 0x1p-20; 1]%float configured in
  r.1 = [Full; Incremental; Full; Incremental]
  /\ incfock_ r.2 = true
  /\ iterations_since_full r.1 = 1
  /\ INCFOCK_FULL_FOCK_EVERY opts = 3%Z
  /\ spec_incremental opts 1%float r.1 r.2 = true
  /\ chosen_iteration opts 1%float r.2 = Full
  /\ incfock_count_ r.2 = 2%Z.
Proof. vm_compute. repeat split. Qed.

(** The cache is replaced after a full and after an incremental iteration
    alike: new locations each time, holding the current density. *)
Example cache_replaced_after_both_kinds :
  let opts := options "DFDIRJ+LINK" in
  let first := run system opts [1%float] configured in
  let second := run system opts [1; 1]%float configured in
  first.1 = [Full] /\ D_prev_ first.2 = [3]
  /\ second.1 = [Full; Incremental] /\ D_prev_ second.2 = [5]
  /\ read_all (store first.2) (D_prev_ first.2) = [small_offdiagonal]
  /\ read_all (store second.2) (D_prev_ second.2) = [small_offdiagonal].
Proof. vm_compute. repeat split. Qed.

End IncFockExamples.

(** ** The chain walks of LinK *)

Section ChainWalks.

Import Notions.
Import Num Mints LinK.
Local Open Scope nat_scope.
Local Open Scope list_scope.

Lemma scanned_stops {A} (ok : A -> bool) (pre : list A) (x : A) (post : list A) :
  Forall (fun y => ok y = true) pre -> ok x = false ->
  scanned ok (pre ++ x :: post) = pre ++ [x].
Proof.
  intros Hpre Hx. induction Hpre as [|y pre Hy _ IH]; cbn.
  - now rewrite Hx.
  - now rewrite Hy, IH.
Qed.

Lemma scanned_all {A} (ok : A -> bool) (l : list A) :
  Forall (fun y => ok y = true) l -> scanned ok l = l.
Proof.
  intros Hl. induction Hl as [|y l Hy _ IH]; cbn; [reflexivity|].
  now rewrite Hy, IH.
Qed.

Variables (c : Collaborators) (Dscreen : list Matrix) (cutoff : float).
Variables (nsh : nat) (bras_of : list (list nat)).
Variables (ch : chain) (P Q dP dQ : nat).

Local Abbreviation visit_bra := (Notions.visit_bra c Dscreen cutoff nsh ch P Q dP dQ).
Local Abbreviation ket_significant :=
  (Notions.ket_significant c Dscreen cutoff bras_of ch P Q).
Local Abbreviation visit_ket :=
  (Notions.visit_ket c Dscreen cutoff nsh bras_of ch P Q dP dQ).

Lemma walk_bras_scanned (R : nat) (bras : list nat) (sig : bool) (st : MLState) :
  walk_bras c Dscreen cutoff nsh ch P Q dP dQ R bras sig st
  = (sig || match bras with
            | S_ :: _ => passes_cutoff c Dscreen cutoff ch P Q R S_
            | [] => false
            end,
     fold_left (visit_bra R) (scanned (passes_cutoff c Dscreen cutoff ch P Q R) bras) st).
Proof.
  revert sig st. induction bras as [|S bras IH]; intros sig st.
  - cbn. now rewrite orb_false_r.
  - cbn [walk_bras scanned].
    assert (Hv : visit_bra R st S
                 = if passes_cutoff c Dscreen cutoff ch P Q R S
                   then keep_pair nsh ch P Q dP dQ R S (log_call P Q R S st)
                   else log_call P Q R S st) by reflexivity.
    destruct (passes_cutoff c Dscreen cutoff ch P Q R S) eqn:Hp.
    + rewrite IH. cbn [fold_left]. rewrite Hv. now rewrite orb_true_r.
    + cbn [fold_left]. rewrite Hv. now rewrite orb_false_r.
Qed.

Lemma keep_pair_calls (R S : nat) (st : MLState) :
  ceiling_calls (keep_pair nsh ch P Q dP dQ R S st) = ceiling_calls st.
Proof. unfold keep_pair. repeat case_decide; reflexivity. Qed.

Lemma visit_bra_calls (R : nat) (l : list nat) (st : MLState) :
  ceiling_calls (fold_left (visit_bra R) l st)
  = ceiling_calls st ++ map (fun S => (P, Q, R, S)) l.
Proof.
  revert st. induction l as [|S l IH]; intros st; cbn [fold_left map].
  - now rewrite app_nil_r.
  - rewrite IH. unfold Notions.visit_bra.
    destruct (passes_cutoff c Dscreen cutoff ch P Q R S);
      rewrite ?keep_pair_calls; cbn [ceiling_calls log_call];
      now rewrite <- app_assoc.
Qed.

Lemma walk_kets_scanned (kets : list nat) (st : MLState) :
  walk_kets c Dscreen cutoff nsh bras_of ch P Q dP dQ kets st
  = fold_left visit_ket (scanned ket_significant kets) st.
Proof.
  revert st. induction kets as [|R kets IH]; intros st; [reflexivity|].
  cbn [walk_kets scanned]. rewrite walk_bras_scanned.
  cbn [orb fst snd]. fold (ket_significant R).
  assert (Hv : visit_ket st R
               = fold_left (visit_bra R)
                   (scanned (passes_cutoff c Dscreen cutoff ch P Q R)
                      (default [] (bras_of !! R))) st).
  { unfold Notions.visit_ket. now rewrite walk_bras_scanned. }
  destruct (ket_significant R).
  - rewrite IH. cbn [fold_left]. now rewrite Hv.
  - cbn [fold_left]. now rewrite Hv.
Qed.

Lemma visit_ket_calls (kets : list nat) (st : MLState) :
  ceiling_calls (fold_left visit_ket kets st)
  = ceiling_calls st
    ++ flat_map (fun R =>
         map (fun S => (P, Q, R, S))
           (scanned (passes_cutoff c Dscreen cutoff ch P Q R) (default [] (bras_of !! R))))
         kets.
Proof.
  revert st. induction kets as [|R kets IH]; intros st; cbn [fold_left flat_map].
  - now rewrite app_nil_r.
  - rewrite IH.
    assert (Hv : ceiling_calls (visit_ket st R)
                 = ceiling_calls st
                   ++ map (fun S => (P, Q, R, S))
                        (scanned (passes_cutoff c Dscreen cutoff ch P Q R)
                           (default [] (bras_of !! R)))).
    { unfold Notions.visit_ket. rewrite walk_bras_scanned. cbn [snd]. apply visit_bra_calls. }
    rewrite Hv. now rewrite <- app_assoc.
Qed.

(** C3: each chain is scanned in order and left at the first candidate that
    fails. The inner walk over the bra list of a ket shell [R] handles the
    candidates up to and including the first [S] whose bound
    [shell_pair_max_density * sqrt(shell_ceiling2)] fails the test against the
    cutoff, asks the engine for the bound of these and no other, and comes out
    the same whatever follows that [S]. The outer walk handles the ket shells
    up to and including the first [R] for which no [S] passed, and comes out
    the same whatever follows that [R]. *)
Theorem chain_walk_stops_at_first_failure :
  (forall (R : nat) (bras : list nat) (sig : bool) (st : MLState),
      let r := walk_bras c Dscreen cutoff nsh ch P Q dP dQ R bras sig st in
      let looked := scanned (passes_cutoff c Dscreen cutoff ch P Q R) bras in
      r.2 = fold_left (visit_bra R) looked st
      /\ ceiling_calls r.2 = ceiling_calls st ++ map (fun S => (P, Q, R, S)) looked)
  /\ (forall (R : nat) (pre : list nat) (S : nat) (post : list nat)
         (sig : bool) (st : MLState),
      Forall (fun S' => passes_cutoff c Dscreen cutoff ch P Q R S' = true) pre ->
      passes_cutoff c Dscreen cutoff ch P Q R S = false ->
      scanned (passes_cutoff c Dscreen cutoff ch P Q R) (pre ++ S :: post) = pre ++ [S]
      /\ walk_bras c Dscreen cutoff nsh ch P Q dP dQ R (pre ++ S :: post) sig st
         = walk_bras c Dscreen cutoff nsh ch P Q dP dQ R (pre ++ [S]) sig st)
  /\ (forall (R : nat) (st : MLState),
      (walk_bras c Dscreen cutoff nsh ch P Q dP dQ R
         (default [] (bras_of !! R)) false st).1 = ket_significant R
      /\ (ket_significant R = false <->
          scanned (passes_cutoff c Dscreen cutoff ch P Q R) (default [] (bras_of !! R))
          = take 1 (default [] (bras_of !! R))
          /\ Forall (fun S' => passes_cutoff c Dscreen cutoff ch P Q R S' = false)
               (take 1 (default [] (bras_of !! R)))))
  /\ (forall (kets : list nat) (st : MLState),
      let looked := scanned ket_significant kets in
      walk_kets c Dscreen cutoff nsh bras_of ch P Q dP dQ kets st
      = fold_left visit_ket looked st
      /\ ceiling_calls (walk_kets c Dscreen cutoff nsh bras_of ch P Q dP dQ kets st)
         = ceiling_calls st
           ++ flat_map (fun R =>
                map (fun S => (P, Q, R, S))
                  (scanned (passes_cutoff c Dscreen cutoff ch P Q R)
                     (default [] (bras_of !! R))))
                looked)
  /\ (forall (pre : list nat) (R : nat) (post : list nat) (st : MLState),
      Forall (fun R' => ket_significant R' = true) pre ->
      ket_significant R = false ->
      scanned ket_significant (pre ++ R :: post) = pre ++ [R]
      /\ walk_kets c Dscreen cutoff nsh bras_of ch P Q dP dQ (pre ++ R :: post) st
         = walk_kets c Dscreen cutoff nsh bras_of ch P Q dP dQ (pre ++ [R]) st).
Proof.
  split; [|split; [|split; [|split]]].
  - intros R bras sig st r looked. unfold r, looked.
    rewrite walk_bras_scanned. cbn [snd]. split; [reflexivity|].
    apply visit_bra_calls.
  - intros R pre S post sig st Hpre HS.
    split; [now apply scanned_stops|].
    rewrite !walk_bras_scanned.
    rewrite (scanned_stops _ pre S post Hpre HS).
    rewrite (scanned_stops _ pre S [] Hpre HS).
    destruct pre; reflexivity.
  - intros R st. rewrite walk_bras_scanned. cbn [fst orb].
    unfold Notions.ket_significant. split; [reflexivity|].
    destruct (default [] (bras_of !! R)) as [|S bras]; cbn [scanned take].
    + split; [intros _; split; [reflexivity | constructor] | reflexivity].
    + destruct (passes_cutoff c Dscreen cutoff ch P Q R S) eqn:HS.
      * split; [discriminate|]. intros (_ & HF). inversion HF; subst. congruence.
      * split; [|reflexivity]. intros _. split; [reflexivity|].
        constructor; [exact HS | constructor].
  - intros kets st looked. unfold looked. rewrite walk_kets_scanned.
    split; [reflexivity | apply visit_ket_calls].
  - intros pre R post st Hpre HR.
    split; [now apply scanned_stops|].
    rewrite !walk_kets_scanned.
    rewrite (scanned_stops _ pre R post Hpre HR).
    now rewrite (scanned_stops _ pre R [] Hpre HR).
Qed.

End ChainWalks.

(** ** The degeneracy prefactor of LinK *)

Section Degeneracy.

Import Notions.
Import Num Mints LinK.
Local Open Scope nat_scope.
Local Open Scope list_scope.

Lemma prefactor_product (P Q R S : nat) :
  prefactor P Q R S
  = (half_if (bool_decide (P = Q)) * half_if (bool_decide (R = S))
     * half_if (bool_decide (P = R /\ Q = S)))%float.
Proof.
  unfold prefactor, half_if.
  destruct (decide (P = Q)) as [H1|H1], (decide (R = S)) as [H2|H2],
           (decide (P = R /\ Q = S)) as [H3|H3];
    rewrite ?(bool_decide_eq_true_2 _ H1), ?(bool_decide_eq_false_2 _ H1),
            ?(bool_decide_eq_true_2 _ H2), ?(bool_decide_eq_false_2 _ H2),
            ?(bool_decide_eq_true_2 _ H3), ?(bool_decide_eq_false_2 _ H3);
    reflexivity.
Qed.

Ltac eqb_norm :=
  repeat match goal with
    | |- context [?x =? ?x] => rewrite (Nat.eqb_refl x)
    | H : ?x <> ?y |- context [?x =? ?y] => rewrite (proj2 (Nat.eqb_neq x y) H)
    | H : ?x <> ?y |- context [?y =? ?x] =>
        rewrite (proj2 (Nat.eqb_neq y x) (not_eq_sym H))
    end.

Ltac decide_norm :=
  repeat match goal with
    | |- context [bool_decide ?X] =>
        first [ rewrite (bool_decide_eq_true_2 X) by (repeat split; congruence)
              | rewrite (bool_decide_eq_false_2 X) by (intros ?; intuition congruence) ]
    end.

(** Under the canonical order of the quartet loop ([Q <= P] and [S <= R]) the
    prefactor is the number of different index orders of the quartet, over
    eight: a quartet whose images coincide is weighted down by as much. *)
Lemma prefactor_counts_images (P Q R S : nat) :
  Q <= P -> S <= R ->
  (8 * prefactor P Q R S)%float = float_of_nat (distinct (images P Q R S)).
Proof.
  intros HQP HSR. rewrite prefactor_product. unfold images, distinct, existsb, same_quartet.
  destruct (decide (P = Q)) as [HPQ|HPQ];
    destruct (decide (R = S)) as [HRS|HRS];
    destruct (decide (P = R)) as [HPR|HPR];
    destruct (decide (Q = S)) as [HQS|HQS];
    destruct (decide (P = S)) as [HPS|HPS];
    destruct (decide (Q = R)) as [HQR|HQR];
    try lia; subst;
    eqb_norm; decide_norm; reflexivity.
Qed.

(** C4: the contribution of a quartet [(P, Q, R, S)] to each of the four
    sub-blocks PR, PS, QR and QS of the task buffer carries the prefactor
    one-half if [P = Q], times one-half if [R = S], times one-half if [P = R]
    and [Q = S], each factor being one otherwise. In the canonical order of the
    loop this is the number of different index orders of the quartet over
    eight, so that images that coincide are not counted twice. *)
Theorem quartet_degeneracy_prefactor (P Q R S : nat) :
  prefactor P Q R S
  = (half_if (bool_decide (P = Q)) * half_if (bool_decide (R = S))
     * half_if (bool_decide (P = R /\ Q = S)))%float
  /\ (forall (f : QuartetFrame) (np nq nr ns : nat) (Dp : Matrix)
         (buffer : list float) (KTp : Vector),
      contract_quartet f np nq nr ns P Q R S Dp buffer KTp
      = (fold_left
           (fun (st : Vector * nat) (pqrs : nat * nat * nat * nat) =>
              (scatter f
                 (half_if (bool_decide (P = Q)) * half_if (bool_decide (R = S))
                  * half_if (bool_decide (P = R /\ Q = S)))%float
                 Dp (vget buffer st.2) pqrs.1.1.1 pqrs.1.1.2 pqrs.1.2 pqrs.2 st.1,
               Datatypes.S st.2))
           (loop_pqrs np nq nr ns) (KTp, 0)).1)
  /\ (forall (f : QuartetFrame) (pf : float) (Dp : Matrix) (b : float)
         (p q r s : nat) (KTp : Vector),
      scatter f pf Dp b p q r s KTp
      = vadd_at
          (vadd_at
             (vadd_at
                (vadd_at KTp
                   (qf_K1p f + ((p + shell_P_offset f) * qf_nbf f + r + shell_R_start f))
                   (pf * mget Dp (q + shell_Q_start f) (s + shell_S_start f) * b)%float)
                (qf_K2p f + ((p + shell_P_offset f) * qf_nbf f + s + shell_S_start f))
                (pf * mget Dp (q + shell_Q_start f) (r + shell_R_start f) * b)%float)
             (qf_K3p f + ((q + shell_Q_offset f) * qf_nbf f + r + shell_R_start f))
             (pf * mget Dp (p + shell_P_start f) (s + shell_S_start f) * b)%float)
          (qf_K4p f + ((q + shell_Q_offset f) * qf_nbf f + s + shell_S_start f))
          (pf * mget Dp (p + shell_P_start f) (r + shell_R_start f) * b)%float)
  /\ (Q <= P -> S <= R ->
      (8 * prefactor P Q R S)%float = float_of_nat (distinct (images P Q R S))).
Proof.
  split; [apply prefactor_product|]. split; [|split].
  - intros f np nq nr ns Dp buffer KTp. unfold contract_quartet.
    rewrite prefactor_product. f_equal. apply fold_left_ext_in.
    intros [[[p q] r] s] [KT index] _. reflexivity.
  - reflexivity.
  - apply prefactor_counts_images.
Qed.

(** The prefactor of every kind of quartet met in the canonical order. *)
Example prefactor_values :
  prefactor 3 2 1 0 = 1%float
  /\ prefactor 2 2 1 0 = 0.5%float
  /\ prefactor 3 2 1 1 = 0.5%float
  /\ prefactor 3 2 3 2 = 0.5%float
  /\ prefactor 2 2 1 1 = 0.25%float
  /\ prefactor 2 2 2 2 = 0.125%float.
Proof. vm_compute. repeat split. Qed.

End Degeneracy.

(** ** Symmetry of the outputs *)

Section Symmetry.

Import Notions.
Import Num Mints.
Local Open Scope nat_scope.
Local Open Scope list_scope.

Lemma fold_left_preserves {A B} (Pr : A -> Prop) (f : A -> B -> A) (l : list B) (a : A) :
  (forall acc x, Pr acc -> Pr (f acc x)) -> Pr a -> Pr (fold_left f l a).
Proof.
  intros Hf. revert a. induction l as [|x l IH]; intros a Ha; [exact Ha|].
  cbn. apply IH, Hf, Ha.
Qed.

Lemma vadd_at_length (v : Vector) (i : nat) (x : float) :
  length (vadd_at v i x) = length v.
Proof. unfold vadd_at. apply length_alter. Qed.

Lemma madd_at_square (n : nat) (m : Matrix) (i j : nat) (x : float) :
  square n m -> square n (madd_at m i j x).
Proof.
  intros [Hl Hr]. unfold madd_at. split; [now rewrite length_alter|].
  apply Forall_alter; [exact Hr|]. intros row _ Hrow. now rewrite vadd_at_length.
Qed.

Lemma madd_square (n : nat) (a b : Matrix) : square n a -> square n (madd a b).
Proof.
  intros [Hl Hr]. unfold madd. split; [now rewrite length_imap|].
  apply Forall_forall. intros row Hin.
  apply elem_of_lookup_imap in Hin as (i & row0 & -> & Hrow0).
  rewrite length_imap. rewrite Forall_forall in Hr. apply Hr.
  eapply list_elem_of_lookup_2, Hrow0.
Qed.

Lemma fold_madd_square (n : nat) (ms : list Matrix) (a : Matrix) :
  square n a -> square n (fold_left madd ms a).
Proof. apply fold_left_preserves. intros acc x. apply madd_square. Qed.

(** The buffers of the J builder: one list per channel. *)
Lemma forward_contraction_length (c : Collaborators) (nthreads_ : nat) (D : list Matrix)
    (Dsh : Matrix) (diag : Vector) (thresh2 : float) :
  length (DirectDFJ.forward_contraction c nthreads_ D Dsh diag thresh2).1 = length D.
Proof.
  unfold DirectDFJ.forward_contraction.
  apply (fold_left_preserves (fun st : list (list Vector) * nat => length st.1 = length D)).
  - intros [GT count] MNP Hlen. unfold DirectDFJ.forward_triplet.
    destruct (DirectDFJ.triplet_of c MNP) as [[P M] N].
    destruct (DirectDFJ.skip_triplet1 c Dsh diag thresh2 P M N); [exact Hlen|].
    cbn [fst] in *. now rewrite length_imap.
  - cbn [fst]. apply length_replicate.
Qed.

Lemma back_contraction_length (c : Collaborators) (nthreads_ : nat) (H : list Vector)
    (Hmax diag : Vector) (thresh2 : float) :
  length (DirectDFJ.back_contraction c nthreads_ H Hmax diag thresh2).1 = length H.
Proof.
  unfold DirectDFJ.back_contraction.
  apply (fold_left_preserves (fun st : list (list Matrix) * nat => length st.1 = length H)).
  - intros [JT count] MNP Hlen. unfold DirectDFJ.back_triplet.
    destruct (DirectDFJ.triplet_of c MNP) as [[P M] N].
    destruct (DirectDFJ.skip_triplet2 c Hmax diag thresh2 P M N); [exact Hlen|].
    cbn [fst] in *. now rewrite length_imap.
  - cbn [fst]. apply length_replicate.
Qed.

(** The J builder returns the closing loop run on one buffer list per channel. *)
Lemma build_DirectDFJ_reduce (c : Collaborators) (nthreads_ : nat) (J_metric_ : Matrix)
    (INTS_TOLERANCE : float) (D J : list Matrix) :
  exists JT : list (list Matrix),
    length JT = length D
    /\ (DirectDFJ.build_DirectDFJ c nthreads_ J_metric_ INTS_TOLERANCE D J).1
       = DirectDFJ.reduce_J c J JT.
Proof.
  unfold DirectDFJ.build_DirectDFJ.
  pose proof (forward_contraction_length c nthreads_ D (DirectDFJ.Dshell c D)
                (DirectDFJ.J_metric_shell_diag c J_metric_)
                (INTS_TOLERANCE * INTS_TOLERANCE)%float) as HG.
  destruct (DirectDFJ.forward_contraction _ _ _ _ _ _) as [GT c1]. cbn [fst] in HG.
  set (H := DirectDFJ.metric_solve c J_metric_ GT).
  pose proof (back_contraction_length c nthreads_ H (DirectDFJ.H_shell_max c H)
                (DirectDFJ.J_metric_shell_diag c J_metric_)
                (INTS_TOLERANCE * INTS_TOLERANCE)%float) as HJ.
  destruct (DirectDFJ.back_contraction _ _ _ _ _ _) as [JT c2]. cbn [fst] in HJ.
  exists JT. split; [|reflexivity].
  rewrite HJ. unfold H, DirectDFJ.metric_solve. now rewrite length_map.
Qed.

Lemma reduce_J_lookup (c : Collaborators) (J : list Matrix) (JT : list (list Matrix))
    (jki : nat) (Jin : Matrix) (JTjki : list Matrix) :
  J !! jki = Some Jin -> JT !! jki = Some JTjki ->
  DirectDFJ.reduce_J c J JT !! jki = Some (hermitivitize c (fold_left madd JTjki Jin)).
Proof.
  intros HJ HJT. unfold DirectDFJ.reduce_J.
  rewrite list_lookup_imap, HJ. cbn. now rewrite HJT.
Qed.

Lemma reduce_K_lookup (c : Collaborators) (lr_symmetric_ : bool) (K : list Matrix)
    (KT : list (list Matrix)) (jki : nat) (Kin : Matrix) (KTjki : list Matrix) :
  K !! jki = Some Kin -> KT !! jki = Some KTjki ->
  COSK.reduce_K c lr_symmetric_ K KT !! jki
  = Some (if lr_symmetric_ then hermitivitize c (fold_left madd KTjki Kin)
          else fold_left madd KTjki Kin).
Proof.
  intros HK HKT. unfold COSK.reduce_K.
  rewrite list_lookup_imap, HK. cbn. now rewrite HKT.
Qed.

(** The master loop of LinK keeps the shape of every K matrix. *)
Lemma stripe_rows_square (n : nat) (c : Collaborators) (t : LinK.TaskFrame)
    (first nsh : nat) (lists : list (gset nat)) (Ka Kb : nat) (KTp : Vector) (Kp : Matrix) :
  square n Kp -> square n (LinK.stripe_rows c t first nsh lists Ka Kb KTp Kp).
Proof.
  unfold LinK.stripe_rows. apply fold_left_preserves. intros acc P.
  apply fold_left_preserves. intros acc' S.
  apply fold_left_preserves. intros acc'' [p s] Hacc.
  now apply madd_at_square, madd_at_square.
Qed.

Lemma stripeout_squares (n : nat) (c : Collaborators) (t : LinK.TaskFrame)
    (ts : LinK.TaskState) (K : list Matrix) :
  Forall (square n) K -> Forall (square n) (LinK.stripeout c t ts K).2.
Proof.
  intros HK. unfold LinK.stripeout. cbn [snd].
  apply Forall_forall. intros Kp Hin.
  apply elem_of_lookup_imap in Hin as (ind & Kp0 & -> & HKp0).
  assert (Hsq : square n Kp0).
  { rewrite Forall_forall in HK. eapply HK, list_elem_of_lookup_2, HKp0. }
  destruct (map _ _ !! ind); [|exact Hsq].
  now apply stripe_rows_square, stripe_rows_square.
Qed.

Lemma atom_pair_task_squares (n : nat) (c : Collaborators) (D Dscreen : list Matrix)
    (cutoff : float) (bras_of kets_of : list (list nat)) (ms : LinK.MasterState)
    (ipair : nat) :
  Forall (square n) (LinK.Kmat ms) ->
  Forall (square n)
    (LinK.Kmat (LinK.atom_pair_task c D Dscreen cutoff bras_of kets_of ms ipair)).
Proof.
  intros HK. unfold LinK.atom_pair_task.
  destruct (default (0, 0) (LinK.atom_pairs c !! ipair)) as [Patom Qatom].
  match goal with |- context [negb (LinK.touched ?ts)] => set (task := ts) end.
  destruct (LinK.touched task); cbn [negb]; [|exact HK].
  pose proof (stripeout_squares n c (LinK.task_frame c Patom Qatom) task (LinK.Kmat ms) HK)
    as Hs.
  destruct (LinK.stripeout c (LinK.task_frame c Patom Qatom) task (LinK.Kmat ms))
    as [KTs K]. exact Hs.
Qed.

Lemma master_loop_squares (n : nat) (c : Collaborators) (nthread : nat)
    (cutoff_ linK_ints_cutoff_ : float) (D Dscreen K : list Matrix) :
  Forall (square n) K ->
  Forall (square n)
    (LinK.Kmat (LinK.master_loop c nthread cutoff_ linK_ints_cutoff_ D Dscreen K)).
Proof.
  intros HK. unfold LinK.master_loop.
  apply (fold_left_preserves (fun ms => Forall (square n) (LinK.Kmat ms))).
  - intros ms ipair. apply atom_pair_task_squares.
  - exact HK.
Qed.

(** The half-sum model of [hermitivitize] meets the contract asked of the
    collaborator: on a square matrix its result is symmetric. *)
Lemma mget_in_range (n : nat) (m : Matrix) (i j : nat) :
  square n m -> i < n -> j < n ->
  exists row, m !! i = Some row /\ row !! j = Some (mget m i j).
Proof.
  intros [Hl Hr] Hi Hj.
  destruct (lookup_lt_is_Some_2 m i ltac:(lia)) as [row Hrow].
  assert (Hlen : length row = n).
  { rewrite Forall_forall in Hr. eapply Hr, list_elem_of_lookup_2, Hrow. }
  destruct (lookup_lt_is_Some_2 row j ltac:(lia)) as [x Hx].
  exists row. split; [exact Hrow|]. unfold mget, vget. rewrite Hrow. cbn. rewrite Hx.
  reflexivity.
Qed.

Lemma mget_out_of_range (n : nat) (m : Matrix) (i j : nat) :
  square n m -> n <= i \/ n <= j -> mget m i j = 0%float.
Proof.
  intros [Hl Hr] Hij. unfold mget, vget.
  destruct (m !! i) as [row|] eqn:Hrow; [|reflexivity]. cbn.
  assert (Hlen : length row = n).
  { rewrite Forall_forall in Hr. eapply Hr, list_elem_of_lookup_2, Hrow. }
  apply lookup_lt_Some in Hrow.
  rewrite lookup_ge_None_2 by lia. reflexivity.
Qed.

Lemma hermitivitize_half_sum_square (n : nat) (m : Matrix) :
  square n m -> square n (Example.hermitivitize_half_sum m).
Proof.
  intros [Hl Hr]. unfold Example.hermitivitize_half_sum.
  split; [now rewrite length_imap|].
  apply Forall_forall. intros row Hin.
  apply elem_of_lookup_imap in Hin as (i & row0 & -> & Hrow0).
  rewrite length_imap. rewrite Forall_forall in Hr.
  eapply Hr, list_elem_of_lookup_2, Hrow0.
Qed.

Lemma mget_imap2 (f : nat -> nat -> float -> float) (m : Matrix) (i j : nat)
    (row : Vector) (x : float) :
  m !! i = Some row -> row !! j = Some x ->
  mget (imap (fun i row => imap (f i) row) m) i j = f i j x.
Proof.
  intros Hrow Hx. unfold mget, vget.
  rewrite list_lookup_imap, Hrow. cbn [fmap option_fmap option_map from_option id].
  rewrite list_lookup_imap, Hx. reflexivity.
Qed.

Lemma hermitivitize_half_sum_symmetric (n : nat) (m : Matrix) :
  square n m -> symmetric (Example.hermitivitize_half_sum m).
Proof.
  intros Hsq i j.
  destruct (decide (i < n /\ j < n)) as [[Hi Hj]|Hout].
  - destruct (mget_in_range n m i j Hsq Hi Hj) as (ri & Hri & Hxi).
    destruct (mget_in_range n m j i Hsq Hj Hi) as (rj & Hrj & Hxj).
    unfold Example.hermitivitize_half_sum.
    rewrite (mget_imap2 _ m i j ri _ Hri Hxi), (mget_imap2 _ m j i rj _ Hrj Hxj).
    destruct (decide (i < j)), (decide (j < i)); try lia; try reflexivity.
    assert (i = j) by lia. now subst.
  - pose proof (hermitivitize_half_sum_square n m Hsq) as Hsq'.
    rewrite (mget_out_of_range n _ i j Hsq') by lia.
    rewrite (mget_out_of_range n _ j i Hsq') by lia. reflexivity.
Qed.

(** C5: with a [hermitivitize] that makes a square matrix symmetric, every J
    matrix of the J builder and every K matrix of LinK is the result of
    [hermitivitize], applied after the last accumulation, and so symmetric; the
    K matrices of COSX are passed through [hermitivitize] when the build is
    declared symmetric and are the plain sums of the thread buffers when it is
    not. *)
Theorem outputs_hermitivitized (c : Collaborators) (n : nat) :
  (forall m, square n m -> symmetric (hermitivitize c m)) ->
  (forall (nthreads_ : nat) (J_metric_ : Matrix) (INTS_TOLERANCE : float)
      (D J : list Matrix),
      Forall (square n) J ->
      exists JT : list (list Matrix),
        length JT = length D
        /\ (DirectDFJ.build_DirectDFJ c nthreads_ J_metric_ INTS_TOLERANCE D J).1
           = DirectDFJ.reduce_J c J JT
        /\ (forall jki Jin JTjki,
              J !! jki = Some Jin -> JT !! jki = Some JTjki ->
              DirectDFJ.reduce_J c J JT !! jki
              = Some (hermitivitize c (fold_left madd JTjki Jin))
              /\ symmetric (hermitivitize c (fold_left madd JTjki Jin))))
  /\ (forall (nthread : nat) (cutoff_ linK_ints_cutoff_ : float)
         (D Dscreen K Kout : list Matrix) (count : nat),
      Forall (square n) K ->
      LinK.build_linK c nthread true cutoff_ linK_ints_cutoff_ D Dscreen K
      = Ok (Kout, count) ->
      Kout = map (hermitivitize c)
               (LinK.Kmat (LinK.master_loop c nthread cutoff_ linK_ints_cutoff_ D Dscreen K))
      /\ Forall symmetric Kout)
  /\ (forall (early_screening_ lr_symmetric_ : bool) (D K : list Matrix)
         (jki : nat) (Kin : Matrix) (KTjki : list Matrix),
      K !! jki = Some Kin ->
      (COSK_grid_loop c early_screening_ D).1 !! jki = Some KTjki ->
      (COSK.build_COSK c early_screening_ lr_symmetric_ D K).1 !! jki
      = Some (if lr_symmetric_ then hermitivitize c (fold_left madd KTjki Kin)
              else fold_left madd KTjki Kin)
      /\ (lr_symmetric_ = true -> square n Kin ->
          symmetric (hermitivitize c (fold_left madd KTjki Kin)))).
Proof.
  intros Hherm. split; [|split].
  - intros nthreads_ J_metric_ tol D J HJ.
    destruct (build_DirectDFJ_reduce c nthreads_ J_metric_ tol D J) as (JT & Hlen & Hred).
    exists JT. split; [exact Hlen|]. split; [exact Hred|].
    intros jki Jin JTjki HJin HJT. split; [now apply reduce_J_lookup|].
    apply Hherm, fold_madd_square.
    rewrite Forall_forall in HJ. eapply HJ, list_elem_of_lookup_2, HJin.
  - intros nthread cut lcut D Dscreen K Kout count HK Hb.
    unfold LinK.build_linK in Hb. cbn [negb] in Hb. injection Hb as <- _.
    split; [reflexivity|].
    pose proof (master_loop_squares n c nthread cut lcut D Dscreen K HK) as Hsq.
    apply Forall_forall. intros m Hm.
    apply list_elem_of_In, in_map_iff in Hm as (m0 & <- & Hm0).
    apply Hherm. rewrite Forall_forall in Hsq. apply Hsq. now apply list_elem_of_In.
  - intros early lr D K jki Kin KTjki HK HKT.
    unfold COSK.build_COSK.
    destruct (COSK_grid_loop c early D) as [KT cnt]. cbn [fst] in *.
    split; [now apply reduce_K_lookup|].
    intros _ Hsq. now apply Hherm, fold_madd_square.
Qed.

End Symmetry.

Section SymmetryExamples.

Import Notions.
Import Num Mints Example.
Local Open Scope nat_scope.
Local Open Scope list_scope.

(** Without the symmetric declaration the closing loop of COSX returns the
    sum of the thread buffers as it is, symmetric or not. *)
Example reduce_K_not_symmetrized :
  let KT := [[ [[0; 1]; [0; 0]]%float ]] in
  COSK.reduce_K system false [mzero 2 2] KT = [ [[0; 1]; [0; 0]]%float ]
  /\ COSK.reduce_K system true [mzero 2 2] KT = [ [[0; 0.5]; [0.5; 0]]%float ].
Proof. vm_compute. repeat split. Qed.

(** C5, as the specification words it, fails for COSX. The density is
    symmetric and the build is not declared symmetric: [build_COSK] returns
    the sum of [K] and the thread buffers as it stands, with 1 above the
    diagonal and 0 below. Declared symmetric, the same build returns the
    symmetrized matrix. *)
Lemma symmetric_density_unsymmetric_K :
  let D := [small_offdiagonal] in
  let Kout := (COSK.build_COSK Samples.one_sided_system false false D [mzero 2 2]).1 in
  mget small_offdiagonal 0 1 = mget small_offdiagonal 1 0
  /\ Kout = [ [[0; 1]; [0; 0]]%float ]
  /\ mget (default [] (Kout !! 0)) 0 1 = 1%float
  /\ mget (default [] (Kout !! 0)) 1 0 = 0%float
  /\ (COSK.build_COSK Samples.one_sided_system false true D [mzero 2 2]).1
     = [ [[0; 0.5]; [0.5; 0]]%float ].
Proof. vm_compute. repeat split. Qed.

End SymmetryExamples.

Section Witnesses.

Import Notions.
Import Num Mints JK Example.
Local Open Scope nat_scope.
Local Open Scope list_scope.

Lemma incfock_iteration_choice_example :
  let opts := options "DFDIRJ+LINK" in
  let this := (run system opts [1%float] configured).2 in
  incfock_ this = true
  /\ chosen_iteration opts 1%float this = Incremental
  /\ chosen_iteration opts 0x1p-20%float this = Full.
Proof.
  cbv zeta.
  assert (Hinc : incfock_ (run system (options "DFDIRJ+LINK") [1%float] configured).2 = true)
    by (vm_compute; reflexivity).
  split; [exact Hinc|]. split.
  - apply (incfock_iteration_choice (options "DFDIRJ+LINK") 1%float _ Hinc).
    vm_compute. repeat split; try reflexivity. intros H. discriminate H.
  - vm_compute. reflexivity.
Defined.

Lemma previous_density_cache_example :
  (incfock_ configured = true /\ do_wK_ configured = false
   /\ lr_symmetric_ configured = true)
  /\ exists final : CompositeJK,
      compute_JK system (options "DFDIRJ+LINK") 1%float configured = Ok final
      /\ length (D_prev_ final) = 1
      /\ NoDup (D_prev_ final).
Proof.
  split; [vm_compute; repeat split|].
  destruct (previous_density_cache system (options "DFDIRJ+LINK") 1%float configured)
    as (built & final & _ & Hfinal & _ & _ & _ & Hlen & Hnd & _).
  - vm_compute. reflexivity.
  - vm_compute. reflexivity.
  - intros _ _. vm_compute. reflexivity.
  - exists final. split; [exact Hfinal|]. split; [exact Hlen | exact Hnd].
Defined.

Lemma outputs_hermitivitized_example :
  (forall m, square 2 m -> symmetric (hermitivitize system m))
  /\ exists (Kout : list Matrix) (count : nat),
      LinK.build_linK system 1 true 0x1p-40%float 0x1p-40%float
        [small_offdiagonal] [small_offdiagonal] [mzero 2 2] = Ok (Kout, count)
      /\ Forall symmetric Kout.
Proof.
  assert (Hherm : forall m, square 2 m -> symmetric (hermitivitize system m))
    by exact (hermitivitize_half_sum_symmetric 2).
  split; [exact Hherm|].
  eexists _, _. split; [vm_compute; reflexivity|].
  eapply (proj1 (proj2 (outputs_hermitivitized system 2 Hherm))
            1 0x1p-40%float 0x1p-40%float [small_offdiagonal] [small_offdiagonal]
            [mzero 2 2]).
  - repeat constructor.
  - vm_compute. reflexivity.
Defined.

End Witnesses.

Section ChainWalkExamples.

Import Notions.
Import Num Mints LinK Example.
Local Open Scope nat_scope.
Local Open Scope list_scope.

(** On the two-shell system with bra pair [(0, 0)]: the ket shell 1 has no
    candidate that passes, so a walk over the kets [1; 0] asks for one bound
    and never looks at the ket shell 0; a walk over [0; 1] handles both
    candidates of the ket shell 0 and then stops at the ket shell 1. *)
Example chain_walk_example :
  let st := {| ML_PQ := ∅; P_stripeout_list := [∅]; Q_stripeout_list := [∅];
               ceiling_calls := [] |} in
  let walk := walk_kets system [small_offdiagonal] 0x1p-40%float 2
                [[0; 1]; [0; 1]] ML_P 0 0 0 0 in
  ceiling_calls (walk [1; 0] st) = [(0, 0, 1, 0)]
  /\ elements (ML_PQ (walk [1; 0] st)) = []
  /\ ceiling_calls (walk [0; 1] st) = [(0, 0, 0, 0); (0, 0, 0, 1); (0, 0, 1, 0)]
  /\ elements (ML_PQ (walk [0; 1] st)) = [0].
Proof. vm_compute. repeat split. Qed.

End ChainWalkExamples.

(** * Further properties of the setup *)

Section SetupEffects.

Import Notions.
Import StdString JK.
Local Open Scope string_scope.

(** The first ['+'] of a string cuts it into a front without ['+'] and a
    rest. *)
Lemma find_from_split s i k :
  find_from "+" s i = Some k ->
  exists pre suf, s = pre ++ String "+" suf /\ no_plus pre
                  /\ k = (i + String.length pre)%nat.
Proof.
  revert i. induction s as [|a s IH]; intros i.
  - cbn. discriminate.
  - destruct (Ascii.ascii_dec a "+") as [->|Ha].
    + cbn [find_from]. rewrite prefix_plus_true. intros [= <-].
      exists "", s. repeat split.
      * intros n. destruct n; discriminate.
      * cbn [String.length]. lia.
    + cbn [find_from]. rewrite (prefix_plus_false a s Ha). intros H.
      apply IH in H as (pre & suf & -> & Hpre & ->).
      exists (String a pre), suf. repeat split.
      * intros [|n]; cbn [String.get]; [congruence | apply Hpre].
      * cbn [String.length]. lia.
Qed.

(** A string in which no ['+'] is found has none. *)
Lemma find_from_none s i : find_from "+" s i = None -> no_plus s.
Proof.
  revert i. induction s as [|a s IH]; intros i H n.
  - destruct n; discriminate.
  - destruct (Ascii.ascii_dec a "+") as [->|Ha].
    + cbn [find_from] in H. rewrite prefix_plus_true in H. discriminate.
    + cbn [find_from] in H. rewrite (prefix_plus_false a s Ha) in H.
      destruct n as [|n]; cbn [String.get]; [congruence | exact (IH _ H n)].
Qed.

(** The two ways a tag is read. *)
Lemma derive_jk_types_cases tag :
  StdString.length tag < npos ->
  (no_plus tag /\ derive_jk_types tag = Ok (tag, "NONE"))
  \/ (exists pre suf, tag = pre ++ String "+" suf /\ no_plus pre
        /\ derive_jk_types tag = Ok (pre, if decide (suf = pre) then "NONE" else suf)).
Proof.
  intros Hlen. destruct (find_from "+" tag 0) as [k|] eqn:Hk.
  - right. destruct (find_from_split _ _ _ Hk) as (pre & suf & Htag & Hpre & Hkk).
    subst tag k.
    exists pre, suf. repeat split; [exact Hpre|].
    unfold derive_jk_types, find. rewrite Hk. cbn [Nat.add].
    fold (StdString.length pre). rewrite substr_prefix. cbn [mbind result_bind].
    rewrite size_t_wrap_small.
    + rewrite substr_suffix. reflexivity.
    + rewrite length_split in Hlen. rewrite npos_value in Hlen.
      pose proof (length_nonneg pre). pose proof (length_nonneg suf).
      change size_t_modulus with 18446744073709551616. lia.
  - left. pose proof (find_from_none _ _ Hk) as Htag.
    split; [exact Htag|].
    unfold derive_jk_types, find. rewrite Hk, size_t_wrap_npos_succ.
    rewrite (substr_all tag npos) by lia.
    rewrite (substr_all tag (StdString.length tag)) by lia.
    cbn [mbind result_bind mret result_ret].
    destruct (decide (tag = tag)) as [_|n]; [reflexivity | congruence].
Qed.

(** X1: a setup that returns has stored the options it read: the J selector
    is "DFDIRJ", the K selector is one of "LINK", "COSX" and "NONE", the
    incremental Fock counter is zero and its flag is off, COSX early screening
    is on exactly for "COSX", and for "LINK" the integral cutoff of LinK is the
    option LINK_INTS_TOLERANCE when the user set it and the general cutoff
    otherwise; the densities, the outputs, the matrix store and the
    [do_J_], [do_K_], [do_wK_] and [lr_symmetric_] switches are not touched. *)
Theorem common_init_establishes (c : Mints.Collaborators) (options_ : Options)
    (this obj : CompositeJK) :
  common_init c options_ this = Ok obj ->
  j_type_ obj = "DFDIRJ"
  /\ (k_type_ obj = "LINK" \/ k_type_ obj = "COSX" \/ k_type_ obj = "NONE")
  /\ derive_jk_types (SCF_TYPE options_) = Ok (j_type_ obj, k_type_ obj)
  /\ 0 < INCFOCK_FULL_FOCK_EVERY options_
  /\ incfock_ obj = INCFOCK options_
  /\ incfock_count_ obj = 0
  /\ do_incfock_iter_ obj = false
  /\ nthreads_ obj = Mints.get_n_threads c
  /\ density_screening_ obj = bool_decide (SCREENING options_ = "DENSITY")
  /\ cutoff_ obj = INTS_TOLERANCE options_
  /\ early_screening_ obj = bool_decide (k_type_ obj = "COSX")
  /\ J_metric_ obj = Mints.form_fitting_metric c
  /\ linK_ints_cutoff_ obj
     = (if decide (k_type_ obj = "LINK")
        then if LINK_INTS_TOLERANCE_has_changed options_
             then LINK_INTS_TOLERANCE options_ else INTS_TOLERANCE options_
        else linK_ints_cutoff_ this)
  /\ (D_ao_ obj, D_prev_ obj, D_ref_ obj, J_ao_ obj, K_ao_ obj, store obj)
     = (D_ao_ this, D_prev_ this, D_ref_ this, J_ao_ this, K_ao_ this, store this)
  /\ (do_J_ obj, do_K_ obj, do_wK_ obj, lr_symmetric_ obj, initial_iteration_ obj)
     = (do_J_ this, do_K_ this, do_wK_ this, lr_symmetric_ this, initial_iteration_ this).
Proof.
  unfold common_init.
  destruct (decide (INCFOCK_FULL_FOCK_EVERY options_ ≤ 0)%Z) as [Hr|Hr]; [discriminate|].
  destruct (derive_jk_types (SCF_TYPE options_)) as [[j k]|msg]; [|discriminate].
  cbn [mbind result_bind fst snd j_type_ k_type_ set_j_type_ set_k_type_
       set_density_screening_ set_cutoff_ set_early_screening_ set_J_metric_].
  destruct (decide (j = "DFDIRJ")) as [Hj|Hj]; [|discriminate].
  destruct (decide (k = "LINK")) as [Hk1|Hk1].
  { intros [= <-]. cbn. rewrite decide_True by exact Hk1.
    subst j k. repeat split; try lia; auto. }
  destruct (decide (k = "COSX")) as [Hk2|Hk2].
  { intros [= <-]. cbn. rewrite decide_False by exact Hk1.
    subst j k. repeat split; try lia; auto. }
  destruct (decide (k = "NONE")) as [Hk3|Hk3]; [|discriminate].
  intros [= <-]. cbn. rewrite decide_False by exact Hk1.
  subst j k. repeat split; try lia; auto.
Qed.

(** X2: a tag without ['+'] selects no K algorithm, so after a setup that
    returned for such a tag every request for K, [set_do_K(true)], throws,
    while [set_do_K(false)] stores the flag. *)
Theorem bare_tag_refuses_K (c : Mints.Collaborators) (options_ : Options)
    (this obj : CompositeJK) :
  no_plus (SCF_TYPE options_) ->
  StdString.length (SCF_TYPE options_) < npos ->
  common_init c options_ this = Ok obj ->
  SCF_TYPE options_ = "DFDIRJ"
  /\ k_type_ obj = "NONE"
  /\ set_do_K true obj
     = Throw ("No composite K build algorithm was specified, but K matrix is required for current method! Please specify a composite K build algorithm by setting SCF_TYPE to DFDIRJ+{K_ALGO}.")
  /\ set_do_K false obj = Ok (set_do_K_ false obj).
Proof.
  intros Hplus Hlen Hinit.
  assert (Hjk : derive_jk_types (SCF_TYPE options_) = Ok (SCF_TYPE options_, "NONE")).
  { destruct (derive_jk_types_cases _ Hlen) as [(_ & H)|(pre & suf & Htag & _ & _)];
      [exact H|].
    exfalso. apply (Hplus (String.length pre)). rewrite Htag.
    clear. induction pre as [|a pre IH]; [reflexivity | exact IH]. }
  revert Hinit. unfold common_init. rewrite Hjk.
  destruct (decide (INCFOCK_FULL_FOCK_EVERY options_ ≤ 0)%Z) as [Hr|Hr]; [discriminate|].
  cbn [mbind result_bind fst snd j_type_ k_type_ set_j_type_ set_k_type_
       set_density_screening_ set_cutoff_ set_early_screening_ set_J_metric_].
  destruct (decide (SCF_TYPE options_ = "DFDIRJ")) as [Hj|Hj]; [|discriminate].
  rewrite decide_False by discriminate. rewrite decide_False by discriminate.
  rewrite decide_True by reflexivity.
  intros [= <-]. unfold set_do_K. cbn. rewrite Hj. repeat split.
Qed.

(** X3: splitting loses nothing. The J selector never contains ['+']; the K
    selector is either "NONE" or the tag is the J selector, a ['+'] and the K
    selector; and the two selectors are equal only when both are "NONE". *)
Theorem derive_jk_types_recombines (tag j k : string) :
  StdString.length tag < npos ->
  derive_jk_types tag = Ok (j, k) ->
  no_plus j
  /\ (k = "NONE" \/ tag = j ++ "+" ++ k)
  /\ (k = j -> j = "NONE").
Proof.
  intros Hlen Hjk.
  destruct (derive_jk_types_cases _ Hlen) as [(Htag & H)|(pre & suf & Htag & Hpre & H)];
    rewrite H in Hjk; injection Hjk as <- <-.
  - repeat split; [exact Htag | now left | congruence].
  - destruct (decide (suf = pre)) as [He|He].
    + repeat split; [exact Hpre | now left | congruence].
    + repeat split; [exact Hpre | now right | congruence].
Qed.

End SetupEffects.

(** * Further properties of the incremental Fock controller *)

Section Controller.

Import Notions.
Import Num Mints JK.
Local Open Scope nat_scope.
Local Open Scope list_scope.

Lemma delta_loop_flags (js : list nat) (t : CompositeJK) :
  let t' := fold_left delta_density js t in
  (initial_iteration_ t', incfock_count_ t', do_incfock_iter_ t')
  = (initial_iteration_ t, incfock_count_ t, do_incfock_iter_ t).
Proof.
  cbv zeta. revert t. induction js as [|j js IH]; intros t; [reflexivity|].
  cbn [fold_left]. rewrite IH. unfold delta_density, clone. reflexivity.
Qed.

(** The three control members after the setup of an iteration. *)
Lemma incfock_preprocessing_flags (options_ : Options) (Dnorm : float)
    (this : CompositeJK) :
  let after := incfock_preprocessing options_ Dnorm this in
  let counted := incfock_ this && negb (initial_iteration_ this)
                 && fge Dnorm (INCFOCK_CONVERGENCE options_) in
  let flag := fge Dnorm (INCFOCK_CONVERGENCE options_) && negb (initial_iteration_ this)
              && negb (bool_decide
                         (Z.rem (incfock_count_ this) (INCFOCK_FULL_FOCK_EVERY options_)
                          = (INCFOCK_FULL_FOCK_EVERY options_ - 1)%Z)) in
  incfock_count_ after
  = (if counted then (incfock_count_ this + 1)%Z else incfock_count_ this)
  /\ do_incfock_iter_ after = (if incfock_ this then flag else do_incfock_iter_ this)
  /\ initial_iteration_ after
     = (initial_iteration_ this
        || (incfock_ this && flag
            && negb (bool_decide (length (D_prev_ this) = length (D_ao_ this))))).
Proof.
  cbv zeta. unfold incfock_preprocessing.
  destruct (incfock_ this); cbn [andb].
  2:{ cbn. rewrite orb_false_r. repeat split. }
  destruct (incfock_decide_frame options_ Dnorm this)
    as (HD & HP & _ & _ & _ & _ & _ & HI & HF & HC).
  unfold incfock_setup. rewrite HI, HD, HP, HF.
  pose proof (delta_loop_flags (seq 0 (length (D_ao_ this)))
                (incfock_decide options_ Dnorm this)) as Hfl.
  cbv zeta in Hfl. rewrite HI, HF, HC in Hfl.
  destruct (fge Dnorm (INCFOCK_CONVERGENCE options_)),
    (initial_iteration_ this),
    (bool_decide (Z.rem (incfock_count_ this) (INCFOCK_FULL_FOCK_EVERY options_)
                  = (INCFOCK_FULL_FOCK_EVERY options_ - 1)%Z)),
    (bool_decide (length (D_prev_ this) = length (D_ao_ this)));
    cbn [andb negb orb] in *.
  all: try (injection Hfl as -> -> ->; repeat split).
  all: cbn; rewrite ?HC, ?HI, ?HF; repeat split.
Qed.

(** What [incfock_postiter] leaves alone, and the size of the new cache. *)
Lemma incfock_postiter_frame (t : CompositeJK) :
  let p := incfock_postiter t in
  (initial_iteration_ p, incfock_count_ p, do_incfock_iter_ p, D_ref_ p)
  = (initial_iteration_ t, incfock_count_ t, do_incfock_iter_ t, D_ref_ t)
  /\ statics (set_D_prev_ [] p) = statics (set_D_prev_ [] t)
  /\ length (D_prev_ p) = length (D_ao_ t).
Proof.
  cbv zeta. unfold incfock_postiter.
  destruct (push_clone_loop (D_ao_ t) (set_D_prev_ [] t))
    as (Hframe & news & Hprev & Hlen & _).
  cbv zeta in Hframe, Hprev. split; [|split].
  - rewrite Hframe. reflexivity.
  - rewrite Hframe. reflexivity.
  - rewrite Hprev. cbn. exact Hlen.
Qed.

(** The stages of a call that returns. *)
Lemma compute_JK_stages (c : Collaborators) (options_ : Options) (Dnorm : float)
    (this final : CompositeJK) :
  compute_JK c options_ Dnorm this = Ok final ->
  do_wK_ this = false
  /\ exists built,
      build_matrices c options_ (incfock_preprocessing options_ Dnorm this) = Ok built
      /\ final
         = (let post := if incfock_ built then incfock_postiter built else built in
            if initial_iteration_ post then set_initial_iteration_ false post else post).
Proof.
  unfold compute_JK, compute_JK_built.
  destruct (do_wK_ this); [discriminate|].
  destruct (build_matrices c options_ (incfock_preprocessing options_ Dnorm this))
    as [built|msg]; [|discriminate].
  cbn [mbind result_bind mret result_ret]. intros [= <-]. split; [reflexivity|].
  exists built. split; reflexivity.
Qed.

(** The builders never write a switch or a selector. *)
Lemma build_matrices_switches (c : Collaborators) (options_ : Options)
    (this t : CompositeJK) :
  build_matrices c options_ this = Ok t ->
  (do_J_ t, do_K_ t, do_wK_ t, (j_type_ t, k_type_ t, lr_symmetric_ t))
  = (do_J_ this, do_K_ this, do_wK_ this, (j_type_ this, k_type_ this, lr_symmetric_ this)).
Proof.
  unfold build_matrices.
  set (sw := fun t : CompositeJK =>
               (do_J_ t, do_K_ t, do_wK_ t, (j_type_ t, k_type_ t, lr_symmetric_ t))).
  change (?a = ?b -> _) with (a = b -> sw t = sw this).
  set (this1 := if density_screening_ this then _ else this).
  assert (H1 : sw this1 = sw this).
  { unfold this1. now destruct (density_screening_ this). }
  set (this2 := if do_J_ this1 then _ else this1).
  assert (H2 : sw this2 = sw this).
  { unfold this2. destruct (do_J_ this1); [|exact H1].
    destruct (decide (j_type_ this1 = "DFDIRJ")) as [_|_]; [|exact H1].
    now destruct (DirectDFJ.build_DirectDFJ _ _ _ _ _ _). }
  clearbody this2. clear this1 H1.
  destruct (do_K_ this2); [|now intros [= <-]].
  destruct (decide (k_type_ this2 = "LINK")) as [_|_].
  { destruct (LinK.build_linK _ _ _ _ _ _ _ _) as [[K n]|]; cbn; [|discriminate].
    now intros [= <-]. }
  destruct (decide (k_type_ this2 = "COSX")) as [_|_].
  { destruct (COSK.build_COSK _ _ _ _ _) as [K n]. cbn. now intros [= <-]. }
  now intros [= <-].
Qed.

(** A LinK build that is not declared symmetric stops the builders. *)
Lemma build_matrices_throws (c : Collaborators) (options_ : Options)
    (this : CompositeJK) :
  do_K_ this = true -> k_type_ this = "LINK" -> lr_symmetric_ this = false ->
  build_matrices c options_ this
  = Throw "Non-symmetric K matrix builds are currently not supported in the LinK algorithm.".
Proof.
  intros HK Hk Hl. unfold build_matrices.
  set (this1 := if density_screening_ this then _ else this).
  assert (H1 : (do_K_ this1, k_type_ this1, lr_symmetric_ this1)
               = (do_K_ this, k_type_ this, lr_symmetric_ this)).
  { unfold this1. now destruct (density_screening_ this). }
  set (this2 := if do_J_ this1 then _ else this1).
  assert (H2 : (do_K_ this2, k_type_ this2, lr_symmetric_ this2)
               = (do_K_ this, k_type_ this, lr_symmetric_ this)).
  { unfold this2. destruct (do_J_ this1); [|exact H1].
    destruct (decide (j_type_ this1 = "DFDIRJ")) as [_|_]; [|exact H1].
    now destruct (DirectDFJ.build_DirectDFJ _ _ _ _ _ _). }
  clearbody this2. injection H2 as -> HK2 ->. rewrite HK.
  rewrite decide_True by congruence.
  unfold LinK.build_linK. rewrite Hl. reflexivity.
Qed.

(** What a call that returns has done to the control members. *)
Lemma compute_JK_effects (c : Collaborators) (options_ : Options) (Dnorm : float)
    (this final : CompositeJK) :
  compute_JK c options_ Dnorm this = Ok final ->
  let counted := incfock_ this && negb (initial_iteration_ this)
                 && fge Dnorm (INCFOCK_CONVERGENCE options_) in
  let flag := fge Dnorm (INCFOCK_CONVERGENCE options_) && negb (initial_iteration_ this)
              && negb (bool_decide
                         (Z.rem (incfock_count_ this) (INCFOCK_FULL_FOCK_EVERY options_)
                          = (INCFOCK_FULL_FOCK_EVERY options_ - 1)%Z)) in
  initial_iteration_ final = false
  /\ incfock_count_ final
     = (if counted then (incfock_count_ this + 1)%Z else incfock_count_ this)
  /\ do_incfock_iter_ final = (if incfock_ this then flag else do_incfock_iter_ this)
  /\ statics (set_D_prev_ [] final) = statics (set_D_prev_ [] this)
  /\ (incfock_ this = true -> length (D_prev_ final) = length (D_ao_ this))
  /\ (incfock_ this = false -> D_prev_ final = D_prev_ this)
  /\ D_ref_ final = D_ref_ (incfock_preprocessing options_ Dnorm this).
Proof.
  intros Hrun. cbv zeta.
  destruct (compute_JK_stages _ _ _ _ _ Hrun) as (HwK & built & Hbuilt & ->).
  pose proof (build_matrices_frame _ _ _ _ Hbuilt)
    as (HD & HP & HR & HJ & HK & Hinc & Hinit & Hcount & Hflag & _).
  pose proof (build_matrices_switches _ _ _ _ Hbuilt) as Hsw.
  destruct (incfock_preprocessing_frame options_ Dnorm this) as (Hst & _).
  destruct (incfock_preprocessing_flags options_ Dnorm this) as (Fc & Ff & _).
  cbv zeta in Hst, Fc, Ff.
  set (pre := incfock_preprocessing options_ Dnorm this) in *.
  assert (Hstb : statics built = statics this).
  { rewrite <- Hst. unfold statics. injection Hsw as -> -> -> -> -> ->.
    now rewrite HD, HP, HJ, HK, Hinc. }
  assert (Hincb : incfock_ built = incfock_ this).
  { unfold statics in Hstb. now injection Hstb. }
  assert (Hdb : D_ao_ built = D_ao_ this).
  { unfold statics in Hstb. now injection Hstb. }
  assert (Hpb : D_prev_ built = D_prev_ this).
  { unfold statics in Hstb. now injection Hstb. }
  assert (Hsb : statics (set_D_prev_ [] built) = statics (set_D_prev_ [] this)).
  { unfold statics in *. cbn. injection Hstb as -> _ -> -> -> -> -> -> -> -> ->.
    reflexivity. }
  cbv zeta. rewrite Hincb.
  destruct (incfock_ this) eqn:Ei.
  - destruct (incfock_postiter_frame built) as (Hfl & Hsp & Hlen).
    cbv zeta in Hfl, Hsp, Hlen. injection Hfl as Hi Hc Hf Hr.
    set (post := incfock_postiter built) in *.
    assert (Hres : forall b : bool, (if b then set_initial_iteration_ false post else post)
                             = set_initial_iteration_ (if b then false else initial_iteration_ post) post).
    { intros []; [reflexivity|]. now destruct post. }
    rewrite Hres. cbn [initial_iteration_ incfock_count_ do_incfock_iter_ D_ref_ D_prev_
                       set_initial_iteration_].
    repeat split.
    + now destruct (initial_iteration_ post).
    + now rewrite Hc, Hcount, Fc.
    + now rewrite Hf, Hflag, Ff.
    + rewrite <- Hsb, <- Hsp. reflexivity.
    + intros _. now rewrite Hlen, Hdb.
    + discriminate.
    + now rewrite Hr, HR.
  - assert (Hres : forall b : bool, (if b then set_initial_iteration_ false built else built)
                             = set_initial_iteration_ (if b then false else initial_iteration_ built) built).
    { intros []; [reflexivity|]. now destruct built. }
    rewrite Hres. cbn [initial_iteration_ incfock_count_ do_incfock_iter_ D_ref_ D_prev_
                       set_initial_iteration_].
    repeat split.
    + now destruct (initial_iteration_ built).
    + now rewrite Hcount, Fc.
    + now rewrite Hflag, Ff.
    + rewrite <- Hsb. reflexivity.
    + discriminate.
    + intros _. exact Hpb.
    + exact HR.
Qed.

(** A call returns unless wK is asked for or LinK has to build a K that is not
    declared symmetric. *)
Lemma compute_JK_returns (c : Collaborators) (options_ : Options) (Dnorm : float)
    (this : CompositeJK) :
  do_wK_ this = false ->
  (do_K_ this = true -> k_type_ this = "LINK" -> lr_symmetric_ this = true) ->
  exists final, compute_JK c options_ Dnorm this = Ok final.
Proof.
  intros Hw Hsym. unfold compute_JK, compute_JK_built. rewrite Hw.
  destruct (incfock_preprocessing_frame options_ Dnorm this) as (Hst & _).
  cbv zeta in Hst. unfold statics in Hst. injection Hst as _ _ _ _ _ _ HK _ _ Hk Hl.
  destruct (build_matrices_returns c options_ (incfock_preprocessing options_ Dnorm this))
    as (built & ->); [rewrite HK, Hk, Hl; exact Hsym|].
  cbn [mbind result_bind mret result_ret]. eauto.
Qed.

(** X4: [compute_JK] throws exactly when wK is asked for, or when K is asked
    for from LinK and the build is not declared symmetric; the first test wins,
    and a LinK build that is not asked for ([do_K_] off) stops nothing. *)
Theorem compute_JK_throws_exactly (c : Collaborators) (options_ : Options)
    (Dnorm : float) (this : CompositeJK) :
  (throws (compute_JK c options_ Dnorm this)
   <-> do_wK_ this = true
       \/ (do_K_ this = true /\ k_type_ this = "LINK" /\ lr_symmetric_ this = false))
  /\ (compute_JK c options_ Dnorm this
      = Throw "Non-symmetric K matrix builds are currently not supported in the LinK algorithm."
      <-> do_wK_ this = false
          /\ do_K_ this = true /\ k_type_ this = "LINK" /\ lr_symmetric_ this = false).
Proof.
  destruct (do_wK_ this) eqn:Hw.
  { unfold compute_JK, compute_JK_built. rewrite Hw. cbn.
    split; split; try tauto; try discriminate. intros (? & _). discriminate. }
  destruct (decide (do_K_ this = true /\ k_type_ this = "LINK"
                    /\ lr_symmetric_ this = false)) as [(HK & Hk & Hl)|Hno].
  - assert (Hthrow : compute_JK c options_ Dnorm this
      = Throw "Non-symmetric K matrix builds are currently not supported in the LinK algorithm.").
    { unfold compute_JK, compute_JK_built. rewrite Hw.
      destruct (incfock_preprocessing_frame options_ Dnorm this) as (Hst & _).
      cbv zeta in Hst. unfold statics in Hst.
      injection Hst as _ _ _ _ _ _ HK' _ _ Hk' Hl'.
      rewrite build_matrices_throws; [reflexivity | congruence..]. }
    rewrite Hthrow. cbn. split; split; tauto.
  - destruct (compute_JK_returns c options_ Dnorm this Hw) as (final & ->).
    + intros HK Hk. destruct (lr_symmetric_ this) eqn:Hl; [reflexivity|].
      exfalso. apply Hno. repeat split; assumption.
    + cbn. split; split; try tauto; try discriminate.
      intros [?|?]; [discriminate | tauto].
Qed.

(** X5: every call that returns leaves [initial_iteration_] off, and the first
    call (the flag on) is a full iteration that neither counts nor raises the
    incremental flag: the reference density is the current density. *)
Theorem first_iteration_is_full (c : Collaborators) (options_ : Options)
    (Dnorm : float) (this final : CompositeJK) :
  compute_JK c options_ Dnorm this = Ok final ->
  initial_iteration_ final = false
  /\ (initial_iteration_ this = true ->
      chosen_iteration options_ Dnorm this = Full
      /\ incfock_count_ final = incfock_count_ this
      /\ D_ref_ final = D_ao_ this
      /\ (incfock_ this = true -> do_incfock_iter_ final = false)).
Proof.
  intros Hrun.
  destruct (compute_JK_effects _ _ _ _ _ Hrun) as (Hi & Hc & Hf & _ & _ & _ & Hr).
  split; [exact Hi|]. intros Hinit.
  assert (Hfull : chosen_iteration options_ Dnorm this = Full).
  { destruct (incfock_ this) eqn:Hinc.
    - destruct (chosen_iteration options_ Dnorm this) eqn:Hch; [reflexivity|].
      apply (chosen_iteration_incremental _ _ _ Hinc) in Hch as (? & _). congruence.
    - unfold chosen_iteration. now rewrite Hinc. }
  split; [exact Hfull|].
  destruct (full_iteration_effects _ _ _ Hfull) as (HR & _). cbv zeta in HR.
  rewrite Hinit in Hc, Hf. cbn [negb andb] in Hc, Hf.
  rewrite andb_false_r in Hc, Hf. cbn [andb] in Hf.
  repeat split; [exact Hc | congruence |].
  intros Hinc. now rewrite Hinc in Hf.
Qed.

(** X6: the counter [incfock_count_] counts the calls made with incremental
    Fock on, after the first call, with SCF D NORM at or above the floor, full
    and incremental iterations alike: such a call adds one, every other call
    leaves the counter as it was, and every incremental iteration is counted. *)
Theorem incfock_count_counts (c : Collaborators) (options_ : Options)
    (Dnorm : float) (this final : CompositeJK) :
  compute_JK c options_ Dnorm this = Ok final ->
  incfock_count_ final
  = (if incfock_ this && negb (initial_iteration_ this)
        && fge Dnorm (INCFOCK_CONVERGENCE options_)
     then (incfock_count_ this + 1)%Z else incfock_count_ this)
  /\ (chosen_iteration options_ Dnorm this = Incremental ->
      incfock_count_ final = (incfock_count_ this + 1)%Z).
Proof.
  intros Hrun.
  destruct (compute_JK_effects _ _ _ _ _ Hrun) as (_ & Hc & _).
  split; [exact Hc|]. intros Hch.
  destruct (incfock_ this) eqn:Hinc.
  - apply (chosen_iteration_incremental _ _ _ Hinc) in Hch as (Hi & _ & Hd & _).
    now rewrite Hi, Hd in Hc.
  - unfold chosen_iteration in Hch. rewrite Hinc in Hch. discriminate.
Qed.

(** X7: when every test for an incremental iteration passes but the cache
    has another number of channels than the density list, the iteration is
    full, yet the flag [do_incfock_iter_] stays on and the call is counted;
    the setup marks the iteration as an initial one, and the call leaves a
    cache of the right size. *)
Theorem cache_size_mismatch_is_full (c : Collaborators) (options_ : Options)
    (Dnorm : float) (this final : CompositeJK) :
  incfock_ this = true ->
  initial_iteration_ this = false ->
  fge Dnorm (INCFOCK_CONVERGENCE options_) = true ->
  Z.rem (incfock_count_ this) (INCFOCK_FULL_FOCK_EVERY options_)
    <> (INCFOCK_FULL_FOCK_EVERY options_ - 1)%Z ->
  length (D_prev_ this) <> length (D_ao_ this) ->
  compute_JK c options_ Dnorm this = Ok final ->
  chosen_iteration options_ Dnorm this = Full
  /\ initial_iteration_ (incfock_preprocessing options_ Dnorm this) = true
  /\ do_incfock_iter_ final = true
  /\ initial_iteration_ final = false
  /\ incfock_count_ final = (incfock_count_ this + 1)%Z
  /\ D_ref_ final = D_ao_ this
  /\ length (D_prev_ final) = length (D_ao_ this).
Proof.
  intros Hinc Hinit Hd Hrem Hlen Hrun.
  destruct (compute_JK_effects _ _ _ _ _ Hrun) as (Hi & Hc & Hf & _ & Hp & _ & Hr).
  destruct (incfock_preprocessing_flags options_ Dnorm this) as (_ & _ & Fi).
  cbv zeta in Fi.
  rewrite Hinc, Hinit, Hd in Hc, Hf, Fi. cbn [negb andb orb] in Hc, Hf, Fi.
  rewrite (bool_decide_eq_false_2 _ Hrem) in Hf, Fi.
  rewrite (bool_decide_eq_false_2 _ Hlen) in Fi.
  assert (Hfull : chosen_iteration options_ Dnorm this = Full).
  { destruct (chosen_iteration options_ Dnorm this) eqn:Hch; [reflexivity|].
    apply (chosen_iteration_incremental _ _ _ Hinc) in Hch as (_ & ? & _). contradiction. }
  destruct (full_iteration_effects _ _ _ Hfull) as (HR & _). cbv zeta in HR.
  repeat split; try assumption; [congruence | now apply Hp].
Qed.

(** X9: with incremental Fock off, a call never touches the cache, the
    counter or the incremental flag; every iteration is full and its reference
    density is the current density. *)
Theorem incfock_off_is_inert (c : Collaborators) (options_ : Options)
    (Dnorm : float) (this final : CompositeJK) :
  incfock_ this = false ->
  compute_JK c options_ Dnorm this = Ok final ->
  chosen_iteration options_ Dnorm this = Full
  /\ D_prev_ final = D_prev_ this
  /\ incfock_count_ final = incfock_count_ this
  /\ do_incfock_iter_ final = do_incfock_iter_ this
  /\ D_ref_ final = D_ao_ this
  /\ incfock_ final = false.
Proof.
  intros Hinc Hrun.
  destruct (compute_JK_effects _ _ _ _ _ Hrun) as (_ & Hc & Hf & Hst & _ & Hp & Hr).
  rewrite Hinc in Hc, Hf. cbn [andb] in Hc.
  assert (Hfull : chosen_iteration options_ Dnorm this = Full).
  { unfold chosen_iteration. now rewrite Hinc. }
  destruct (full_iteration_effects _ _ _ Hfull) as (HR & _). cbv zeta in HR.
  unfold statics in Hst. cbn in Hst. injection Hst as _ _ _ Hi _ _ _ _ _ _.
  repeat split; try assumption; [now apply Hp | congruence | congruence].
Qed.

End Controller.

Section Cadence.

Import Notions.
Import Num Mints JK Example.
Local Open Scope nat_scope.
Local Open Scope list_scope.

(** The kind of the iteration whose call finds the counter at [n]. *)
Lemma chosen_by_count (options_ : Options) (Dnorm : float) (this : CompositeJK) :
  incfock_ this = true ->
  initial_iteration_ this = false ->
  length (D_prev_ this) = length (D_ao_ this) ->
  fge Dnorm (INCFOCK_CONVERGENCE options_) = true ->
  chosen_iteration options_ Dnorm this
  = cadence_kind (INCFOCK_FULL_FOCK_EVERY options_) (incfock_count_ this).
Proof.
  intros Hinc Hinit Hlen Hd. unfold cadence_kind.
  pose proof (chosen_iteration_incremental options_ Dnorm this Hinc) as Hiff.
  destruct (bool_decide_reflect
              (Z.rem (incfock_count_ this) (INCFOCK_FULL_FOCK_EVERY options_)
               = (INCFOCK_FULL_FOCK_EVERY options_ - 1)%Z)) as [Hr|Hr].
  - destruct (chosen_iteration options_ Dnorm this); [reflexivity|].
    destruct Hiff as (Hiff & _). destruct (Hiff eq_refl) as (_ & _ & _ & ?).
    contradiction.
  - apply Hiff. repeat split; assumption.
Qed.

(** X8: in a run of calls after the first one, each with SCF D NORM at or
    above the floor and with the channel count unchanged, no call throws, the
    counter goes up by one per call, and the call that finds the counter at [n]
    is a full iteration exactly when [n % reset = reset - 1]: one full build
    in every [reset] calls. *)
Theorem full_build_cadence (c : Collaborators) (options_ : Options)
    (Dnorms : list float) (this : CompositeJK) :
  incfock_ this = true ->
  initial_iteration_ this = false ->
  do_wK_ this = false ->
  (do_K_ this = true -> k_type_ this = "LINK" -> lr_symmetric_ this = true) ->
  length (D_prev_ this) = length (D_ao_ this) ->
  Forall (fun Dnorm => fge Dnorm (INCFOCK_CONVERGENCE options_) = true) Dnorms ->
  (run c options_ Dnorms this).1
  = map (fun i => cadence_kind (INCFOCK_FULL_FOCK_EVERY options_)
                    (incfock_count_ this + Z.of_nat i)%Z)
        (seq 0 (length Dnorms))
  /\ incfock_count_ (run c options_ Dnorms this).2
     = (incfock_count_ this + Z.of_nat (length Dnorms))%Z.
Proof.
  revert this. induction Dnorms as [|Dnorm rest IH];
    intros this Hinc Hinit Hw Hsym Hlen Hall.
  { cbn. split; [reflexivity | lia]. }
  apply Forall_cons in Hall as (Hd & Hall).
  destruct (compute_JK_returns c options_ Dnorm this Hw Hsym) as (next & Hnext).
  destruct (compute_JK_effects _ _ _ _ _ Hnext) as (Hi & Hc & _ & Hst & Hp & _ & _).
  rewrite Hinc, Hinit, Hd in Hc. cbn [negb andb] in Hc.
  unfold statics in Hst. cbn in Hst.
  injection Hst as HD _ _ Hinc' _ HK Hw' _ Hk Hl.
  assert (Hlen' : length (D_prev_ next) = length (D_ao_ next)).
  { rewrite Hp by exact Hinc. now rewrite HD. }
  assert (Hsym' : do_K_ next = true -> k_type_ next = "LINK" -> lr_symmetric_ next = true).
  { rewrite HK, Hk, Hl. exact Hsym. }
  destruct (IH next) as (IHk & IHc); try assumption; try congruence.
  cbn [run]. rewrite Hnext.
  destruct (run c options_ rest next) as [kinds last] eqn:Hrun.
  cbn [fst snd] in *. split.
  - cbn [length seq map]. rewrite Z.add_0_r.
    rewrite (chosen_by_count options_ Dnorm this Hinc Hinit Hlen Hd).
    f_equal. rewrite IHk, Hc, <- seq_shift, map_map.
    apply map_ext. intros i. f_equal. lia.
  - rewrite IHc, Hc. cbn [length]. lia.
Qed.

End Cadence.

(** * Further properties of the J builder *)

Section JBuilder.

Import Notions.
Import Num Mints DirectDFJ.
Local Open Scope nat_scope.
Local Open Scope list_scope.

Lemma filter_length_bound {A} (f : A -> bool) (l : list A) :
  length (List.filter f l) <= length l.
Proof. induction l as [|a l IH]; cbn; [lia|]. destruct (f a); cbn; lia. Qed.

Lemma forward_count (c : Collaborators) (D : list Matrix) (Dsh : Matrix)
    (diag : Vector) (thresh2 : float) (l : list nat) (GT : list (list Vector)) (n : nat) :
  (fold_left (forward_triplet c D Dsh diag thresh2) l (GT, n)).2
  = n + length (List.filter (computed1 c Dsh diag thresh2) l).
Proof.
  revert GT n. induction l as [|MNP l IH]; intros GT n; [cbn; lia|].
  cbn [fold_left List.filter].
  assert (Hstep : exists GT', forward_triplet c D Dsh diag thresh2 (GT, n) MNP
                              = (GT', if computed1 c Dsh diag thresh2 MNP then S n else n)).
  { unfold forward_triplet, computed1. destruct (triplet_of c MNP) as [[P M] N].
    destruct (skip_triplet1 c Dsh diag thresh2 P M N); cbn [negb]; eauto. }
  destruct Hstep as (GT' & ->). rewrite IH.
  destruct (computed1 c Dsh diag thresh2 MNP); cbn [length]; lia.
Qed.

Lemma back_count (c : Collaborators) (H : list Vector) (Hmax diag : Vector)
    (thresh2 : float) (l : list nat) (JT : list (list Matrix)) (n : nat) :
  (fold_left (back_triplet c H Hmax diag thresh2) l (JT, n)).2
  = n + length (List.filter (computed2 c Hmax diag thresh2) l).
Proof.
  revert JT n. induction l as [|MNP l IH]; intros JT n; [cbn; lia|].
  cbn [fold_left List.filter].
  assert (Hstep : exists JT', back_triplet c H Hmax diag thresh2 (JT, n) MNP
                              = (JT', if computed2 c Hmax diag thresh2 MNP then S n else n)).
  { unfold back_triplet, computed2. destruct (triplet_of c MNP) as [[P M] N].
    destruct (skip_triplet2 c Hmax diag thresh2 P M N); cbn [negb]; eauto. }
  destruct Hstep as (JT' & ->). rewrite IH.
  destruct (computed2 c Hmax diag thresh2 MNP); cbn [length]; lia.
Qed.

(** X10: the benchmark counter of the J builder counts the shell triplets
    that were not screened out, in the first and in the last contraction, and
    nothing else: the counter of each contraction is the number of triplet
    indices whose test fails to skip, so [num_computed_shells_] is at most
    twice the number of triplets. *)
Theorem triplet_counters (c : Collaborators) (nthreads_ : nat) (J_metric_ : Matrix)
    (INTS_TOLERANCE : float) (D J : list Matrix) :
  let nshelltriplet := nshell (auxiliary_ c) * length (shell_pairs (eri3 c)) in
  let thresh2 := (INTS_TOLERANCE * INTS_TOLERANCE)%float in
  let diag := J_metric_shell_diag c J_metric_ in
  let first := forward_contraction c nthreads_ D (Dshell c D) diag thresh2 in
  let H := metric_solve c J_metric_ first.1 in
  let last := back_contraction c nthreads_ H (H_shell_max c H) diag thresh2 in
  first.2 = length (List.filter (computed1 c (Dshell c D) diag thresh2)
                      (seq 0 nshelltriplet))
  /\ last.2 = length (List.filter (computed2 c (H_shell_max c H) diag thresh2)
                        (seq 0 nshelltriplet))
  /\ (build_DirectDFJ c nthreads_ J_metric_ INTS_TOLERANCE D J).2 = first.2 + last.2
  /\ (build_DirectDFJ c nthreads_ J_metric_ INTS_TOLERANCE D J).2 <= 2 * nshelltriplet.
Proof.
  cbv zeta.
  set (n := nshell (auxiliary_ c) * length (shell_pairs (eri3 c))).
  set (thresh2 := (INTS_TOLERANCE * INTS_TOLERANCE)%float).
  set (diag := J_metric_shell_diag c J_metric_).
  assert (H1 : (forward_contraction c nthreads_ D (Dshell c D) diag thresh2).2
               = length (List.filter (computed1 c (Dshell c D) diag thresh2) (seq 0 n))).
  { unfold forward_contraction. now rewrite forward_count. }
  set (H := metric_solve c J_metric_
              (forward_contraction c nthreads_ D (Dshell c D) diag thresh2).1).
  assert (H2 : (back_contraction c nthreads_ H (H_shell_max c H) diag thresh2).2
               = length (List.filter (computed2 c (H_shell_max c H) diag thresh2) (seq 0 n))).
  { unfold back_contraction. now rewrite back_count. }
  assert (H3 : (build_DirectDFJ c nthreads_ J_metric_ INTS_TOLERANCE D J).2
               = (forward_contraction c nthreads_ D (Dshell c D) diag thresh2).2
                 + (back_contraction c nthreads_ H (H_shell_max c H) diag thresh2).2).
  { unfold build_DirectDFJ, H. fold thresh2 diag.
    destruct (forward_contraction c nthreads_ D (Dshell c D) diag thresh2) as [GT c1].
    cbn [fst snd].
    destruct (back_contraction c nthreads_ _ _ diag thresh2) as [JT c2]. reflexivity. }
  repeat split; [exact H1 | exact H2 | exact H3 |].
  rewrite H3, H1, H2.
  pose proof (filter_length_bound (computed1 c (Dshell c D) diag thresh2) (seq 0 n)).
  pose proof (filter_length_bound (computed2 c (H_shell_max c H) diag thresh2) (seq 0 n)).
  rewrite length_seq in *. lia.
Qed.

Lemma thread_G_cons (c : Collaborators) (D : list Matrix) (Dsh : Matrix)
    (diag : Vector) (thresh2 : float) (jki rank MNP : nat) (l : list nat) (G : Vector) :
  thread_G c D Dsh diag thresh2 jki rank (MNP :: l) G
  = thread_G c D Dsh diag thresh2 jki rank l
      (thread_G c D Dsh diag thresh2 jki rank [MNP] G).
Proof. reflexivity. Qed.

(** The buffer of one thread through the first parallel loop. *)
Lemma forward_thread (c : Collaborators) (D : list Matrix) (Dsh : Matrix)
    (diag : Vector) (thresh2 : float) (jki rank : nat) (l : list nat)
    (GT : list (list Vector)) (n : nat) (row : list Vector) (g : Vector) :
  GT !! jki = Some row -> row !! rank = Some g ->
  exists row',
    (fold_left (forward_triplet c D Dsh diag thresh2) l (GT, n)).1 !! jki = Some row'
    /\ length row' = length row
    /\ row' !! rank = Some (thread_G c D Dsh diag thresh2 jki rank l g).
Proof.
  revert GT n row g. induction l as [|MNP l IH]; intros GT n row g HGT Hrow.
  { exists row. repeat split; assumption. }
  cbn [fold_left]. rewrite thread_G_cons.
  unfold forward_triplet at 2, thread_G at 2, computed1. cbn [fold_left].
  destruct (triplet_of c MNP) as [[P M] N].
  destruct (skip_triplet1 c Dsh diag thresh2 P M N); cbn [negb andb].
  { apply (IH GT n row g HGT Hrow). }
  set (f := contract_G c (compute_shell (eri3 c) P 0 M N).2 (default [] (D !! jki)) P M N).
  assert (HGT' : imap (fun jki GTjki =>
                         alter (contract_G c (compute_shell (eri3 c) P 0 M N).2
                                  (default [] (D !! jki)) P M N)
                           (omp_get_thread_num c MNP) GTjki) GT !! jki
                 = Some (alter f (omp_get_thread_num c MNP) row)).
  { rewrite list_lookup_imap, HGT. reflexivity. }
  destruct (Nat.eqb_spec (omp_get_thread_num c MNP) rank) as [He|He].
  - destruct (IH _ (S n) _ (f g) HGT') as (row' & H1 & H2 & H3).
    { rewrite He, list_lookup_alter_eq, Hrow. reflexivity. }
    exists row'. rewrite length_alter in H2. repeat split; assumption.
  - destruct (IH _ (S n) _ g HGT') as (row' & H1 & H2 & H3).
    { rewrite list_lookup_alter_ne by exact He. exact Hrow. }
    exists row'. rewrite length_alter in H2. repeat split; assumption.
Qed.

(** X11: in the first contraction every thread owns its [G] buffers. After
    the loop the buffer of thread [rank] for channel [jki] holds what the
    triplets run by this thread and not screened out add to a zeroed buffer,
    in the order the thread ran them; no triplet of another thread has written
    to it. *)
Theorem thread_owns_its_buffer (c : Collaborators) (nthreads_ : nat)
    (D : list Matrix) (Dsh : Matrix) (diag : Vector) (thresh2 : float)
    (jki rank : nat) :
  jki < length D -> rank < nthreads_ ->
  exists GTjki,
    (forward_contraction c nthreads_ D Dsh diag thresh2).1 !! jki = Some GTjki
    /\ length GTjki = nthreads_
    /\ GTjki !! rank
       = Some (thread_G c D Dsh diag thresh2 jki rank
                 (seq 0 (nshell (auxiliary_ c) * length (shell_pairs (eri3 c))))
                 (vzero (nbf (auxiliary_ c)))).
Proof.
  intros Hjki Hrank. unfold forward_contraction.
  destruct (forward_thread c D Dsh diag thresh2 jki rank
              (seq 0 (nshell (auxiliary_ c) * length (shell_pairs (eri3 c))))
              (replicate (length D) (replicate nthreads_ (vzero (nbf (auxiliary_ c)))))
              0 (replicate nthreads_ (vzero (nbf (auxiliary_ c))))
              (vzero (nbf (auxiliary_ c))))
    as (row' & H1 & H2 & H3).
  - now apply lookup_replicate_2.
  - now apply lookup_replicate_2.
  - exists row'. rewrite length_replicate in H2. repeat split; assumption.
Qed.

Lemma imap_id {A} (f : nat -> A -> A) (l : list A) :
  (forall i x, l !! i = Some x -> f i x = x) -> imap f l = l.
Proof.
  intros Hf. apply list_eq. intros i. rewrite list_lookup_imap.
  destruct (l !! i) as [x|] eqn:Hx; [cbn; f_equal; now apply Hf | reflexivity].
Qed.

(** X12: the J builder writes one matrix per density channel. The list of J
    matrices keeps its length, and a J matrix beyond the number of densities
    is returned as it was, without being symmetrized. *)
Theorem J_builder_channels (c : Collaborators) (nthreads_ : nat) (J_metric_ : Matrix)
    (INTS_TOLERANCE : float) (D J : list Matrix) :
  length (build_DirectDFJ c nthreads_ J_metric_ INTS_TOLERANCE D J).1 = length J
  /\ (forall jki, length D <= jki ->
        (build_DirectDFJ c nthreads_ J_metric_ INTS_TOLERANCE D J).1 !! jki = J !! jki)
  /\ (D = [] -> (build_DirectDFJ c nthreads_ J_metric_ INTS_TOLERANCE D J).1 = J).
Proof.
  destruct (build_DirectDFJ_reduce c nthreads_ J_metric_ INTS_TOLERANCE D J)
    as (JT & Hlen & ->).
  unfold reduce_J. split; [apply length_imap|]. split.
  - intros jki Hjki. rewrite list_lookup_imap.
    destruct (J !! jki) as [Jm|]; [cbn|reflexivity].
    rewrite (lookup_ge_None_2 JT jki) by lia. reflexivity.
  - intros ->. apply imap_id. intros i x _.
    rewrite (lookup_ge_None_2 JT i) by (cbn in Hlen; lia). reflexivity.
Qed.

End JBuilder.

(** * Further properties of LinK *)

Section LinKLists.

Import Notions.
Import Num Mints LinK.
Local Open Scope nat_scope.
Local Open Scope list_scope.

Lemma in_map_fst_bind {B} (n : nat) (keep : nat -> bool) (val : nat -> B) (x : nat) :
  In x (map fst (y ← seq 0 n; if keep y then [(y, val y)] else []))
  <-> x < n /\ keep x = true.
Proof.
  rewrite in_map_iff. split.
  - intros ([y v] & <- & Hin). apply list_elem_of_In, list_elem_of_bind in Hin.
    destruct Hin as (z & Hz & Hzin). apply elem_of_seq in Hzin.
    destruct (keep z) eqn:Hk; [|now apply elem_of_nil in Hz].
    apply list_elem_of_singleton in Hz. injection Hz as -> ->. cbn. split; [lia | exact Hk].
  - intros (Hx & Hk). exists (x, val x). split; [reflexivity|].
    apply list_elem_of_In, list_elem_of_bind. exists x. split.
    + rewrite Hk. apply list_elem_of_singleton. reflexivity.
    + apply elem_of_seq. lia.
Qed.

Lemma significant_bras_members (c : Collaborators) (cutoff_ : float) (P : nat) :
  (forall l, std_sort c l ≡ₚ l) ->
  P < nshell (primary_ c) ->
  forall Q,
    Q ∈ default [] (significant_bras c cutoff_ !! P)
    <-> Q < nshell (primary_ c)
        /\ fge (PrimFloat.sqrt
                  (PrimFloat.sqrt (shell_ceiling2 (eri4 c) P Q P Q)
                   * max_integral (eri4 c))%float) cutoff_ = true.
Proof.
  intros Hsort HP Q. unfold significant_bras.
  rewrite lookup_map, lookup_seq_lt by exact HP.
  cbn [fmap option_fmap option_map default Nat.add].
  rewrite list_elem_of_In.
  rewrite <- (in_map_fst_bind (nshell (primary_ c))
                (fun Q => fge (PrimFloat.sqrt
                                 (PrimFloat.sqrt (shell_ceiling2 (eri4 c) P Q P Q)
                                  * max_integral (eri4 c))%float) cutoff_)
                (fun Q => PrimFloat.sqrt
                            (PrimFloat.sqrt (shell_ceiling2 (eri4 c) P Q P Q)
                             * max_integral (eri4 c))%float) Q).
  split; apply Permutation_in, Permutation_map; [|symmetry]; apply Hsort.
Qed.

Lemma significant_kets_members (c : Collaborators) (Dscreen : list Matrix)
    (linK_ints_cutoff_ : float) (P : nat) :
  (forall l, std_sort c l ≡ₚ l) ->
  P < nshell (primary_ c) ->
  forall R,
    R ∈ default [] (significant_kets c Dscreen linK_ints_cutoff_ !! P)
    <-> R < nshell (primary_ c)
        /\ fge (vget (shell_ceilings c) P * vget (shell_ceilings c) R
                * shell_pair_max_density (eri4 c) Dscreen P R)%float
               linK_ints_cutoff_ = true.
Proof.
  intros Hsort HP R. unfold significant_kets.
  rewrite lookup_map, lookup_seq_lt by exact HP.
  cbn [fmap option_fmap option_map default Nat.add].
  rewrite list_elem_of_In.
  rewrite <- (in_map_fst_bind (nshell (primary_ c))
                (fun R => fge (vget (shell_ceilings c) P * vget (shell_ceilings c) R
                               * shell_pair_max_density (eri4 c) Dscreen P R)%float
                              linK_ints_cutoff_)
                (fun R => (vget (shell_ceilings c) P * vget (shell_ceilings c) R
                           * shell_pair_max_density (eri4 c) Dscreen P R)%float) R).
  split; apply Permutation_in, Permutation_map; [|symmetry]; apply Hsort.
Qed.

(** X13: provided [std::sort] permutes its input, the pre-ordered lists hold
    exactly the shells whose bound reaches the cutoff: [Q] is in
    [significant_bras[P]] exactly when the Schwarz value of the pair
    [sqrt(sqrt((PQ|PQ) ceiling) * max_integral)] is at least [cutoff_], and [R]
    is in [significant_kets[P]] exactly when
    [shell_ceilings[P] * shell_ceilings[R] * shell_pair_max_density(P, R)] is at
    least [linK_ints_cutoff_]; every entry is a shell of the basis. *)
Theorem significant_lists_hold_what_passes (c : Collaborators) (Dscreen : list Matrix)
    (cutoff_ linK_ints_cutoff_ : float) (P : nat) :
  (forall l, std_sort c l ≡ₚ l) ->
  P < nshell (primary_ c) ->
  (forall Q,
      Q ∈ default [] (significant_bras c cutoff_ !! P)
      <-> Q < nshell (primary_ c)
          /\ fge (PrimFloat.sqrt
                    (PrimFloat.sqrt (shell_ceiling2 (eri4 c) P Q P Q)
                     * max_integral (eri4 c))%float) cutoff_ = true)
  /\ (forall R,
      R ∈ default [] (significant_kets c Dscreen linK_ints_cutoff_ !! P)
      <-> R < nshell (primary_ c)
          /\ fge (vget (shell_ceilings c) P * vget (shell_ceilings c) R
                  * shell_pair_max_density (eri4 c) Dscreen P R)%float
                 linK_ints_cutoff_ = true).
Proof.
  intros Hsort HP. split.
  - now apply significant_bras_members.
  - now apply significant_kets_members.
Qed.

Lemma atom_pair_found_spec (c : Collaborators) (Patom Qatom : nat) :
  atom_pair_found c Patom Qatom = true
  <-> exists P Q,
        at_ (shell_endpoints_for_atom c) Patom <= P < at_ (shell_endpoints_for_atom c) (S Patom)
        /\ at_ (shell_endpoints_for_atom c) Qatom <= Q
           < at_ (shell_endpoints_for_atom c) (S Qatom)
        /\ shell_pair_significant (eri4 c) P Q = true.
Proof.
  unfold atom_pair_found. rewrite existsb_exists. split.
  - intros (P & HP & HPQ). apply existsb_exists in HPQ as (Q & HQ & Hs).
    apply in_seq in HP. apply in_seq in HQ. exists P, Q. repeat split; try lia. exact Hs.
  - intros (P & Q & HP & HQ & Hs). exists P. split; [apply in_seq; lia|].
    apply existsb_exists. exists Q. split; [apply in_seq; lia | exact Hs].
Qed.

Lemma atom_pairs_lower_triangle_aux (c : Collaborators) (Patom Qatom : nat) :
  (Patom, Qatom) ∈ atom_pairs c
  <-> Patom < natom c /\ Qatom <= Patom
      /\ exists P Q,
           at_ (shell_endpoints_for_atom c) Patom <= P
             < at_ (shell_endpoints_for_atom c) (S Patom)
           /\ at_ (shell_endpoints_for_atom c) Qatom <= Q
              < at_ (shell_endpoints_for_atom c) (S Qatom)
           /\ shell_pair_significant (eri4 c) P Q = true.
Proof.
  rewrite <- atom_pair_found_spec. unfold atom_pairs.
  rewrite list_elem_of_bind. split.
  - intros (Pa & Hin & HPa). apply elem_of_seq in HPa.
    apply list_elem_of_bind in Hin as (Qa & Hin & HQa). apply elem_of_seq in HQa.
    destruct (atom_pair_found c Pa Qa) eqn:Hf; [|now apply elem_of_nil in Hin].
    apply list_elem_of_singleton in Hin. injection Hin as -> ->.
    repeat split; [lia | lia | exact Hf].
  - intros (HP & HQ & Hf). exists Patom. split; [|apply elem_of_seq; lia].
    apply list_elem_of_bind. exists Qatom. split; [|apply elem_of_seq; lia].
    rewrite Hf. now apply list_elem_of_singleton.
Qed.

(** X14: the worklist of the master loop holds the atom pairs of the lower
    triangle (the second atom not above the first) that own at least one
    significant shell pair, each of them once. *)
Theorem atom_pairs_lower_triangle (c : Collaborators) :
  (forall Patom Qatom,
      (Patom, Qatom) ∈ atom_pairs c
      <-> Patom < natom c /\ Qatom <= Patom
          /\ exists P Q,
               at_ (shell_endpoints_for_atom c) Patom <= P
                 < at_ (shell_endpoints_for_atom c) (S Patom)
               /\ at_ (shell_endpoints_for_atom c) Qatom <= Q
                  < at_ (shell_endpoints_for_atom c) (S Qatom)
               /\ shell_pair_significant (eri4 c) P Q = true)
  /\ NoDup (atom_pairs c).
Proof.
  split.
  - apply atom_pairs_lower_triangle_aux.
  - unfold atom_pairs. apply NoDup_bind; [| |apply NoDup_seq].
    + intros P1 P2 [Pa Qa] _ _ H1 H2.
      apply list_elem_of_bind in H1 as (Q1 & H1 & _).
      apply list_elem_of_bind in H2 as (Q2 & H2 & _).
      destruct (atom_pair_found c P1 Q1); [|now apply elem_of_nil in H1].
      destruct (atom_pair_found c P2 Q2); [|now apply elem_of_nil in H2].
      apply list_elem_of_singleton in H1, H2. congruence.
    + intros Pa _. apply NoDup_bind; [| |apply NoDup_seq].
      * intros Q1 Q2 [Pa' Qa] _ _ H1 H2.
        destruct (atom_pair_found c Pa Q1); [|now apply elem_of_nil in H1].
        destruct (atom_pair_found c Pa Q2); [|now apply elem_of_nil in H2].
        apply list_elem_of_singleton in H1, H2. congruence.
      * intros Qa _. destruct (atom_pair_found c Pa Qa); [apply NoDup_singleton | apply NoDup_nil_2].
Qed.

(** X15: when the engine finds no shell pair significant, the worklist is
    empty: LinK computes no quartet and returns every K with nothing added,
    only symmetrized. *)
Theorem nothing_significant_nothing_built (c : Collaborators) (nthread : nat)
    (cutoff_ linK_ints_cutoff_ : float) (D Dscreen K : list Matrix) :
  (forall P Q, shell_pair_significant (eri4 c) P Q = false) ->
  atom_pairs c = []
  /\ build_linK c nthread true cutoff_ linK_ints_cutoff_ D Dscreen K
     = Ok (map (hermitivitize c) K, 0).
Proof.
  intros Hnone.
  assert (Hpairs : atom_pairs c = []).
  { apply elem_of_nil_inv. intros [Pa Qa] Hin.
    apply (proj1 (atom_pairs_lower_triangle_aux c Pa Qa)) in Hin
      as (_ & _ & P & Q & _ & _ & Hs).
    rewrite Hnone in Hs. discriminate. }
  split; [exact Hpairs|].
  unfold build_linK, master_loop. cbn [negb]. rewrite Hpairs. reflexivity.
Qed.

End LinKLists.

Section CanonicalPairs.

Import Notions.
Import Num Mints LinK.
Local Open Scope nat_scope.
Local Open Scope list_scope.

Lemma keep_pair_canonical (nsh : nat) (ch : chain) (P Q dP dQ R S : nat) (st : MLState) :
  R < nsh -> S < nsh ->
  canonical_for nsh P Q (ML_PQ st) ->
  canonical_for nsh P Q (ML_PQ (keep_pair nsh ch P Q dP dQ R S st)).
Proof.
  intros HR HS Hst. unfold keep_pair.
  destruct (decide (P * nsh + Q
                    < (if decide (S ≤ R) then R * nsh + S else S * nsh + R))) as [_|Hle];
    [exact Hst|].
  cbn [ML_PQ]. intros RS Hin. apply elem_of_union in Hin as [Hin|Hin]; [|now apply Hst].
  apply elem_of_singleton in Hin. subst RS.
  split; [lia|].
  destruct (decide (S ≤ R)) as [Hc|Hc].
  - rewrite <- (Nat.div_unique (R * nsh + S) nsh R S) by lia.
    rewrite <- (Nat.mod_unique (R * nsh + S) nsh R S) by lia. lia.
  - rewrite <- (Nat.div_unique (S * nsh + R) nsh S R) by lia.
    rewrite <- (Nat.mod_unique (S * nsh + R) nsh S R) by lia. lia.
Qed.

Lemma walk_bras_canonical (c : Collaborators) (Dscreen : list Matrix) (cutoff : float)
    (nsh : nat) (ch : chain) (P Q dP dQ R : nat) (bras : list nat) (sig : bool)
    (st : MLState) :
  R < nsh -> Forall (fun S => S < nsh) bras ->
  canonical_for nsh P Q (ML_PQ st) ->
  canonical_for nsh P Q
    (ML_PQ (walk_bras c Dscreen cutoff nsh ch P Q dP dQ R bras sig st).2).
Proof.
  intros HR. revert sig st. induction bras as [|S_ rest IH]; intros sig st Hall Hst.
  { exact Hst. }
  apply Forall_cons in Hall as (HS & Hall). cbn [walk_bras].
  destruct (passes_cutoff c Dscreen cutoff ch P Q R S_); [|exact Hst].
  apply IH; [exact Hall|]. now apply keep_pair_canonical.
Qed.

Lemma walk_kets_canonical (c : Collaborators) (Dscreen : list Matrix) (cutoff : float)
    (nsh : nat) (bras_of : list (list nat)) (ch : chain) (P Q dP dQ : nat)
    (kets : list nat) (st : MLState) :
  Forall (Forall (fun S => S < nsh)) bras_of ->
  Forall (fun R => R < nsh) kets ->
  canonical_for nsh P Q (ML_PQ st) ->
  canonical_for nsh P Q
    (ML_PQ (walk_kets c Dscreen cutoff nsh bras_of ch P Q dP dQ kets st)).
Proof.
  intros Hbras. revert st. induction kets as [|R rest IH]; intros st Hall Hst.
  { exact Hst. }
  apply Forall_cons in Hall as (HR & Hall). cbn [walk_kets].
  assert (Hl : Forall (fun S => S < nsh) (default [] (bras_of !! R))).
  { destruct (bras_of !! R) as [l|] eqn:Hl; [|constructor].
    exact (proj1 (Forall_lookup _ _) Hbras R l Hl). }
  pose proof (walk_bras_canonical c Dscreen cutoff nsh ch P Q dP dQ R _ false st HR Hl Hst)
    as Hw.
  destruct (walk_bras c Dscreen cutoff nsh ch P Q dP dQ R (default [] (bras_of !! R)) false st)
    as [sig st'].
  cbn [snd] in Hw. destruct sig; [|exact Hw]. now apply IH.
Qed.

(** X16: provided [std::sort] permutes its input, every ket pair that the two
    chain walks of a bra pair [(P, Q)] put into [ML_PQ] is in canonical order:
    its index is at most [P * nshell + Q], and it decodes, as the quartet
    loop decodes it, to shells [S <= R] of the basis. *)
Theorem ML_PQ_is_canonical (c : Collaborators) (Dscreen : list Matrix)
    (cutoff_ linK_ints_cutoff_ : float) (P Q dP dQ : nat)
    (Pl Ql : list (gset nat)) (calls : list (nat * nat * nat * nat)) :
  (forall l, std_sort c l ≡ₚ l) ->
  canonical_for (nshell (primary_ c)) P Q
    (ML_PQ (form_ML_PQ c Dscreen linK_ints_cutoff_
              (significant_bras c cutoff_)
              (significant_kets c Dscreen linK_ints_cutoff_) P Q dP dQ Pl Ql calls)).
Proof.
  intros Hsort.
  assert (Hb : Forall (Forall (fun S => S < nshell (primary_ c)))
                 (significant_bras c cutoff_)).
  { apply Forall_lookup. intros P' l Hl. apply Forall_forall. intros S_ HS.
    assert (HP' : P' < nshell (primary_ c)).
    { apply lookup_lt_Some in Hl. unfold significant_bras in Hl.
      now rewrite length_map, length_seq in Hl. }
    destruct (significant_bras_members c cutoff_ P' Hsort HP' S_) as (Hm & _).
    rewrite Hl in Hm. now apply Hm. }
  assert (Hk : Forall (Forall (fun R => R < nshell (primary_ c)))
                 (significant_kets c Dscreen linK_ints_cutoff_)).
  { apply Forall_lookup. intros P' l Hl. apply Forall_forall. intros R HR.
    assert (HP' : P' < nshell (primary_ c)).
    { apply lookup_lt_Some in Hl. unfold significant_kets in Hl.
      now rewrite length_map, length_seq in Hl. }
    destruct (significant_kets_members c Dscreen linK_ints_cutoff_ P' Hsort HP' R)
      as (Hm & _).
    rewrite Hl in Hm. now apply Hm. }
  assert (Hdef : forall (ls : list (list nat)) i,
             Forall (Forall (fun R => R < nshell (primary_ c))) ls ->
             Forall (fun R => R < nshell (primary_ c)) (default [] (ls !! i))).
  { intros ls i Hls. destruct (ls !! i) as [l|] eqn:Hl; [|constructor].
    exact (proj1 (Forall_lookup _ _) Hls i l Hl). }
  unfold form_ML_PQ.
  apply walk_kets_canonical; [exact Hb | now apply Hdef|].
  apply walk_kets_canonical; [exact Hb | now apply Hdef|].
  cbn [ML_PQ]. intros RS Hin. now apply elem_of_empty in Hin.
Qed.

End CanonicalPairs.

Section AtomBlocks.

Import Notions.
Import Num Mints LinK.
Local Open Scope nat_scope.
Local Open Scope list_scope.

Lemma increasing_snoc (l : list nat) (x : nat) :
  increasing l -> Forall (fun a => a < x) l -> increasing (l ++ [x]).
Proof.
  intros Hl Hx i j a b Hij Hi Hj.
  apply lookup_app_Some in Hj as [Hj|(Hlen & Hj)].
  - apply lookup_app_Some in Hi as [Hi|(Hlen & _)].
    + exact (Hl i j a b Hij Hi Hj).
    + apply lookup_lt_Some in Hj. lia.
  - apply list_lookup_singleton_Some in Hj as (Hj0 & <-).
    apply lookup_app_Some in Hi as [Hi|(Hlen' & Hi)].
    + exact (proj1 (Forall_lookup _ _) Hx i a Hi).
    + apply list_lookup_singleton_Some in Hi as (? & _). lia.
Qed.

(** The scan of [shell_endpoints_for_atom] over the first [n] shells. *)
Lemma endpoint_scan (c : Collaborators) (n : nat) :
  let st := fold_left
    (fun (st : list nat * Z) (P : nat) =>
       let '(ends, atomic_ind) := st in
       if decide (atomic_ind < Z.of_nat (ncenter (shell (primary_ c) P)))%Z
       then (ends ++ [P], (atomic_ind + 1)%Z)
       else st)
    (seq 0 n) ([], (-1)%Z) in
  increasing st.1 /\ Forall (fun a => a < n) st.1 /\ length st.1 <= n
  /\ (0 < n -> st.1 !! 0 = Some 0)
  /\ st.2 = (Z.of_nat (length st.1) - 1)%Z.
Proof.
  induction n as [|n IH]; cbv zeta.
  { cbn. repeat split; try lia; [|constructor].
    intros i j a b _ Hi. destruct i; discriminate. }
  rewrite seq_S, fold_left_app. cbn [fold_left Nat.add]. cbv zeta in IH.
  destruct (fold_left _ (seq 0 n) ([], (-1)%Z)) as [ends ai].
  cbn [fst snd] in IH. destruct IH as (Hinc & Hall & Hlen & Hhead & Hai).
  destruct (decide (ai < Z.of_nat (ncenter (shell (primary_ c) n)))%Z) as [Hlt|Hge];
    cbn [fst snd].
  - repeat split.
    + now apply increasing_snoc.
    + apply Forall_app. split; [|repeat constructor].
      eapply Forall_impl; [exact Hall|]. cbn. intros; lia.
    + rewrite length_app. cbn. lia.
    + intros _. destruct n as [|n].
      * destruct ends as [|e ends]; [reflexivity|]. cbn in Hlen. lia.
      * rewrite lookup_app_l; [apply Hhead; lia|].
        specialize (Hhead ltac:(lia)). apply lookup_lt_Some in Hhead. exact Hhead.
    + rewrite length_app. cbn. lia.
  - repeat split; try assumption.
    + eapply Forall_impl; [exact Hall|]. cbn. intros; lia.
    + lia.
    + intros _. destruct n as [|n]; [|apply Hhead; lia].
      exfalso. destruct ends as [|e ends]; [|cbn in Hlen; lia].
      cbn in Hai. subst ai. apply Hge. lia.
Qed.

Lemma block_of (l : list nat) (P : nat) :
  (exists x, l !! 0 = Some x /\ x <= P) ->
  (exists y, last l = Some y /\ P < y) ->
  exists a, S a < length l /\ at_ l a <= P < at_ l (S a).
Proof.
  induction l as [|x l IH]; intros (x0 & Hx0 & Hle) (y & Hy & Hlt); [discriminate|].
  cbn in Hx0. injection Hx0 as ->.
  destruct l as [|x1 l].
  { cbn in Hy. injection Hy as ->. lia. }
  destruct (decide (P < x1)) as [H1|H1].
  - exists 0. cbn. unfold at_. cbn. lia.
  - destruct IH as (a & Ha & Hb).
    + exists x1. split; [reflexivity | lia].
    + exists y. split; [exact Hy | exact Hlt].
    + exists (S a). cbn [length] in *. split; [lia|]. exact Hb.
Qed.

(** X17: the atom blocks partition the shells. The list of block endpoints
    goes up strictly, starts at shell 0 when there is a shell and ends at
    [nshell]; there are at most as many blocks as shells, and every shell lies
    in exactly one block [ends[a] <= P < ends[a + 1]]. *)
Theorem atom_blocks_partition_shells (c : Collaborators) :
  let ends := shell_endpoints_for_atom c in
  increasing ends
  /\ last ends = Some (nshell (primary_ c))
  /\ (0 < nshell (primary_ c) -> ends !! 0 = Some 0)
  /\ length ends = S (natom c)
  /\ natom c <= nshell (primary_ c)
  /\ (forall P, P < nshell (primary_ c) ->
        exists a, a < natom c
                  /\ at_ ends a <= P < at_ ends (S a)
                  /\ forall a', a' < natom c ->
                       at_ ends a' <= P < at_ ends (S a') -> a' = a).
Proof.
  cbv zeta.
  assert (Hends : exists scan,
             shell_endpoints_for_atom c = scan ++ [nshell (primary_ c)]
             /\ increasing scan /\ Forall (fun a => a < nshell (primary_ c)) scan
             /\ length scan <= nshell (primary_ c)
             /\ (0 < nshell (primary_ c) -> scan !! 0 = Some 0)).
  { pose proof (endpoint_scan c (nshell (primary_ c))) as H. cbv zeta in H.
    unfold shell_endpoints_for_atom.
    destruct (fold_left _ (seq 0 (nshell (primary_ c))) ([], (-1)%Z)) as [scan ai].
    cbn [fst snd] in *. exists scan. destruct H as (? & ? & ? & ? & _).
    repeat split; assumption. }
  destruct Hends as (scan & Heq & Hinc & Hall & Hlen & Hhead).
  assert (Hnat : natom c = length scan).
  { unfold natom. rewrite Heq, length_app. cbn. lia. }
  assert (Hinc' : increasing (shell_endpoints_for_atom c)).
  { rewrite Heq. now apply increasing_snoc. }
  assert (Hlast : last (shell_endpoints_for_atom c) = Some (nshell (primary_ c))).
  { rewrite Heq. apply last_snoc. }
  assert (Hfirst : 0 < nshell (primary_ c) -> shell_endpoints_for_atom c !! 0 = Some 0).
  { intros Hn. rewrite Heq. rewrite lookup_app_l; [now apply Hhead|].
    specialize (Hhead Hn). now apply lookup_lt_Some in Hhead. }
  assert (Hlen' : length (shell_endpoints_for_atom c) = S (natom c)).
  { rewrite Heq, length_app, Hnat. cbn. lia. }
  repeat split; try assumption; [lia|].
  intros P HP.
  destruct (block_of (shell_endpoints_for_atom c) P) as (a & Ha & Hb).
  { exists 0. split; [apply Hfirst; lia | lia]. }
  { exists (nshell (primary_ c)). split; [exact Hlast | exact HP]. }
  exists a. split; [lia|]. split; [exact Hb|].
  intros a' Ha' Hb'.
  assert (Hget : forall i, i < S (natom c) ->
             shell_endpoints_for_atom c !! i = Some (at_ (shell_endpoints_for_atom c) i)).
  { intros i Hi. unfold at_.
    destruct (lookup_lt_is_Some_2 (shell_endpoints_for_atom c) i) as (x & ->); [lia|].
    reflexivity. }
  destruct (Nat.lt_trichotomy a' a) as [Hlt|[Heq'|Hgt]]; [|exact Heq'|].
  - exfalso.
    destruct (decide (S a' = a)) as [He|Hne].
    + subst a. lia.
    + pose proof (Hinc' (S a') a _ _ ltac:(lia) (Hget (S a') ltac:(lia)) (Hget a ltac:(lia))).
      lia.
  - exfalso.
    destruct (decide (S a = a')) as [He|Hne].
    + subst a'. lia.
    + pose proof (Hinc' (S a) a' _ _ ltac:(lia) (Hget (S a) ltac:(lia)) (Hget a' ltac:(lia))).
      lia.
Qed.

End AtomBlocks.

Section LinKChannels.

Import Notions.
Import Num Mints LinK.
Local Open Scope nat_scope.
Local Open Scope list_scope.

Lemma quartet_buffers (c : Collaborators) (D : list Matrix) (t : TaskFrame)
    (P Q : nat) (ts : TaskState) (RS : nat) :
  length (KTt (quartet c D t P Q ts RS)) = length (KTt ts).
Proof.
  unfold quartet.
  destruct (negb (shell_pair_significant (eri4 c) _ _)); [reflexivity|].
  destruct (negb (shell_significant (eri4 c) P Q _ _)); [reflexivity|].
  destruct (compute_shell (eri4 c) P Q _ _) as [ncomputed buffer].
  destruct (decide (ncomputed = 0)); [reflexivity|].
  cbn [KTt]. apply length_imap.
Qed.

Lemma bra_pair_buffers (c : Collaborators) (D Dscreen : list Matrix) (cutoff : float)
    (bras_of kets_of : list (list nat)) (t : TaskFrame) (ts : TaskState) (PQ : nat * nat) :
  length (KTt (bra_pair c D Dscreen cutoff bras_of kets_of t ts PQ)) = length (KTt ts).
Proof.
  unfold bra_pair. destruct PQ as [P Q].
  destruct (decide (P < Q)); [reflexivity|].
  destruct (negb (shell_pair_significant (eri4 c) P Q)); [reflexivity|].
  match goal with
  | |- length (KTt (fold_left _ ?l ?ts0)) = _ =>
      apply (fold_left_preserves
               (fun s : TaskState => length (KTt s) = length (KTt ts))
               (quartet c D t P Q) l ts0)
  end.
  - intros s RS Hs. now rewrite quartet_buffers.
  - reflexivity.
Qed.

(** X18: LinK adds exchange to one K matrix per density channel and
    symmetrizes every K matrix it was given. The list of K matrices keeps its
    length, and a K matrix beyond the number of densities comes back with
    nothing added, only symmetrized. *)
Theorem K_builder_channels (c : Collaborators) (nthread : nat)
    (cutoff_ linK_ints_cutoff_ : float) (D Dscreen K : list Matrix) :
  exists Kout n,
    build_linK c nthread true cutoff_ linK_ints_cutoff_ D Dscreen K = Ok (Kout, n)
    /\ length Kout = length K
    /\ forall ind, length D <= ind -> Kout !! ind = hermitivitize c <$> K !! ind.
Proof.
  unfold build_linK. cbn [negb].
  set (ms := master_loop c nthread cutoff_ linK_ints_cutoff_ D Dscreen K).
  exists (map (hermitivitize c) (Kmat ms)), (computed ms). split; [reflexivity|].
  assert (Hinv : length (Kmat ms) = length K
                 /\ (forall ind, length D <= ind -> Kmat ms !! ind = K !! ind)
                 /\ Forall (fun row : list Vector => length row <= length D) (KT ms)).
  { unfold ms, master_loop.
    apply (fold_left_preserves
             (fun s : MasterState =>
                length (Kmat s) = length K
                /\ (forall ind, length D <= ind -> Kmat s !! ind = K !! ind)
                /\ Forall (fun row : list Vector => length row <= length D) (KT s))).
    - intros s ipair (HlenK & Hbeyond & Hrows). unfold atom_pair_task.
      destruct (default (0, 0) (atom_pairs c !! ipair)) as [Patom Qatom].
      set (t := task_frame c Patom Qatom).
      set (thread := omp_get_thread_num c ipair).
      match goal with
      | |- context [fold_left ?f ?l ?ts0] =>
          assert (Hts : length (KTt (fold_left f l ts0)) <= length D);
          [|destruct (fold_left f l ts0) as [KTt0 touched0 ml0 computed0]]
      end.
      { match goal with
        | |- length (KTt (fold_left ?f ?l ?ts0)) <= _ =>
            apply (fold_left_preserves
                     (fun s' : TaskState => length (KTt s') <= length D) f l ts0)
        end.
        - intros s' PQ Hs'. now rewrite bra_pair_buffers.
        - cbn [KTt]. destruct (KT s !! thread) as [row|] eqn:Hrow; cbn; [|lia].
          exact (proj1 (Forall_lookup _ _) Hrows thread row Hrow). }
      cbn [KTt touched] in *. destruct touched0; cbn [negb].
      + unfold stripeout. cbn [KTt Kmat KT].
        split; [now rewrite length_imap|]. split.
        * intros ind Hind. rewrite list_lookup_imap, <- (Hbeyond ind Hind).
          destruct (Kmat s !! ind) as [Kp|]; [cbn|reflexivity].
          rewrite lookup_ge_None_2; [reflexivity|]. rewrite length_map. lia.
        * apply Forall_insert; [exact Hrows|]. rewrite length_map. exact Hts.
      + cbn [Kmat KT]. repeat split; assumption.
    - cbn [Kmat KT]. repeat split.
      apply Forall_replicate. rewrite length_replicate. lia. }
  destruct Hinv as (HlenK & Hbeyond & _).
  split; [now rewrite length_map|].
  intros ind Hind. now rewrite lookup_map, Hbeyond.
Qed.

End LinKChannels.

(** * The driver and the builders together *)

Section DriverOutputs.

Import Notions.
Import Num Mints JK.
Local Open Scope nat_scope.
Local Open Scope list_scope.

(** What was written through a list of distinct pointers is read back. *)
Lemma read_write_all (ls : list loc) (ms : list Matrix) (σ : gmap loc Matrix) :
  NoDup ls -> length ms = length ls ->
  read_all (write_all ls ms σ) ls = ms
  /\ forall l, l ∈ ls -> l ∈ dom (write_all ls ms σ).
Proof.
  unfold write_all, read_all. revert ms σ.
  induction ls as [|a ls IH]; intros ms σ Hnd Hlen.
  { destruct ms; [|discriminate]. split; [reflexivity|]. intros l Hl.
    now apply elem_of_nil in Hl. }
  destruct ms as [|m ms]; [discriminate|].
  apply NoDup_cons in Hnd as (Ha & Hnd). cbn in Hlen.
  cbn [zip zip_with fold_left fst snd map].
  destruct (IH ms (<[a := m]> σ) Hnd ltac:(lia)) as (IH1 & IH2).
  assert (Hlook : fold_left (fun σ lm => <[lm.1 := lm.2]> σ) (zip ls ms) (<[a := m]> σ) !! a
                  = Some m).
  { pose proof (write_all_other ls ms (<[a := m]> σ) a Ha) as Hw.
    unfold write_all in Hw. rewrite Hw. apply lookup_insert_eq. }
  split.
  - f_equal; [|exact IH1]. unfold read. now rewrite Hlook.
  - intros l Hl. apply elem_of_cons in Hl as [->|Hl]; [|now apply IH2].
    apply elem_of_dom. rewrite Hlook. eauto.
Qed.

(** The J matrices when the builders are done. *)
Lemma build_matrices_J (c : Collaborators) (options_ : Options)
    (this t : CompositeJK) :
  do_J_ this = true -> j_type_ this = "DFDIRJ" ->
  NoDup (J_ao_ this) ->
  (forall l, l ∈ J_ao_ this -> l ∉ K_ao_ this) ->
  build_matrices c options_ this = Ok t ->
  read_all (store t) (J_ao_ this)
  = (DirectDFJ.build_DirectDFJ c (nthreads_ this) (J_metric_ this)
       (INTS_TOLERANCE options_)
       (read_all (store this) (D_ref_ this)) (read_all (store this) (J_ao_ this))).1
  /\ forall l, l ∈ J_ao_ this -> l ∈ dom (store t).
Proof.
  intros HJ Hj Hnd Hdisj. unfold build_matrices.
  set (this1 := if density_screening_ this then _ else this).
  assert (H1 : this1 = set_eri_density_ (eri_density_ this1) this).
  { unfold this1. destruct (density_screening_ this); [reflexivity | now destruct this]. }
  assert (HdoJ : do_J_ this1 = true) by now rewrite H1.
  assert (Hjt : j_type_ this1 = "DFDIRJ") by now rewrite H1.
  rewrite HdoJ. rewrite (decide_True (P := j_type_ this1 = "DFDIRJ")) by exact Hjt.
  replace (nthreads_ this1) with (nthreads_ this) by now rewrite H1.
  replace (J_metric_ this1) with (J_metric_ this) by now rewrite H1.
  replace (store this1) with (store this) by now rewrite H1.
  replace (D_ref_ this1) with (D_ref_ this) by now rewrite H1.
  replace (J_ao_ this1) with (J_ao_ this) by now rewrite H1.
  destruct (build_DirectDFJ_reduce c (nthreads_ this) (J_metric_ this)
              (INTS_TOLERANCE options_) (read_all (store this) (D_ref_ this))
              (read_all (store this) (J_ao_ this))) as (JT & _ & Hred).
  destruct (DirectDFJ.build_DirectDFJ c (nthreads_ this) (J_metric_ this)
              (INTS_TOLERANCE options_) (read_all (store this) (D_ref_ this))
              (read_all (store this) (J_ao_ this))) as [J n].
  cbn [fst] in Hred |- *.
  assert (HlenJ : length J = length (J_ao_ this)).
  { rewrite Hred. unfold DirectDFJ.reduce_J, read_all.
    now rewrite length_imap, length_map. }
  destruct (read_write_all (J_ao_ this) J (store this) Hnd HlenJ) as (Hread & Hdom).
  set (σJ := write_all (J_ao_ this) J (store this)) in *.
  set (this2 := set_num_computed_shells_ n (set_store σJ this1)).
  assert (HK1 : K_ao_ this1 = K_ao_ this) by now rewrite H1.
  assert (Hs2 : store this2 = σJ) by reflexivity.
  assert (Hend : forall t', store t' = store this2
                            \/ (exists Kout, store t' = write_all (K_ao_ this) Kout σJ) ->
                            read_all (store t') (J_ao_ this) = J
                            /\ forall l, l ∈ J_ao_ this -> l ∈ dom (store t')).
  { intros t' [->|(Kout & ->)]; [rewrite Hs2; split; assumption|].
    split.
    - rewrite <- Hread. apply read_all_ext. intros l Hl.
      apply write_all_other. now apply Hdisj.
    - intros l Hl. apply elem_of_dom.
      rewrite write_all_other by now apply Hdisj. apply elem_of_dom. now apply Hdom. }
  destruct (do_K_ this2); [|intros [= <-]; apply Hend; now left].
  destruct (decide (k_type_ this2 = "LINK")) as [_|_].
  { destruct (LinK.build_linK _ _ _ _ _ _ _ _) as [[K m]|]; cbn; [|discriminate].
    intros [= <-]. apply Hend. right. exists K. cbn [store set_store set_num_computed_shells_ K_ao_].
    now rewrite HK1. }
  destruct (decide (k_type_ this2 = "COSX")) as [_|_].
  { destruct (COSK.build_COSK _ _ _ _ _) as [K m]. cbn.
    intros [= <-]. apply Hend. right. exists K. cbn [store set_store set_num_computed_shells_ K_ao_].
    now rewrite HK1. }
  intros [= <-]. apply Hend. now left.
Qed.

Lemma delta_loop_config (js : list nat) (t : CompositeJK) :
  let t' := fold_left delta_density js t in
  (nthreads_ t', J_metric_ t') = (nthreads_ t, J_metric_ t).
Proof.
  cbv zeta. revert t. induction js as [|j js IH]; intros t; [reflexivity|].
  cbn [fold_left]. rewrite IH. unfold delta_density, clone. reflexivity.
Qed.

(** The setup of an iteration leaves the thread count and the metric alone. *)
Lemma incfock_preprocessing_config (options_ : Options) (Dnorm : float)
    (this : CompositeJK) :
  let after := incfock_preprocessing options_ Dnorm this in
  (nthreads_ after, J_metric_ after) = (nthreads_ this, J_metric_ this).
Proof.
  cbv zeta. unfold incfock_preprocessing.
  destruct (incfock_ this); [|reflexivity].
  assert (Hd : (nthreads_ (incfock_decide options_ Dnorm this),
                J_metric_ (incfock_decide options_ Dnorm this))
               = (nthreads_ this, J_metric_ this)).
  { unfold incfock_decide. now destruct (negb _ && fge Dnorm _). }
  unfold incfock_setup.
  destruct (do_incfock_iter_ (incfock_decide options_ Dnorm this)); [|exact Hd].
  destruct (initial_iteration_ _ || _); [exact Hd|].
  now rewrite delta_loop_config.
Qed.

(** X19: on a full iteration that builds J, the J matrices that [compute_JK]
    leaves behind are what the J builder makes of the current densities and
    of zeroed accumulators: nothing of the earlier J survives, and neither the
    K build nor the refresh of the cache changes them. The J pointers are
    distinct and are no K or density pointers. *)
Theorem full_iteration_J_is_built (c : Collaborators) (options_ : Options)
    (Dnorm : float) (this final : CompositeJK) :
  do_J_ this = true -> j_type_ this = "DFDIRJ" ->
  NoDup (J_ao_ this) ->
  (forall l, l ∈ J_ao_ this -> l ∉ K_ao_ this) ->
  (forall l, l ∈ D_ao_ this -> l ∉ J_ao_ this ++ K_ao_ this) ->
  chosen_iteration options_ Dnorm this = Full ->
  compute_JK c options_ Dnorm this = Ok final ->
  read_all (store final) (J_ao_ this)
  = (DirectDFJ.build_DirectDFJ c (nthreads_ this) (J_metric_ this)
       (INTS_TOLERANCE options_)
       (read_all (store this) (D_ao_ this))
       (map mzero_out (read_all (store this) (J_ao_ this)))).1.
Proof.
  intros HJ Hj Hnd HJK HD Hfull Hrun.
  destruct (compute_JK_stages _ _ _ _ _ Hrun) as (_ & built & Hbuilt & ->).
  destruct (incfock_preprocessing_frame options_ Dnorm this) as (Hst & _).
  pose proof (incfock_preprocessing_config options_ Dnorm this) as Hcfg.
  destruct (full_iteration_effects _ _ _ Hfull) as (Href & Hstore).
  cbv zeta in Hst, Hcfg, Href, Hstore.
  set (pre := incfock_preprocessing options_ Dnorm this) in *.
  unfold statics in Hst. injection Hst as _ _ HJa HKa _ HdoJ _ _ Hjt _ _.
  injection Hcfg as Hn Hm.
  destruct (build_matrices_J c options_ pre built) as (Hread & Hdom); try congruence.
  { rewrite HJa, HKa. exact HJK. }
  rewrite HJa, Hn, Hm, Href in Hread.
  assert (HreadD : read_all (store pre) (D_ao_ this) = read_all (store this) (D_ao_ this)).
  { apply read_all_ext. intros l Hl. rewrite Hstore.
    now rewrite decide_False by now apply HD. }
  assert (HreadJ : read_all (store pre) (J_ao_ this)
                   = map mzero_out (read_all (store this) (J_ao_ this))).
  { unfold read_all. rewrite map_map. apply map_ext_in. intros l Hl.
    apply list_elem_of_In in Hl. unfold read. rewrite Hstore.
    rewrite decide_True by (apply elem_of_app; now left).
    now destruct (store this !! l). }
  rewrite HreadD, HreadJ in Hread. rewrite <- Hread.
  apply read_all_ext. intros l Hl.
  assert (Hld : l ∈ dom (store built)) by (apply Hdom; now rewrite HJa).
  cbv zeta.
  assert (Hpost : store (if incfock_ built then incfock_postiter built else built) !! l
                  = store built !! l).
  { destruct (incfock_ built); [|reflexivity].
    unfold incfock_postiter.
    destruct (push_clone_loop (D_ao_ built) (set_D_prev_ [] built))
      as (_ & news & _ & _ & _ & _ & _ & Hkeep & _).
    cbv zeta in Hkeep. now apply Hkeep. }
  rewrite <- Hpost.
  now destruct (initial_iteration_ (if incfock_ built then incfock_postiter built else built)).
Qed.

(** X23: on an incremental iteration that builds J, the J matrices are not
    zeroed: [compute_JK] leaves behind what the J builder makes of the
    density differences, current minus cached, on top of the J matrices it
    found. *)
Theorem incremental_iteration_J_accumulates (c : Collaborators) (options_ : Options)
    (Dnorm : float) (this final : CompositeJK) :
  do_J_ this = true -> j_type_ this = "DFDIRJ" ->
  NoDup (J_ao_ this) ->
  (forall l, l ∈ J_ao_ this -> l ∉ K_ao_ this) ->
  (forall l, l ∈ D_ao_ this ++ D_prev_ this ++ J_ao_ this -> l ∈ dom (store this)) ->
  length (D_ref_ this) = length (D_ao_ this) ->
  chosen_iteration options_ Dnorm this = Incremental ->
  compute_JK c options_ Dnorm this = Ok final ->
  read_all (store final) (J_ao_ this)
  = (DirectDFJ.build_DirectDFJ c (nthreads_ this) (J_metric_ this)
       (INTS_TOLERANCE options_)
       (zip_with (fun a p => msubtract (read (store this) a) (read (store this) p))
          (D_ao_ this) (D_prev_ this))
       (read_all (store this) (J_ao_ this))).1.
Proof.
  intros HJ Hj Hnd HJK Hdom Hlen Hinc Hrun.
  destruct (compute_JK_stages _ _ _ _ _ Hrun) as (_ & built & Hbuilt & ->).
  destruct (incfock_preprocessing_frame options_ Dnorm this) as (Hst & _).
  pose proof (incfock_preprocessing_config options_ Dnorm this) as Hcfg.
  destruct (incremental_iteration_effects _ _ _ Hinc Hlen) as (Hlr & Hkeep & Hdelta).
  { intros a Ha. apply Hdom. apply elem_of_app. now left. }
  { intros p Hp. apply Hdom. rewrite !elem_of_app. right. now left. }
  assert (Hinc' : incfock_ this = true).
  { unfold chosen_iteration in Hinc. destruct (incfock_ this); [reflexivity|discriminate]. }
  apply (chosen_iteration_incremental _ _ _ Hinc') in Hinc as (_ & Hlp & _).
  cbv zeta in Hst, Hcfg, Hlr, Hkeep, Hdelta.
  set (pre := incfock_preprocessing options_ Dnorm this) in *.
  unfold statics in Hst. injection Hst as _ _ HJa HKa _ HdoJ _ _ Hjt _ _.
  injection Hcfg as Hn Hm.
  destruct (build_matrices_J c options_ pre built) as (Hread & Hdomb); try congruence.
  { rewrite HJa, HKa. exact HJK. }
  rewrite HJa, Hn, Hm in Hread.
  assert (HreadJ : read_all (store pre) (J_ao_ this) = read_all (store this) (J_ao_ this)).
  { apply read_all_ext. intros l Hl. apply Hkeep, Hdom. rewrite !elem_of_app. now do 2 right. }
  assert (HreadD : read_all (store pre) (D_ref_ pre)
                   = zip_with (fun a p => msubtract (read (store this) a) (read (store this) p))
                       (D_ao_ this) (D_prev_ this)).
  { apply list_eq. intros j. unfold read_all. rewrite lookup_map, lookup_zip_with.
    destruct (D_ao_ this !! j) as [a|] eqn:Ha.
    - destruct (lookup_lt_is_Some_2 (D_prev_ this) j) as (p & Hp).
      { rewrite Hlp. now apply lookup_lt_Some in Ha. }
      destruct (Hdelta j a p Ha Hp) as (l & Hl & _ & Hsl).
      rewrite Hl, Hp. cbn. unfold read at 1. now rewrite Hsl.
    - cbn. rewrite (lookup_ge_None_2 (D_ref_ pre) j); [reflexivity|].
      rewrite Hlr. now apply lookup_ge_None_1. }
  rewrite HreadD, HreadJ in Hread. rewrite <- Hread.
  apply read_all_ext. intros l Hl.
  assert (Hld : l ∈ dom (store built)) by (apply Hdomb; now rewrite HJa).
  cbv zeta.
  assert (Hpost : store (if incfock_ built then incfock_postiter built else built) !! l
                  = store built !! l).
  { destruct (incfock_ built); [|reflexivity].
    unfold incfock_postiter.
    destruct (push_clone_loop (D_ao_ built) (set_D_prev_ [] built))
      as (_ & news & _ & _ & _ & _ & _ & Hk & _).
    cbv zeta in Hk. now apply Hk. }
  rewrite <- Hpost.
  now destruct (initial_iteration_ (if incfock_ built then incfock_postiter built else built)).
Qed.

End DriverOutputs.

(** * The bookkeeping of a COSX grid block *)

Section COSXBookkeeping.

Import Notions.
Import Num Mints COSKBlock.
Local Open Scope nat_scope.
Local Open Scope list_scope.

(** The table after [k] passes of its loop. *)
Lemma first_functions_loop (c : Collaborators) (shell_map : list nat) (k : nat) :
  k <= length shell_map ->
  let table := fold_left
    (fun table shell_map_ind =>
       let MU := default 0 (shell_map !! shell_map_ind) in
       table ++ [nfunction (shell (primary_ c) MU) + default 0 (last table)])
    (seq 0 k) [0] in
  length table = S k
  /\ forall i, i <= k ->
       table !! i
       = Some (sum_list_with (fun MU => nfunction (shell (primary_ c) MU)) (take i shell_map)).
Proof.
  induction k as [|k IH]; intros Hk; cbv zeta.
  { cbn. split; [reflexivity|]. intros i Hi. replace i with 0 by lia. reflexivity. }
  rewrite seq_S, fold_left_app. cbn [fold_left Nat.add].
  cbv zeta in IH. destruct (IH ltac:(lia)) as (Hlen & Hget).
  set (table := fold_left _ (seq 0 k) [0]) in *.
  destruct (lookup_lt_is_Some_2 shell_map k ltac:(lia)) as (MU & HMU).
  rewrite HMU. cbn [default].
  assert (Hlast : last table
                  = Some (sum_list_with (fun MU => nfunction (shell (primary_ c) MU))
                            (take k shell_map))).
  { rewrite last_lookup, Hlen. cbn [pred]. now apply Hget. }
  rewrite Hlast. cbn [default]. split.
  - rewrite length_app, Hlen. cbn. lia.
  - intros i Hi. destruct (decide (i = S k)) as [->|Hne].
    + rewrite lookup_app_r by lia. rewrite Hlen, Nat.sub_diag. cbn.
      rewrite (take_S_r _ _ _ HMU), sum_list_with_app. cbn. f_equal. lia.
    + rewrite lookup_app_l by lia. apply Hget. lia.
Qed.

Lemma sum_over_all_shells (b : BasisSet) (i : nat) :
  i <= nshell b ->
  sum_list_with (fun MU => nfunction (shell b MU)) (take i (seq 0 (nshell b)))
  = sum_list_with nfunction (take i (shells b)).
Proof.
  induction i as [|i IH]; intros Hi; [reflexivity|].
  destruct (lookup_lt_is_Some_2 (shells b) i) as (sh & Hsh); [unfold nshell in Hi; lia|].
  rewrite (take_S_r (seq 0 (nshell b)) i i) by (apply lookup_seq_lt; lia).
  rewrite (take_S_r _ _ _ Hsh), !sum_list_with_app, IH by lia.
  cbn. unfold shell. now rewrite Hsh.
Qed.

(** X20: the tables from shells to first functions hold running sums. The
    table of a shell map has one entry per shell, entry [i] being the number of
    functions of the shells before position [i]; so, on a basis set whose
    shells own consecutive functions, the table of all shells gives for every
    shell the index of its first basis function. *)
Theorem first_function_tables (c : Collaborators) (block : BlockOfPoints) :
  cumulative (primary_ c) ->
  (forall shell_map,
      length (first_functions c shell_map) = length shell_map
      /\ forall i, i < length shell_map ->
           first_functions c shell_map !! i
           = Some (sum_list_with (fun MU => nfunction (shell (primary_ c) MU))
                     (take i shell_map)))
  /\ length (shell_map_to_bf_map c block) = length (shells_local_to_global block)
  /\ forall TAU, TAU < nshell (primary_ c) ->
       shell_map_all_to_bf_map_all c !! TAU
       = Some (shell_to_basis_function (primary_ c) TAU).
Proof.
  intros Hcum.
  assert (Hgen : forall shell_map,
      length (first_functions c shell_map) = length shell_map
      /\ forall i, i < length shell_map ->
           first_functions c shell_map !! i
           = Some (sum_list_with (fun MU => nfunction (shell (primary_ c) MU))
                     (take i shell_map))).
  { intros shell_map. unfold first_functions.
    destruct (decide (0 < length shell_map)) as [Hpos|Hz]; cbv iota.
    - destruct (first_functions_loop c shell_map (length shell_map - 1) ltac:(lia))
        as (Hlen & Hget).
      cbv zeta in Hlen, Hget |- *.
      split; [rewrite Hlen; lia|]. intros i Hi. apply Hget. lia.
    - split; [cbn; lia|]. intros i Hi. lia. }
  split; [exact Hgen|]. split; [apply Hgen|].
  intros TAU HTAU. unfold shell_map_all_to_bf_map_all, shell_map_all.
  destruct (Hgen (seq 0 (nshell (primary_ c)))) as (_ & Hget).
  rewrite Hget by (rewrite length_seq; exact HTAU).
  rewrite sum_over_all_shells by lia.
  unfold shell_to_basis_function. now rewrite Hcum.
Qed.

Lemma increasing_cons (x : nat) (l : list nat) :
  increasing l -> Forall (fun y => x < y) l -> increasing (x :: l).
Proof.
  intros Hl Hx i j a b Hij Hi Hj.
  destruct j as [|j]; [lia|]. cbn in Hj.
  destruct i as [|i].
  - cbn in Hi. injection Hi as <-. exact (proj1 (Forall_lookup _ _) Hx j b Hj).
  - cbn in Hi. apply (Hl i j a b); [lia | exact Hi | exact Hj].
Qed.

(** What a loop that keeps the indices passing a test, in order, builds. *)
Lemma kept_indices (keep : nat -> bool) (start n : nat) :
  increasing (x ← seq start n; if keep x then [x] else [])
  /\ forall x, x ∈ (x ← seq start n; if keep x then [x] else [])
               <-> start <= x < start + n /\ keep x = true.
Proof.
  assert (Hmem : forall start n x,
            x ∈ (x ← seq start n; if keep x then [x] else [])
            <-> start <= x < start + n /\ keep x = true).
  { clear. intros start n x. rewrite list_elem_of_bind. split.
    - intros (y & Hin & Hy). apply elem_of_seq in Hy.
      destruct (keep y) eqn:Hk; [|now apply elem_of_nil in Hin].
      apply list_elem_of_singleton in Hin. subst y. split; [lia | exact Hk].
    - intros (Hx & Hk). exists x. rewrite Hk. split; [now apply list_elem_of_singleton|].
      apply elem_of_seq. lia. }
  split; [|apply Hmem].
  revert start. induction n as [|n IH]; intros start.
  { intros i j a b _ Hi. destruct i; discriminate. }
  cbn [seq]. change (increasing ((if keep start then [start] else [])
                                 ++ (x ← seq (S start) n; if keep x then [x] else []))).
  destruct (keep start); cbn [app]; [|apply IH].
  apply increasing_cons; [apply IH|].
  apply Forall_forall. intros y Hy. apply Hmem in Hy. lia.
Qed.

(** X21: [shell_map_tau] is in strictly increasing order, which is what the
    binary search on it needs, and it holds exactly the shells [TAU] of the
    basis for which the density maximum against some shell of the block is
    above the density tolerance. *)
Theorem shell_map_tau_is_sorted (c : Collaborators) (block : BlockOfPoints)
    (D_block_shell : Matrix) (dscreen : float) :
  increasing (shell_map_tau c block D_block_shell dscreen)
  /\ forall TAU,
       TAU ∈ shell_map_tau c block D_block_shell dscreen
       <-> TAU < nshell (primary_ c)
           /\ exists KAPPA_ind, KAPPA_ind < length (shells_local_to_global block)
                /\ fgt (mget D_block_shell TAU KAPPA_ind) dscreen = true.
Proof.
  unfold shell_map_tau, shell_map_all. rewrite length_seq.
  destruct (kept_indices
              (fun TAU => existsb (fun KAPPA_ind => fgt (mget D_block_shell TAU KAPPA_ind) dscreen)
                            (seq 0 (length (shells_local_to_global block))))
              0 (nshell (primary_ c))) as (Hinc & Hmem).
  split; [exact Hinc|]. intros TAU. rewrite Hmem, existsb_exists. split.
  - intros (HT & K & HK & Hgt). apply in_seq in HK. split; [lia|]. exists K. split; [lia|exact Hgt].
  - intros (HT & K & HK & Hgt). split; [lia|]. exists K. split; [apply in_seq; lia | exact Hgt].
Qed.

(** X22: the integral loop takes a shell pair in one order only. A pair that
    gets past the symmetry test has [TAU] in [shell_map_tau] and [NU] in the
    extent list of [TAU]; when it is flagged symmetric, [TAU < NU]; and two
    different shells never get past the test in both orders. *)
Theorem symmetric_pair_visited_once (shell_extent_map : list (list nat))
    (shell_map_tau : list nat) :
  (forall TAU NU s,
      (TAU, NU, s) ∈ pairs_past_symmetry shell_extent_map shell_map_tau
      <-> TAU ∈ shell_map_tau
          /\ NU ∈ default [] (shell_extent_map !! TAU)
          /\ s = symm shell_map_tau TAU NU
          /\ (s = true -> TAU < NU))
  /\ (forall TAU NU s s',
      TAU <> NU ->
      (TAU, NU, s) ∈ pairs_past_symmetry shell_extent_map shell_map_tau ->
      (NU, TAU, s') ∈ pairs_past_symmetry shell_extent_map shell_map_tau ->
      False).
Proof.
  assert (Hmem : forall TAU NU s,
      (TAU, NU, s) ∈ pairs_past_symmetry shell_extent_map shell_map_tau
      <-> TAU ∈ shell_map_tau
          /\ NU ∈ default [] (shell_extent_map !! TAU)
          /\ s = symm shell_map_tau TAU NU
          /\ (s = true -> TAU < NU)).
  { intros TAU NU s. unfold pairs_past_symmetry. rewrite list_elem_of_bind. split.
    - intros (T & Hin & HT). apply list_elem_of_bind in Hin as (N & Hin & HN).
      destruct (symm shell_map_tau T N) eqn:Hs; cbn [andb] in Hin.
      + destruct (bool_decide_reflect (N < T)) as [Hlt|Hge];
          [now apply elem_of_nil in Hin|].
        apply list_elem_of_singleton in Hin. injection Hin as -> -> ->.
        repeat split; try assumption; [now rewrite Hs|].
        intros _. unfold symm in Hs. apply andb_prop in Hs as (Hne & _).
        apply bool_decide_eq_true in Hne. lia.
      + apply list_elem_of_singleton in Hin. injection Hin as -> -> ->.
        repeat split; try assumption; [now rewrite Hs | discriminate].
    - intros (HT & HN & -> & Hlt). exists TAU. split; [|exact HT].
      apply list_elem_of_bind. exists NU. split; [|exact HN].
      destruct (symm shell_map_tau TAU NU); cbn [andb].
      + rewrite bool_decide_eq_false_2 by (specialize (Hlt eq_refl); lia).
        now apply list_elem_of_singleton.
      + now apply list_elem_of_singleton. }
  split; [exact Hmem|].
  intros TAU NU s s' Hne H1 H2.
  apply Hmem in H1 as (HT & _ & -> & Hlt1). apply Hmem in H2 as (HN & _ & -> & Hlt2).
  assert (Hs1 : symm shell_map_tau TAU NU = true).
  { unfold symm. rewrite (bool_decide_eq_true_2 (NU ≠ TAU)) by congruence.
    now rewrite bool_decide_eq_true_2. }
  assert (Hs2 : symm shell_map_tau NU TAU = true).
  { unfold symm. rewrite (bool_decide_eq_true_2 (TAU ≠ NU)) by congruence.
    now rewrite bool_decide_eq_true_2. }
  specialize (Hlt1 Hs1). specialize (Hlt2 Hs2). lia.
Qed.

End COSXBookkeeping.

(** * The further properties on the small system *)

Section FurtherExamples.

Import Notions.
Import Num Mints JK Example Samples.
Local Open Scope nat_scope.
Local Open Scope list_scope.

Lemma sort_descending_permutes (l : list (nat * float)) : sort_descending l ≡ₚ l.
Proof.
  assert (Hins : forall x l, insert_sorted x l ≡ₚ x :: l).
  { intros x l'. induction l' as [|y rest IH]; [reflexivity|].
    cbn [insert_sorted]. destruct (screen_compare y x); [|reflexivity].
    rewrite IH. apply Permutation_swap. }
  induction l as [|x rest IH]; [reflexivity|].
  unfold sort_descending in *. cbn [fold_right]. now rewrite Hins, IH.
Qed.

Lemma common_init_establishes_example :
  common_init system (options "DFDIRJ+LINK") base_object = Ok configured
  /\ j_type_ configured = "DFDIRJ" /\ incfock_count_ configured = 0%Z.
Proof.
  assert (H : common_init system (options "DFDIRJ+LINK") base_object = Ok configured)
    by (vm_compute; reflexivity).
  split; [exact H|].
  destruct (common_init_establishes _ _ _ _ H) as (Hj & _ & _ & _ & _ & Hc & _).
  split; assumption.
Defined.

Lemma bare_tag_refuses_K_example :
  common_init system (options "DFDIRJ") base_object = Ok configured_J_only
  /\ throws (set_do_K true configured_J_only).
Proof.
  assert (H : common_init system (options "DFDIRJ") base_object = Ok configured_J_only)
    by (vm_compute; reflexivity).
  split; [exact H|].
  destruct (bare_tag_refuses_K system (options "DFDIRJ") base_object configured_J_only)
    as (_ & _ & Ht & _).
  - apply plus_free_no_plus. reflexivity.
  - vm_compute. reflexivity.
  - exact H.
  - rewrite Ht. exact I.
Defined.

Lemma derive_jk_types_recombines_example :
  derive_jk_types "DFDIRJ+LINK" = Ok ("DFDIRJ", "LINK")
  /\ no_plus "DFDIRJ".
Proof.
  assert (H : derive_jk_types "DFDIRJ+LINK" = Ok ("DFDIRJ", "LINK"))
    by (vm_compute; reflexivity).
  split; [exact H|].
  destruct (derive_jk_types_recombines "DFDIRJ+LINK" "DFDIRJ" "LINK") as (Hn & _).
  - vm_compute. reflexivity.
  - exact H.
  - exact Hn.
Defined.

Lemma first_iteration_is_full_example :
  compute_JK system (options "DFDIRJ+LINK") 1%float configured = Ok after_first
  /\ initial_iteration_ configured = true
  /\ initial_iteration_ after_first = false
  /\ chosen_iteration (options "DFDIRJ+LINK") 1%float configured = Full.
Proof.
  assert (H : compute_JK system (options "DFDIRJ+LINK") 1%float configured = Ok after_first)
    by (vm_compute; reflexivity).
  assert (Hi : initial_iteration_ configured = true) by (vm_compute; reflexivity).
  destruct (first_iteration_is_full _ _ _ _ _ H) as (Hf & Hfirst).
  destruct (Hfirst Hi) as (Hfull & _).
  exact (conj H (conj Hi (conj Hf Hfull))).
Defined.

Lemma incfock_count_counts_example :
  compute_JK system (options "DFDIRJ+LINK") 1%float after_first = Ok after_second
  /\ chosen_iteration (options "DFDIRJ+LINK") 1%float after_first = Incremental
  /\ incfock_count_ after_second = (incfock_count_ after_first + 1)%Z.
Proof.
  assert (H : compute_JK system (options "DFDIRJ+LINK") 1%float after_first
              = Ok after_second) by (vm_compute; reflexivity).
  assert (Hi : chosen_iteration (options "DFDIRJ+LINK") 1%float after_first = Incremental)
    by (vm_compute; reflexivity).
  destruct (incfock_count_counts _ _ _ _ _ H) as (_ & Hc).
  exact (conj H (conj Hi (Hc Hi))).
Defined.

Lemma cache_size_mismatch_is_full_example :
  compute_JK system (options "DFDIRJ+LINK") 1%float cache_lost = Ok after_cache_lost
  /\ length (D_prev_ cache_lost) = 0 /\ length (D_ao_ cache_lost) = 1
  /\ chosen_iteration (options "DFDIRJ+LINK") 1%float cache_lost = Full
  /\ do_incfock_iter_ after_cache_lost = true.
Proof.
  assert (H : compute_JK system (options "DFDIRJ+LINK") 1%float cache_lost
              = Ok after_cache_lost) by (vm_compute; reflexivity).
  assert (Hp : length (D_prev_ cache_lost) = 0) by (vm_compute; reflexivity).
  assert (Ha : length (D_ao_ cache_lost) = 1) by (vm_compute; reflexivity).
  destruct (cache_size_mismatch_is_full system (options "DFDIRJ+LINK") 1%float
              cache_lost after_cache_lost) as (Hfull & _ & Hflag & _).
  - vm_compute. reflexivity.
  - vm_compute. reflexivity.
  - vm_compute. reflexivity.
  - vm_compute. intros H'. discriminate H'.
  - rewrite Hp, Ha. discriminate.
  - exact H.
  - exact (conj H (conj Hp (conj Ha (conj Hfull Hflag)))).
Defined.

Lemma full_build_cadence_example :
  let opts := options "DFDIRJ+LINK" in
  incfock_count_ after_first = 0%Z
  /\ (run system opts [1; 1; 1; 1; 1; 1]%float after_first).1
     = [Incremental; Incremental; Full; Incremental; Incremental; Full].
Proof.
  cbv zeta. assert (H0 : incfock_count_ after_first = 0%Z) by (vm_compute; reflexivity).
  split; [exact H0|].
  destruct (full_build_cadence system (options "DFDIRJ+LINK") [1; 1; 1; 1; 1; 1]%float
              after_first) as (Hk & _).
  - vm_compute. reflexivity.
  - vm_compute. reflexivity.
  - vm_compute. reflexivity.
  - intros _ _. vm_compute. reflexivity.
  - vm_compute. reflexivity.
  - repeat constructor.
  - rewrite Hk, H0. vm_compute. reflexivity.
Defined.

Lemma incfock_off_is_inert_example :
  let this := set_incfock_ false configured in
  exists final,
    compute_JK system (options "DFDIRJ+LINK") 1%float this = Ok final
    /\ incfock_ this = false
    /\ D_prev_ final = D_prev_ this.
Proof.
  cbv zeta. eexists. split; [vm_compute; reflexivity|].
  split; [vm_compute; reflexivity|].
  eapply (fun H1 H2 =>
            proj1 (proj2 (incfock_off_is_inert system (options "DFDIRJ+LINK") 1%float
                            (set_incfock_ false configured) _ H1 H2))).
  - vm_compute. reflexivity.
  - vm_compute. reflexivity.
Defined.

Lemma thread_owns_its_buffer_example :
  let D := [small_offdiagonal] in
  exists GTjki,
    (DirectDFJ.forward_contraction system 1 D (DirectDFJ.Dshell system D)
       (DirectDFJ.J_metric_shell_diag system [[1%float]]) 0x1p-80%float).1 !! 0
    = Some GTjki
    /\ length GTjki = 1.
Proof.
  cbv zeta.
  destruct (thread_owns_its_buffer system 1 [small_offdiagonal]
              (DirectDFJ.Dshell system [small_offdiagonal])
              (DirectDFJ.J_metric_shell_diag system [[1%float]]) 0x1p-80%float 0 0)
    as (GTjki & H1 & H2 & _).
  - cbn. lia.
  - lia.
  - exists GTjki. split; assumption.
Defined.

Lemma significant_lists_hold_what_passes_example :
  (forall l, std_sort system l ≡ₚ l)
  /\ 1 ∈ default [] (LinK.significant_bras system 0x1p-40%float !! 0).
Proof.
  assert (Hs : forall l, std_sort system l ≡ₚ l) by exact sort_descending_permutes.
  split; [exact Hs|].
  destruct (significant_lists_hold_what_passes system [small_offdiagonal]
              0x1p-40%float 0x1p-40%float 0 Hs) as (Hb & _).
  - vm_compute. lia.
  - apply Hb. split; [vm_compute; lia | vm_compute; reflexivity].
Defined.

Lemma nothing_significant_nothing_built_example :
  (forall P Q, shell_pair_significant (eri4 quiet_system) P Q = false)
  /\ LinK.build_linK quiet_system 1 true 0x1p-40%float 0x1p-40%float
       [small_offdiagonal] [small_offdiagonal] [small_offdiagonal]
     = Ok ([hermitivitize_half_sum small_offdiagonal], 0).
Proof.
  assert (Hq : forall P Q, shell_pair_significant (eri4 quiet_system) P Q = false)
    by (intros P Q; reflexivity).
  split; [exact Hq|].
  exact (proj2 (nothing_significant_nothing_built quiet_system 1 0x1p-40%float 0x1p-40%float
                  [small_offdiagonal] [small_offdiagonal] [small_offdiagonal] Hq)).
Defined.

Lemma ML_PQ_is_canonical_example :
  (forall l, std_sort system l ≡ₚ l)
  /\ canonical_for 2 1 0
       (LinK.ML_PQ
          (LinK.form_ML_PQ system [small_offdiagonal] 0x1p-40%float
             (LinK.significant_bras system 0x1p-40%float)
             (LinK.significant_kets system [small_offdiagonal] 0x1p-40%float)
             1 0 0 0 [∅] [∅] [])).
Proof.
  assert (Hs : forall l, std_sort system l ≡ₚ l) by exact sort_descending_permutes.
  split; [exact Hs|].
  exact (ML_PQ_is_canonical system [small_offdiagonal] 0x1p-40%float 0x1p-40%float
           1 0 0 0 [∅] [∅] [] Hs).
Defined.

Lemma first_function_tables_example :
  cumulative (primary_ system)
  /\ COSKBlock.shell_map_all_to_bf_map_all system !! 1 = Some 1.
Proof.
  assert (Hc : cumulative (primary_ system)).
  { intros i Hi. destruct i as [|[|i]]; [reflexivity | reflexivity|].
    cbn in Hi. lia. }
  split; [exact Hc|].
  destruct (first_function_tables system
              {| COSKBlock.functions_local_to_global := [0; 1];
                 COSKBlock.shells_local_to_global := [0; 1] |} Hc) as (_ & _ & Ht).
  rewrite (Ht 1); [reflexivity | cbn; lia].
Defined.

Lemma full_iteration_J_is_built_example :
  compute_JK system (options "DFDIRJ+LINK") 1%float configured = Ok after_first
  /\ chosen_iteration (options "DFDIRJ+LINK") 1%float configured = Full
  /\ read_all (store after_first) [1]
     = (DirectDFJ.build_DirectDFJ system 1 [[1%float]] 0x1p-40%float
          [small_offdiagonal] [mzero 2 2]).1.
Proof.
  assert (H : compute_JK system (options "DFDIRJ+LINK") 1%float configured = Ok after_first)
    by (vm_compute; reflexivity).
  assert (Hf : chosen_iteration (options "DFDIRJ+LINK") 1%float configured = Full)
    by (vm_compute; reflexivity).
  split; [exact H|]. split; [exact Hf|].
  assert (HJ : J_ao_ configured = [1]) by (vm_compute; reflexivity).
  assert (HK : K_ao_ configured = [2]) by (vm_compute; reflexivity).
  assert (HD : D_ao_ configured = [0]) by (vm_compute; reflexivity).
  pose proof (full_iteration_J_is_built system (options "DFDIRJ+LINK") 1%float
                configured after_first) as Hthm.
  rewrite HJ, HK, HD in Hthm.
  etransitivity; [apply Hthm|].
  - vm_compute. reflexivity.
  - vm_compute. reflexivity.
  - apply NoDup_singleton.
  - intros l Hl Hk. apply list_elem_of_singleton in Hl, Hk. congruence.
  - intros l Hl Hk. apply list_elem_of_singleton in Hl. subst l.
    apply elem_of_cons in Hk as [Hk|Hk]; [discriminate|].
    apply list_elem_of_singleton in Hk. discriminate.
  - exact Hf.
  - exact H.
  - vm_compute. reflexivity.
Defined.

Lemma incremental_iteration_J_accumulates_example :
  compute_JK system (options "DFDIRJ+LINK") 1%float after_first = Ok after_second
  /\ chosen_iteration (options "DFDIRJ+LINK") 1%float after_first = Incremental
  /\ read_all (store after_second) [1]
     = (DirectDFJ.build_DirectDFJ system 1 [[1%float]] 0x1p-40%float
          [mzero 2 2] (read_all (store after_first) [1])).1.
Proof.
  assert (H : compute_JK system (options "DFDIRJ+LINK") 1%float after_first
              = Ok after_second) by (vm_compute; reflexivity).
  assert (Hi : chosen_iteration (options "DFDIRJ+LINK") 1%float after_first = Incremental)
    by (vm_compute; reflexivity).
  split; [exact H|]. split; [exact Hi|].
  assert (HJ : J_ao_ after_first = [1]) by (vm_compute; reflexivity).
  assert (HK : K_ao_ after_first = [2]) by (vm_compute; reflexivity).
  assert (HD : D_ao_ after_first = [0]) by (vm_compute; reflexivity).
  assert (HP : D_prev_ after_first = [3]) by (vm_compute; reflexivity).
  pose proof (incremental_iteration_J_accumulates system (options "DFDIRJ+LINK") 1%float
                after_first after_second) as Hthm.
  rewrite HJ, HK, HD, HP in Hthm.
  etransitivity; [apply Hthm|].
  - vm_compute. reflexivity.
  - vm_compute. reflexivity.
  - apply NoDup_singleton.
  - intros l Hl Hk. apply list_elem_of_singleton in Hl, Hk. congruence.
  - intros l Hl. apply elem_of_dom.
    apply elem_of_cons in Hl as [->|Hl]; [vm_compute; eauto|].
    apply elem_of_cons in Hl as [->|Hl]; [vm_compute; eauto|].
    apply list_elem_of_singleton in Hl. subst l. vm_compute. eauto.
  - vm_compute. reflexivity.
  - exact Hi.
  - exact H.
  - vm_compute. reflexivity.
Defined.

End FurtherExamples.
